(** * Standard NMF (methods/factorization/nmf.py): a shallow embedding

    The class [Nmf] of [methods/factorization/nmf.py] is embedded as a record
    of its instance attributes, and its methods as functions on that record.
    Methods that read and write attributes, call collaborators or may raise
    run in a small state-and-exception monad [M]; the [while] loop of
    [factorize] takes a fuel argument.

    The dense linear-algebra helpers of [utils.linalg] ([dot], [multiply],
    [elop], [sop], [repmat], [argmax], [max]) are not part of the file; they
    are modelled on lists of rows after the interface contract of the
    specification, over an abstract element type [Scalar]. *)

From Stdlib Require Import ZArith Bool String PrimFloat Uint63.
From stdpp Require Import base option list gmap strings.

Open Scope Z_scope.
Set Warnings "-inexact-float".

(** ** Python values and exceptions *)

(** Values found in the [options] dictionary. *)
Inductive pyval :=
| PNone
| PBool (b : bool)
| PInt (z : Z)
| PStr (s : string).

(** Python truth value testing. *)
Definition truthy (v : pyval) : bool :=
  match v with
  | PNone => false
  | PBool b => b
  | PInt z => negb (z =? 0)
  | PStr s => negb (String.eqb s "")
  end.

Inductive exn :=
| AttributeError (attr : string)
| TypeError
| ValueError
| UnboundLocalError (var : string)
| Raised (msg : string).

Inductive result (A : Type) :=
| Ok (a : A)
| Err (e : exn).
Arguments Ok {A} a.
Arguments Err {A} e.

Definition rbind {A B} (r : result A) (k : A → result B) : result B :=
  match r with
  | Ok a => k a
  | Err e => Err e
  end.

Notation "'let?' x := e 'in' k" := (rbind e (λ x, k))
  (at level 10, x pattern, e at level 100, k at level 200).

(** ** Matrix elements *)

(** The numeric type of the matrix entries and of the objective values,
    with the operations the methods use.  [eps] is [np.finfo(dtype).eps];
    [rof_Z] is the numeric value of an integer count. *)
Class Scalar (R : Type) := {
  rzero : R;
  radd : R → R → R;
  rsub : R → R → R;
  rmul : R → R → R;
  rdiv : R → R → R;
  rlog : R → R;
  rleb : R → R → bool;
  rltb : R → R → bool;
  reqb : R → R → bool;
  rof_Z : Z → R;
  eps : R
}.

(** ** Dense matrices as lists of rows *)

Abbreviation Matrix A := (list (list A)).

Definition nrows {A} (X : Matrix A) : nat := length X.

Definition ncols {A} (X : Matrix A) : nat :=
  match X with
  | [] => 0%nat
  | r :: _ => length r
  end.

Definition shape {A} (X : Matrix A) : nat * nat := (nrows X, ncols X).

(** [X[i, j]], when in range. *)
Definition entry {A} (X : Matrix A) (i j : nat) : option A :=
  X !! i ≫= (λ r, r !! j).

Definition column {A} (X : Matrix A) (j : nat) : list A :=
  omap (λ r : list A, r !! j) X.

(** [X.T] *)
Definition transpose {A} (X : Matrix A) : Matrix A :=
  (λ j, column X j) <$> seq 0 (ncols X).

(** [np.ones_like(X)] on a boolean matrix. *)
Definition ones_like (X : Matrix bool) : Matrix bool :=
  (λ r : list bool, (λ _, true) <$> r) <$> X.

(** [X.copy()] gives a value that later assignments do not reach; values of
    the embedding are immutable, so the copy is the matrix itself. *)
Definition copy {A} (X : Matrix A) : Matrix A := X.

(** An m x n matrix: m rows of n elements. *)
Definition wf {A} (m n : nat) (X : Matrix A) : Prop :=
  length X = m ∧ Forall (λ r : list A, length r = n) X.

(** The matrix with element [f i j] at row [i] and column [j]. *)
Definition tabulate {A} (m n : nat) (f : nat → nat → A) : Matrix A :=
  (λ i, (λ j, f i j) <$> seq 0 n) <$> seq 0 m.

(** The helpers of [utils.linalg], the operators they are given, and the
    sums of numpy matrices. *)
Module linalg.

(** Modelled from the spec: [repmat(X, a, b)] of [utils.linalg], the block
    matrix made of [a] by [b] copies of [X]. *)
Definition repmat {A} (X : Matrix A) (a b : nat) : Matrix A :=
  concat (replicate a ((λ r : list A, concat (replicate b r)) <$> X)).

(** Modelled from the spec: [elop(X, Y, op)] of [utils.linalg], the
    elementwise binary operation on operands of matching shape. *)
Definition elop {A B C} (X : Matrix A) (Y : Matrix B) (op : A → B → C)
  : result (Matrix C) :=
  if decide (shape X = shape Y)
  then Ok (zip_with (zip_with op) X Y)
  else Err ValueError.

(** Subtraction of numpy booleans (exclusive or). *)
Definition bool_sub (a b : bool) : bool := xorb a b.

Definition eq (a b : nat) : bool := Nat.eqb a b.
Definition ne (a b : bool) : bool := xorb a b.

(** [X.sum()] of a boolean matrix: the number of [True] entries. *)
Definition count_true (X : Matrix bool) : Z :=
  Z.of_nat (length (filter (λ b, b = true) (concat X))).

Section Linalg.
Context {R : Type} {SR : Scalar R}.

Definition sumlist (l : list R) : R := foldl radd rzero l.

(** Row by column product, accumulated from the left. *)
Definition inner (u v : list R) : R :=
  foldl (λ acc p, radd acc (rmul p.1 p.2)) rzero (zip u v).

(** Modelled from the spec: [dot(X, Y)] of [utils.linalg], the matrix
    product, which checks that the inner dimensions agree. *)
Definition dot (X Y : Matrix R) : result (Matrix R) :=
  if decide (ncols X = nrows Y)
  then Ok ((λ r : list R, (λ j, inner r (column Y j)) <$> seq 0 (ncols Y)) <$> X)
  else Err ValueError.

(** Modelled from the spec: [multiply(X, Y)] of [utils.linalg], the
    elementwise product. *)
Definition multiply (X Y : Matrix R) : result (Matrix R) := elop X Y rmul.

Definition div : R → R → R := rdiv.

(** [X - Y] on matrices. *)
Definition msub (X Y : Matrix R) : result (Matrix R) := elop X Y rsub.

(** [X + Y] on matrices. *)
Definition madd (X Y : Matrix R) : result (Matrix R) := elop X Y radd.

(** Modelled from the spec: [sop(X, s, op)] of [utils.linalg], the
    elementwise operation with a scalar. *)
Definition sop {S} (X : Matrix R) (s : S) (op : R → S → R) : Matrix R :=
  (λ r : list R, (λ x, op x s) <$> r) <$> X.

(** [sop(X, op = f)] with no scalar given: [f] applied to each element. *)
Definition sop1 (X : Matrix R) (op : R → R) : Matrix R :=
  (λ r : list R, op <$> r) <$> X.

(** [pow(x, n)] for an integer exponent. *)
Definition pow (x : R) (n : Z) : R :=
  match n with
  | Z0 => rof_Z 1
  | Zpos p => Pos.iter_op rmul p x
  | Zneg p => rdiv (rof_Z 1) (Pos.iter_op rmul p x)
  end.

Definition log : R → R := rlog.

(** Modelled from the spec: [max(X, s)] of [utils.linalg], which floors
    each element at the scalar [s]: an element stays when [s <= x] holds
    and becomes [s] otherwise, also when the two do not compare (NaN), so
    that every element of the result is at least [s] as the specification
    has it. *)
Definition max (X : Matrix R) (s : R) : Matrix R :=
  (λ r : list R, (λ x, if rleb s x then x else s) <$> r) <$> X.

(** [X.sum(0)]: the 1 x n matrix of column sums. *)
Definition sum0 (X : Matrix R) : Matrix R :=
  [ (λ j, sumlist (column X j)) <$> seq 0 (ncols X) ].

(** [X.sum(1)]: the m x 1 matrix of row sums. *)
Definition sum1 (X : Matrix R) : Matrix R :=
  (λ r : list R, [sumlist r]) <$> X.

(** [X.sum()] *)
Definition sum (X : Matrix R) : R := sumlist (concat X).

(** Index of the first largest element of a list. *)
Fixpoint argmax_from (bi : nat) (b : R) (i : nat) (l : list R) : nat :=
  match l with
  | [] => bi
  | x :: l' =>
      if rltb b x then argmax_from i x (S i) l'
      else argmax_from bi b (S i) l'
  end.

Definition argmax_list (l : list R) : nat :=
  match l with
  | [] => 0%nat
  | x :: l' => argmax_from 0 x 1 l'
  end.

(** Modelled from the spec: [argmax(X, axis = 0)] of [utils.linalg],
    returning the row of column maxima and the row of their row indices. *)
Definition argmax0 (X : Matrix R) : Matrix R * Matrix nat :=
  let idx := (λ j, argmax_list (column X j)) <$> seq 0 (ncols X) in
  ([omap (λ p : nat * nat, entry X p.1 p.2) (zip idx (seq 0 (ncols X)))],
   [idx]).
End Linalg.

End linalg.

(** ** The instance and its collaborators *)

Inductive update_rule := Euclidean | Divergence.
Inductive objective_rule := Fro | Div | Conn.

(** The methods of the class whose name ends in [_update], and those whose
    name ends in [_objective]; the class defines no other attribute with
    such a name. *)
Definition update_methods : list (string * update_rule) :=
  [("euclidean_update", Euclidean); ("divergence_update", Divergence)]%string.

Definition objective_methods : list (string * objective_rule) :=
  [("fro_objective", Fro); ("div_objective", Div); ("conn_objective", Conn)]%string.

Fixpoint assoc {A} (name : string) (table : list (string * A)) : option A :=
  match table with
  | [] => None
  | (k, v) :: rest => if String.eqb name k then Some v else assoc name rest
  end.

(** [getattr(self, name)] on a table of methods. *)
Definition getattr {A} (table : list (string * A)) (name : string) : result A :=
  match assoc name table with
  | Some m => Ok m
  | None => Err (AttributeError name)
  end.

(** [v + suffix] for a value [v] read from the options. *)
Definition str_add (v : pyval) (suffix : string) : result string :=
  match v with
  | PStr s => Ok (s +:+ suffix)
  | _ => Err TypeError
  end.

(** What the lookup of the method named [v + suffix] raises when [v] is
    not the name of one: [TypeError] from the concatenation when [v] is not
    a string, [AttributeError] on the name otherwise. *)
Definition lookup_error (v : pyval) (suffix : string) : exn :=
  match v with
  | PStr s => AttributeError (s +:+ suffix)
  | _ => TypeError
  end.

(** What the loop does, in order; kept beside the instance to state how
    many times each collaborator and method was reached. *)
Inductive event :=
| Seeded (run : nat)
| Updated
| Adjusted
| Evaluated
| ErrorTracked
| CalledBack
| FactorTracked.

Section Instance.
Context {R : Type} {SR : Scalar R}.

(** [mf_track.Mf_track]: the history it was given. *)
Record Mf_track := {
  errors : list R;
  factors : list (Matrix R * Matrix R)
}.

(** The attributes of an [Nmf] instance.  [cons] and [consold] exist only
    once assigned ([None]: no such attribute); [tracker] holds [None] or a
    tracker; the limits hold [None] or a number. *)
Record Nmf := {
  V : Matrix R;
  W : Matrix R;
  H : Matrix R;
  rank : Z;
  options : gmap string pyval;
  n_run : Z;
  max_iter : option Z;
  min_residuals : option R;
  test_conv : option Z;
  update : option update_rule;
  objective : option objective_rule;
  track_factor : pyval;
  track_error : pyval;
  tracker : option Mf_track;
  cons : option (Matrix bool);
  consold : option (Matrix bool);
  n_iter : option Z;
  final_obj : option R
}.

Definition set_W (x : Matrix R) (s : Nmf) : Nmf :=
  {| V := V s; W := x; H := H s; rank := rank s; options := options s;
     n_run := n_run s; max_iter := max_iter s; min_residuals := min_residuals s;
     test_conv := test_conv s; update := update s; objective := objective s;
     track_factor := track_factor s; track_error := track_error s;
     tracker := tracker s; cons := cons s; consold := consold s;
     n_iter := n_iter s; final_obj := final_obj s |}.

Definition set_H (x : Matrix R) (s : Nmf) : Nmf :=
  {| V := V s; W := W s; H := x; rank := rank s; options := options s;
     n_run := n_run s; max_iter := max_iter s; min_residuals := min_residuals s;
     test_conv := test_conv s; update := update s; objective := objective s;
     track_factor := track_factor s; track_error := track_error s;
     tracker := tracker s; cons := cons s; consold := consold s;
     n_iter := n_iter s; final_obj := final_obj s |}.

Definition set_update (x : option update_rule) (s : Nmf) : Nmf :=
  {| V := V s; W := W s; H := H s; rank := rank s; options := options s;
     n_run := n_run s; max_iter := max_iter s; min_residuals := min_residuals s;
     test_conv := test_conv s; update := x; objective := objective s;
     track_factor := track_factor s; track_error := track_error s;
     tracker := tracker s; cons := cons s; consold := consold s;
     n_iter := n_iter s; final_obj := final_obj s |}.

Definition set_objective (x : option objective_rule) (s : Nmf) : Nmf :=
  {| V := V s; W := W s; H := H s; rank := rank s; options := options s;
     n_run := n_run s; max_iter := max_iter s; min_residuals := min_residuals s;
     test_conv := test_conv s; update := update s; objective := x;
     track_factor := track_factor s; track_error := track_error s;
     tracker := tracker s; cons := cons s; consold := consold s;
     n_iter := n_iter s; final_obj := final_obj s |}.

Definition set_track_factor (x : pyval) (s : Nmf) : Nmf :=
  {| V := V s; W := W s; H := H s; rank := rank s; options := options s;
     n_run := n_run s; max_iter := max_iter s; min_residuals := min_residuals s;
     test_conv := test_conv s; update := update s; objective := objective s;
     track_factor := x; track_error := track_error s;
     tracker := tracker s; cons := cons s; consold := consold s;
     n_iter := n_iter s; final_obj := final_obj s |}.

Definition set_track_error (x : pyval) (s : Nmf) : Nmf :=
  {| V := V s; W := W s; H := H s; rank := rank s; options := options s;
     n_run := n_run s; max_iter := max_iter s; min_residuals := min_residuals s;
     test_conv := test_conv s; update := update s; objective := objective s;
     track_factor := track_factor s; track_error := x;
     tracker := tracker s; cons := cons s; consold := consold s;
     n_iter := n_iter s; final_obj := final_obj s |}.

Definition set_tracker (x : option Mf_track) (s : Nmf) : Nmf :=
  {| V := V s; W := W s; H := H s; rank := rank s; options := options s;
     n_run := n_run s; max_iter := max_iter s; min_residuals := min_residuals s;
     test_conv := test_conv s; update := update s; objective := objective s;
     track_factor := track_factor s; track_error := track_error s;
     tracker := x; cons := cons s; consold := consold s;
     n_iter := n_iter s; final_obj := final_obj s |}.

Definition set_cons (x : option (Matrix bool)) (s : Nmf) : Nmf :=
  {| V := V s; W := W s; H := H s; rank := rank s; options := options s;
     n_run := n_run s; max_iter := max_iter s; min_residuals := min_residuals s;
     test_conv := test_conv s; update := update s; objective := objective s;
     track_factor := track_factor s; track_error := track_error s;
     tracker := tracker s; cons := x; consold := consold s;
     n_iter := n_iter s; final_obj := final_obj s |}.

Definition set_consold (x : option (Matrix bool)) (s : Nmf) : Nmf :=
  {| V := V s; W := W s; H := H s; rank := rank s; options := options s;
     n_run := n_run s; max_iter := max_iter s; min_residuals := min_residuals s;
     test_conv := test_conv s; update := update s; objective := objective s;
     track_factor := track_factor s; track_error := track_error s;
     tracker := tracker s; cons := cons s; consold := x;
     n_iter := n_iter s; final_obj := final_obj s |}.

Definition set_n_iter (x : option Z) (s : Nmf) : Nmf :=
  {| V := V s; W := W s; H := H s; rank := rank s; options := options s;
     n_run := n_run s; max_iter := max_iter s; min_residuals := min_residuals s;
     test_conv := test_conv s; update := update s; objective := objective s;
     track_factor := track_factor s; track_error := track_error s;
     tracker := tracker s; cons := cons s; consold := consold s;
     n_iter := x; final_obj := final_obj s |}.

Definition set_final_obj (x : option R) (s : Nmf) : Nmf :=
  {| V := V s; W := W s; H := H s; rank := rank s; options := options s;
     n_run := n_run s; max_iter := max_iter s; min_residuals := min_residuals s;
     test_conv := test_conv s; update := update s; objective := objective s;
     track_factor := track_factor s; track_error := track_error s;
     tracker := tracker s; cons := cons s; consold := consold s;
     n_iter := n_iter s; final_obj := x |}.

(** [mf_fit.Mf_fit(self)]: the fitted model wraps the instance. *)
Record Mf_fit := { fit : Nmf }.

(** The instance together with the record of what has been done to it. *)
Record world := {
  self : Nmf;
  trace : list event
}.

Inductive outcome (A : Type) :=
| Returns (a : A) (w : world)
| Raises (e : exn) (w : world)
| OutOfFuel.
Arguments Returns {A} a w.
Arguments Raises {A} e w.
Arguments OutOfFuel {A}.

Definition M (A : Type) : Type := world → outcome A.

Definition ret {A} (a : A) : M A := λ w, Returns a w.

Definition bind {A B} (m : M A) (k : A → M B) : M B :=
  λ w, match m w with
       | Returns a w' => k a w'
       | Raises e w' => Raises e w'
       | OutOfFuel => OutOfFuel
       end.

Definition raise {A} (e : exn) : M A := λ w, Raises e w.

Definition lift {A} (r : result A) : M A :=
  match r with
  | Ok a => ret a
  | Err e => raise e
  end.

Definition get : M Nmf := λ w, Returns (self w) w.

Definition modify (f : Nmf → Nmf) : M unit :=
  λ w, Returns tt {| self := f (self w); trace := trace w |}.

Definition emit (e : event) : M unit :=
  λ w, Returns tt {| self := self w; trace := trace w ++ [e] |}.

End Instance.

Arguments Mf_track R : clear implicits.
Arguments Nmf R : clear implicits.
Arguments Mf_fit R : clear implicits.
Arguments world R : clear implicits.
Arguments outcome R A : clear implicits.
Arguments M R A : clear implicits.
Arguments Returns {R A} a w.
Arguments Raises {R A} e w.
Arguments OutOfFuel {R A}.

Notation "'do' x <- m ; k" := (bind m (λ x, k))
  (at level 10, x pattern, m at level 100, k at level 200).

(** ** The methods of [Nmf] *)

Section Methods.
Context {R : Type} {SR : Scalar R}.

(** [self.seed.initialize(V, rank, options)], as a function of the number
    of the run that asks for it. *)
Variable initialize :
  nat → Matrix R → Z → gmap string pyval → result (Matrix R * Matrix R).

(** Modelled from the spec: [self.residuals()] of the base class, the
    scalar residual handed to the tracker. *)
Variable residuals : Nmf R → R.

(** [self.callback]: [None] or a callable, which may raise. *)
Variable callback : option (Mf_fit R → result unit).

(** Truth value of an attribute holding [None] or an integer. *)
Definition truthy_int (o : option Z) : bool :=
  match o with
  | Some z => negb (z =? 0)
  | None => false
  end.

(** Truth value of an attribute holding [None] or a number. *)
Definition truthy_num (o : option R) : bool :=
  match o with
  | Some x => negb (reqb x rzero)
  | None => false
  end.

Definition _is_satisfied (s : Nmf R) (p_obj c_obj : R) (iter : Z) : bool :=
  if match test_conv s with
     | Some t => negb (t =? 0) && negb (iter `mod` t =? 0)
     | None => false
     end
  then true
  else if match max_iter s with
          | Some mx => negb (mx =? 0) && (mx <=? iter)
          | None => false
          end
  then false
  else if match min_residuals s with
          | Some mr =>
              negb (reqb mr rzero) && (0 <? iter)
              && rleb (rsub c_obj p_obj) mr
          | None => false
          end
  then false
  else if (0 <? iter) && rltb p_obj c_obj
  then false
  else true.

Definition _adjustment (s : Nmf R) : Nmf R :=
  let s := set_H (linalg.max (H s) eps) s in
  set_W (linalg.max (W s) eps) s.

Definition _set_params : M R unit :=
  do s <- get;
  do name <- lift (str_add (default (PStr "euclidean") (options s !! "update"))
                           "_update");
  do u <- lift (getattr update_methods name);
  do _ <- modify (set_update (Some u));
  do s <- get;
  do name <- lift (str_add (default (PStr "fro") (options s !! "objective"))
                           "_objective");
  do o <- lift (getattr objective_methods name);
  do _ <- modify (set_objective (Some o));
  do s <- get;
  do _ <- modify (set_track_factor
                    (default (PBool false) (options s !! "track_factor")));
  do s <- get;
  do _ <- modify (set_track_error
                    (default (PBool false) (options s !! "track_error")));
  do s <- get;
  modify (set_tracker
            (if truthy (track_factor s) && (1 <? n_run s)
                || truthy (track_error s)
             then Some {| errors := []; factors := [] |}
             else None)).

Definition euclidean_update : M R unit :=
  do s <- get;
  do h <- lift (let? a := linalg.dot (transpose (W s)) (V s) in
                let? b := linalg.dot (W s) (H s) in
                let? c := linalg.dot (transpose (W s)) b in
                let? q := linalg.elop a c linalg.div in
                linalg.multiply (H s) q);
  do _ <- modify (set_H h);
  do s <- get;
  do w <- lift (let? a := linalg.dot (V s) (transpose (H s)) in
                let? b := linalg.dot (H s) (transpose (H s)) in
                let? c := linalg.dot (W s) b in
                let? q := linalg.elop a c linalg.div in
                linalg.multiply (W s) q);
  modify (set_W w).

Definition divergence_update : M R unit :=
  do s <- get;
  let H1 := linalg.repmat (transpose (linalg.sum0 (W s))) 1 (ncols (V s)) in
  do h <- lift (let? wh := linalg.dot (W s) (H s) in
                let? q := linalg.elop (V s) wh linalg.div in
                let? a := linalg.dot (transpose (W s)) q in
                let? b := linalg.elop a H1 linalg.div in
                linalg.multiply (H s) b);
  do _ <- modify (set_H h);
  do s <- get;
  let W1 := linalg.repmat (transpose (linalg.sum1 (H s))) (nrows (V s)) 1 in
  do w <- lift (let? wh := linalg.dot (W s) (H s) in
                let? q := linalg.elop (V s) wh linalg.div in
                let? a := linalg.dot q (transpose (H s)) in
                let? b := linalg.elop a W1 linalg.div in
                linalg.multiply (W s) b);
  modify (set_W w).

Definition fro_objective : M R R :=
  do s <- get;
  lift (let? wh := linalg.dot (W s) (H s) in
        let? d := linalg.msub (V s) wh in
        Ok (linalg.sum (linalg.sop d 2 linalg.pow))).

Definition div_objective : M R R :=
  do s <- get;
  lift (let? Va := linalg.dot (W s) (H s) in
        let? q := linalg.elop (V s) Va linalg.div in
        let? m := linalg.multiply (V s) (linalg.sop1 q linalg.log) in
        let? d := linalg.msub m (V s) in
        let? e := linalg.madd d Va in
        Ok (linalg.sum e)).

(** [self.x] for an attribute that may not exist. *)
Definition attribute {A} (name : string) (o : option A) : M R A :=
  match o with
  | Some a => ret a
  | None => raise (AttributeError name)
  end.

Definition conn_objective : M R R :=
  do s <- get;
  let '(_, idx) := linalg.argmax0 (H s) in
  let mat1 := linalg.repmat idx (ncols (V s)) 1 in
  let mat2 := linalg.repmat (transpose idx) 1 (ncols (V s)) in
  do cons' <- lift (linalg.elop mat1 mat2 linalg.eq);
  do _ <- match consold s with
          | None =>
              do c0 <- attribute "cons" (cons s);
              do co <- lift (linalg.elop (ones_like c0) cons' linalg.bool_sub);
              do _ <- modify (set_consold (Some co));
              modify (set_cons (Some cons'))
          | Some _ =>
              do c0 <- attribute "cons" (cons s);
              do _ <- modify (set_consold (Some c0));
              modify (set_cons (Some cons'))
          end;
  do s <- get;
  do c <- attribute "cons" (cons s);
  do co <- attribute "consold" (consold s);
  do d <- lift (linalg.elop c co linalg.ne);
  ret (rof_Z (linalg.count_true d)).

(** [self.update()] *)
Definition call_update : M R unit :=
  do s <- get;
  do u <- attribute "update" (update s);
  do _ <- match u with
          | Euclidean => euclidean_update
          | Divergence => divergence_update
          end;
  emit Updated.

(** [self.objective()] *)
Definition call_objective : M R R :=
  do s <- get;
  do o <- attribute "objective" (objective s);
  do v <- match o with
          | Fro => fro_objective
          | Div => div_objective
          | Conn => conn_objective
          end;
  do _ <- emit Evaluated;
  ret v.

(** [self.tracker._track_error(self.residuals())] *)
Definition _track_error : M R unit :=
  do s <- get;
  do t <- attribute "_track_error" (tracker s);
  do _ <- modify (set_tracker
                    (Some {| errors := errors t ++ [residuals s];
                             factors := factors t |}));
  emit ErrorTracked.

(** [self.tracker._track_factor(W = self.W.copy(), H = self.H.copy())] *)
Definition _track_factor : M R unit :=
  do s <- get;
  do t <- attribute "_track_factor" (tracker s);
  do _ <- modify (set_tracker
                    (Some {| errors := errors t;
                             factors := factors t ++ [(copy (W s), copy (H s))] |}));
  emit FactorTracked.

(** The body of the [while] loop at iteration [iter], from the update to
    the tracking of the error; it gives back the new [cobj]. *)
Definition pass (cobj : R) (iter : Z) : M R R :=
  do _ <- call_update;
  do _ <- modify _adjustment;
  do _ <- emit Adjusted;
  do s <- get;
  do cobj <- (if negb (truthy_int (test_conv s))
                 || (iter `mod` default 0 (test_conv s) =? 0)
              then call_objective
              else ret cobj);
  do s <- get;
  do _ <- (if truthy (track_error s) then _track_error else ret tt);
  ret cobj.

(** The [while] loop of [factorize], run for at most [fuel] tests of its
    condition; it gives back [pobj], [cobj] and [iter] as the loop leaves
    them. *)
Fixpoint iterate (fuel : nat) (pobj cobj : R) (iter : Z) : M R (R * R * Z) :=
  match fuel with
  | O => λ _, OutOfFuel
  | S fuel' =>
      do s <- get;
      if _is_satisfied s pobj cobj iter then
        let pobj := cobj in
        do cobj <- pass cobj iter;
        let iter := iter + 1 in
        iterate fuel' pobj cobj iter
      else ret (pobj, cobj, iter)
  end.

(** The head of one pass of the [for] loop, run number [k]: the seeding
    and the first evaluation of the objective. *)
Definition start (k : nat) : M R R :=
  do s <- get;
  do seed <- lift (initialize k (V s) (rank s) (options s));
  do _ <- modify (set_W seed.1);
  do _ <- modify (set_H seed.2);
  do _ <- emit (Seeded k);
  call_objective.

(** The report to the callback once the loop has left:
    [if self.callback: ...]. *)
Definition notify (cobj : R) : M R unit :=
  match callback with
  | Some cb =>
      do _ <- modify (set_final_obj (Some cobj));
      do s <- get;
      do _ <- lift (cb {| fit := s |});
      emit CalledBack
  | None => ret tt
  end.

(** The recording of the factors at the end of a run:
    [if self.track_factor: ...]. *)
Definition record_factors : M R unit :=
  do s <- get;
  if truthy (track_factor s) then _track_factor else ret tt.

(** One pass of the [for] loop: run number [k]. *)
Definition run (fuel : nat) (k : nat) : M R (R * Z) :=
  do cobj <- start k;
  do r <- iterate fuel cobj cobj 0;
  let '(_, cobj, iter) := r in
  do _ <- notify cobj;
  do _ <- record_factors;
  ret (cobj, iter).

(** The [for] loop: [n] more runs from run number [k]; [last] holds the
    locals [cobj] and [iter], unbound before the first run. *)
Fixpoint runs (fuel : nat) (k n : nat) (last : option (R * Z))
  : M R (option (R * Z)) :=
  match n with
  | O => ret last
  | S n' =>
      do r <- run fuel k;
      runs fuel (S k) n' (Some r)
  end.

(** A local variable read before any assignment to it. *)
Definition attribute_local {A} (o : option A) : M R A :=
  match o with
  | Some a => ret a
  | None => raise (UnboundLocalError "iter")
  end.

Definition factorize (fuel : nat) : M R (Mf_fit R) :=
  do _ <- _set_params;
  do s <- get;
  do last <- runs fuel 0 (Z.to_nat (n_run s)) None;
  do r <- attribute_local last;
  let '(cobj, iter) := r in
  do _ <- modify (set_n_iter (Some iter));
  do _ <- modify (set_final_obj (Some cobj));
  do s <- get;
  ret {| fit := s |}.

End Methods.

(** ** Reasoning about the methods *)

Section Logic.
Context {R : Type} {SR : Scalar R}.

(** [Q] holds of the result and the world whenever [m] returns from [w],
    and [F] holds if [m] runs out of fuel. *)
Definition wp {A} (F : Prop) (m : M R A) (w : world R)
    (Q : A → world R → Prop) : Prop :=
  match m w with
  | Returns a w' => Q a w'
  | Raises _ _ => True
  | OutOfFuel => F
  end.

(** The attributes that only [__init__] and [_set_params] assign. *)
Definition config (s : Nmf R) :=
  (V s, rank s, options s, n_run s, max_iter s, min_residuals s,
   test_conv s, update s, objective s, track_factor s, track_error s).

End Logic.

(** ** The stopping rules as the specification lists them *)

Inductive decision := Continue | Stop.

Inductive rule := PeriodicSkip | MaxIterations | MinResidual | Increase | Otherwise.

Definition rules : list rule :=
  [PeriodicSkip; MaxIterations; MinResidual; Increase; Otherwise].

Definition verdict (r : rule) : decision :=
  match r with
  | PeriodicSkip => Continue
  | MaxIterations => Stop
  | MinResidual => Stop
  | Increase => Stop
  | Otherwise => Continue
  end.

(** A limit is configured when the attribute holds a number other than
    zero; the result is that number. *)
Definition configured_int (o : option Z) : option Z :=
  match o with
  | Some z => if z =? 0 then None else Some z
  | None => None
  end.

Section Stopping.
Context {R : Type} {SR : Scalar R}.

Definition configured_num (o : option R) : option R :=
  match o with
  | Some x => if reqb x rzero then None else Some x
  | None => None
  end.

(** Whether a rule applies to previous objective [p], current objective
    [c] and iteration [i]. *)
Definition applies (s : Nmf R) (p c : R) (i : Z) (r : rule) : bool :=
  match r with
  | PeriodicSkip =>
      match configured_int (test_conv s) with
      | Some t => negb (i `mod` t =? 0)
      | None => false
      end
  | MaxIterations =>
      match configured_int (max_iter s) with
      | Some mx => mx <=? i
      | None => false
      end
  | MinResidual =>
      match configured_num (min_residuals s) with
      | Some mr => (0 <? i) && rleb (rsub c p) mr
      | None => false
      end
  | Increase => (0 <? i) && rltb p c
  | Otherwise => true
  end.

(** The first rule of the list that applies decides. *)
Definition stopping_evaluator (s : Nmf R) (p c : R) (i : Z) : decision :=
  match List.find (applies s p c i) rules with
  | Some r => verdict r
  | None => Continue
  end.

(** Every element is at least [eps]. *)
Definition floored (X : Matrix R) : Prop :=
  Forall (Forall (λ x, rleb eps x = true)) X.

End Stopping.

#[export] Instance event_eq_dec : EqDecision event.
Proof. solve_decision. Defined.

(** How many update steps a trace records. *)
Definition updates (t : list event) : nat :=
  length (filter (λ e, e = Updated) t).

(** ** The update rules, element by element *)

Section Rules.
Context {R : Type} {SR : Scalar R}.

(** [X[i, j]], with zero outside the matrix. *)
Definition at_ (X : Matrix R) (i j : nat) : R := default rzero (entry X i j).

(** The sum of [f 0], ..., [f (k - 1)], accumulated from the left. *)
Definition bigsum (k : nat) (f : nat → R) : R :=
  foldl (λ acc t, radd acc (f t)) rzero (seq 0 k).

(** Element (i, j) of [H ⊙ (Wᵗ·V) ⊘ (Wᵗ·(W·H))] for an m x r matrix [W]. *)
Definition euclidean_H (m r : nat) (V W H : Matrix R) (i j : nat) : R :=
  rmul (at_ H i j)
       (rdiv (bigsum m (λ k, rmul (at_ W k i) (at_ V k j)))
             (bigsum m (λ k, rmul (at_ W k i)
                               (bigsum r (λ l, rmul (at_ W k l) (at_ H l j)))))).

(** Element (i, j) of [W ⊙ (V·Hᵗ) ⊘ (W·(H·Hᵗ))] for an r x n matrix [H]. *)
Definition euclidean_W (r n : nat) (V W H : Matrix R) (i j : nat) : R :=
  rmul (at_ W i j)
       (rdiv (bigsum n (λ k, rmul (at_ V i k) (at_ H j k)))
             (bigsum r (λ k, rmul (at_ W i k)
                               (bigsum n (λ l, rmul (at_ H k l) (at_ H j l)))))).

(** Element (i, j) of [V ⊘ (W·H)]. *)
Definition quotient (r : nat) (V W H : Matrix R) (i j : nat) : R :=
  rdiv (at_ V i j) (bigsum r (λ l, rmul (at_ W i l) (at_ H l j))).

(** Element (i, j) of [H ⊙ (Wᵗ·(V ⊘ (W·H))) ⊘ broadcast(colsum(W), n)]. *)
Definition divergence_H (m r : nat) (V W H : Matrix R) (i j : nat) : R :=
  rmul (at_ H i j)
       (rdiv (bigsum m (λ k, rmul (at_ W k i) (quotient r V W H k j)))
             (bigsum m (λ k, at_ W k i))).

(** Element (i, j) of [W ⊙ ((V ⊘ (W·H))·Hᵗ) ⊘ broadcast(rowsum(H), m)]. *)
Definition divergence_W (r n : nat) (V W H : Matrix R) (i j : nat) : R :=
  rmul (at_ W i j)
       (rdiv (bigsum n (λ k, rmul (quotient r V W H i k) (at_ H j k)))
             (bigsum n (λ k, at_ H j k))).

End Rules.

(** ** Double-precision instances *)

Definition float_of_Z (z : Z) : float :=
  match z with
  | Z0 => 0%float
  | Zpos _ => PrimFloat.of_uint63 (Uint63.of_Z z)
  | Zneg p => PrimFloat.opp (PrimFloat.of_uint63 (Uint63.of_Z (Zpos p)))
  end.

(** The primitive floats offer no logarithm; the runs computed below use
    the [fro] and [conn] objectives, which never call it. *)
Definition float_log (x : float) : float := PrimFloat.nan.

(** IEEE 754 binary64, the [float64] of numpy; [eps] is [2 ** -52]. *)
#[export] Instance float_scalar : Scalar float := {|
  rzero := 0%float;
  radd := PrimFloat.add;
  rsub := PrimFloat.sub;
  rmul := PrimFloat.mul;
  rdiv := PrimFloat.div;
  rlog := float_log;
  rleb := PrimFloat.leb;
  rltb := PrimFloat.ltb;
  reqb := PrimFloat.eqb;
  rof_Z := float_of_Z;
  eps := 0x1p-52%float
|}.

(** ** Concrete instances *)

(** Seeding that hands out the same pair at every run. *)
Definition fixed (W0 H0 : Matrix float)
  : nat → Matrix float → Z → gmap string pyval
    → result (Matrix float * Matrix float) :=
  λ _ _ _ _, Ok (W0, H0).

Definition no_residuals (s : Nmf float) : float := 0%float.

(** An instance as [__init__] leaves it: no factors, no strategy, no
    connectivity attributes yet. *)
Definition instance (V0 : Matrix float) (opts : gmap string pyval) (runs : Z)
    (mx : option Z) (mr : option float) (tc : option Z) : Nmf float :=
  {| V := V0; W := []; H := []; rank := 1; options := opts; n_run := runs;
     max_iter := mx; min_residuals := mr; test_conv := tc;
     update := None; objective := None;
     track_factor := PNone; track_error := PNone; tracker := None;
     cons := None; consold := None; n_iter := None; final_obj := None |}.

Definition fresh (s : Nmf float) : world float := {| self := s; trace := [] |}.

(** [min_residuals = 0.01], [test_conv = 0], no iteration limit. *)
Definition residual_instance : Nmf float :=
  instance [[1; 0]; [0; 1]]%float ∅ 1 None (Some 0.01%float) (Some 0).

(** Three samples whose dominant components are 0, 0 and 1, on an
    instance asked for the connectivity objective. *)
Definition conn_seed :=
  fixed [[1; 0]; [0; 1]]%float [[3; 2; 1]; [1; 1; 4]]%float.

Definition conn_instance : Nmf float :=
  instance [[1; 2; 3]; [4; 5; 6]]%float {[ "objective" := PStr "conn" ]} 1
    (Some 5) None None.

(** [conn_instance] as the first evaluation of its objective finds it. *)
Definition conn_world : world float :=
  {| self := set_H [[3; 2; 1]; [1; 1; 4]]%float
               (set_W [[1; 0]; [0; 1]]%float
                  (set_objective (Some Conn)
                     (set_update (Some Euclidean) conn_instance)));
     trace := [Seeded 0] |}.

(** [conn_instance] asked for three runs. *)
Definition conn_runs_instance : Nmf float :=
  instance [[1; 2; 3]; [4; 5; 6]]%float {[ "objective" := PStr "conn" ]} 3
    (Some 5) None None.

(** An unknown update name. *)
Definition unknown_instance : Nmf float :=
  instance [[1; 0]; [0; 1]]%float {[ "update" := PStr "euclid" ]} 1
    (Some 5) None None.

(** An objective given as a number. *)
Definition numbered_instance : Nmf float :=
  instance [[1; 0]; [0; 1]]%float {[ "objective" := PInt 2 ]} 1
    (Some 5) None None.

(** Factor tracking asked for on a single run. *)
Definition track_instance : Nmf float :=
  instance [[1; 0]; [0; 1]]%float {[ "track_factor" := PBool true ]} 1
    (Some 5) None None.

(** [max_iter = 5], default update and objective, one run. *)
Definition limit_instance : Nmf float :=
  instance [[1; 0]; [0; 1]]%float ∅ 1 (Some 5) None None.

Definition limit_seed := fixed [[1]; [2]]%float [[0.5; 3]]%float.

(** [limit_instance] as the loop of its run finds it: strategies resolved,
    factors seeded. *)
Definition limit_world : world float :=
  {| self := set_H [[0.5; 3]]%float
               (set_W [[1]; [2]]%float
                  (set_objective (Some Fro)
                     (set_update (Some Euclidean) limit_instance)));
     trace := [Seeded 0; Evaluated] |}.

(** ** Further definitions used by the properties below *)

(** How many evaluations of the objective, and how many seedings, a trace
    records. *)
Definition evaluations (t : list event) : nat :=
  length (filter (λ e, e = Evaluated) t).

Definition is_seeded (e : event) : bool :=
  match e with
  | Seeded _ => true
  | _ => false
  end.

Definition seedings (t : list event) : nat :=
  length (filter (λ e, is_seeded e = true) t).

Section Values.
Context {R : Type} {SR : Scalar R}.

(** The sum of [f i j] over an m x n table, row after row, accumulated from
    the left. *)
Definition bigsum2 (m n : nat) (f : nat → nat → R) : R :=
  foldl (λ acc i, foldl (λ acc j, radd acc (f i j)) acc (seq 0 n))
        rzero (seq 0 m).

(** Element (i, j) of [W·H] for an m x r matrix [W]. *)
Definition product (r : nat) (W H : Matrix R) (i j : nat) : R :=
  bigsum r (λ k, rmul (at_ W i k) (at_ H k j)).

(** The squared Frobenius distance of [V] from [W·H]. *)
Definition fro_value (m r n : nat) (V W H : Matrix R) : R :=
  bigsum2 m n (λ i j, linalg.pow (rsub (at_ V i j) (product r W H i j)) 2).

(** The divergence of [V] from [W·H]. *)
Definition div_value (m r n : nat) (V W H : Matrix R) : R :=
  bigsum2 m n (λ i j,
    radd (rsub (rmul (at_ V i j)
                     (rlog (rdiv (at_ V i j) (product r W H i j))))
               (at_ V i j))
         (product r W H i j)).

(** The three matrices of an instance have the shapes of a rank-r
    factorization of an m x n target. *)
Definition well_shaped (m r n : nat) (s : Nmf R) : Prop :=
  wf m n (V s) ∧ wf m r (W s) ∧ wf r n (H s).

(** An instance on which a pass of the loop can run: factors of the right
    shapes, strategies resolved to an update and to the Frobenius or the
    divergence objective, an iteration limit and no periodic test, and a
    tracker if errors are tracked. *)
Definition ready (m r n : nat) (mx : Z) (s : Nmf R) : Prop :=
  well_shaped m r n s
  ∧ is_Some (update s)
  ∧ (objective s = Some Fro ∨ objective s = Some Div)
  ∧ max_iter s = Some mx
  ∧ truthy_int (test_conv s) = false
  ∧ (truthy (track_error s) = true → is_Some (tracker s)).

(** An instance on which a run can start: a target of the right shape,
    strategies and limits as for [ready], and a tracker wherever one will
    be called. *)
Definition prepared (m n : nat) (mx : Z) (s : Nmf R) : Prop :=
  wf m n (V s)
  ∧ is_Some (update s)
  ∧ (objective s = Some Fro ∨ objective s = Some Div)
  ∧ max_iter s = Some mx
  ∧ truthy_int (test_conv s) = false
  ∧ (truthy (track_error s) = true → is_Some (tracker s))
  ∧ (truthy (track_factor s) = true → is_Some (tracker s)).

(** The seeding hands out factors of the right shapes at every run. *)
Definition seeds_well
    (initialize : nat → Matrix R → Z → gmap string pyval
                  → result (Matrix R * Matrix R))
    (m r n : nat) (s : Nmf R) : Prop :=
  ∀ k, ∃ W0 H0, initialize k (V s) (rank s) (options s) = Ok (W0, H0)
                ∧ wf m r W0 ∧ wf r n H0.

(** [m] returns from [w], with a result and a world of which [Q] holds. *)
Definition returns {A} (m : M R A) (w : world R) (Q : A → world R → Prop)
  : Prop :=
  ∃ a w', m w = Returns a w' ∧ Q a w'.

End Values.

(** [max_iter = 5] with the objective tested every third iteration. *)
Definition periodic_instance : Nmf float :=
  instance [[1; 0]; [0; 1]]%float ∅ 1 (Some 5) None (Some 3).

(** [periodic_instance] as the loop of its run finds it. *)
Definition periodic_world : world float :=
  {| self := set_H [[0.5; 3]]%float
               (set_W [[1]; [2]]%float
                  (set_objective (Some Fro)
                     (set_update (Some Euclidean) periodic_instance)));
     trace := [Seeded 0; Evaluated] |}.

(** No run asked for. *)
Definition idle_instance : Nmf float :=
  instance [[1; 0]; [0; 1]]%float ∅ 0 (Some 5) None None.

(** Error tracking and factor tracking over three runs. *)
Definition tracked_instance : Nmf float :=
  instance [[1; 0]; [0; 1]]%float
    {[ "track_factor" := PBool true; "track_error" := PBool true ]} 3
    (Some 5) None None.

(** [limit_world] with error tracking on and an empty tracker. *)
Definition error_world : world float :=
  {| self := set_tracker (Some {| errors := []; factors := [] |})
               (set_track_error (PBool true) (self limit_world));
     trace := trace limit_world |}.

(** How many times an event occurs in a trace. *)
Definition occurrences (e : event) (t : list event) : nat :=
  length (filter (λ x, x = e) t).

(** The events of the body of the [while] loop. *)
Definition loop_event (e : event) : bool :=
  match e with
  | Updated | Adjusted | Evaluated | ErrorTracked => true
  | _ => false
  end.

(** [w'] continues the trace of [w] with events of the loop body only. *)
Definition continues {R} (w w' : world R) : Prop :=
  ∃ t, trace w' = trace w ++ t ∧ Forall (λ e, loop_event e = true) t.

(** [conn_world] with a 3 x 3 [cons] attribute already present. *)
Definition conn_ready : world float :=
  {| self := set_cons (Some (tabulate 3 3 (λ _ _, true))) (self conn_world);
     trace := [] |}.

(** The world that an evaluation of the connectivity objective leaves of
    [conn_ready]. *)
Definition conn_once : world float :=
  Eval vm_compute in
    match conn_objective conn_ready with
    | Returns _ w => w
    | _ => conn_ready
    end.

(** The dominant component of sample [j]: the row of the first largest
    element of column [j] of [H]. *)
Definition dominant {R} `{Scalar R} (Hm : Matrix R) (j : nat) : nat :=
  linalg.argmax_list (column Hm j).

(** A callback that accepts every fitted model. *)
Definition accept : Mf_fit float → result unit := λ _, Ok tt.

(** The world that [factorize] leaves of [tracked_instance] with the
    callback [accept]. *)
Definition tracked_after : world float :=
  Eval vm_compute in
    match factorize limit_seed no_residuals (Some accept) 10
            (fresh tracked_instance) with
    | Returns _ w => w
    | _ => fresh tracked_instance
    end.

(** * Properties *)

(** ** Matrices *)

Section MatrixFacts.
Context {A : Type}.

Lemma tabulate_wf m n (f : nat → nat → A) : wf m n (tabulate m n f).
Proof.
  split.
  - unfold tabulate. by rewrite length_fmap, length_seq.
  - unfold tabulate. apply Forall_fmap, Forall_forall. intros i _. simpl.
    by rewrite length_fmap, length_seq.
Qed.

Lemma tabulate_lookup m n (f : nat → nat → A) i :
  (i < m)%nat → tabulate m n f !! i = Some ((λ j, f i j) <$> seq 0 n).
Proof.
  intros Hi. unfold tabulate. rewrite list_lookup_fmap.
  by rewrite lookup_seq_lt.
Qed.

Lemma entry_tabulate m n (f : nat → nat → A) i j :
  (i < m)%nat → (j < n)%nat → entry (tabulate m n f) i j = Some (f i j).
Proof.
  intros Hi Hj. unfold entry. rewrite tabulate_lookup by done. simpl.
  rewrite list_lookup_fmap. by rewrite lookup_seq_lt.
Qed.

Lemma wf_lookup m n (X : Matrix A) i :
  wf m n X → (i < m)%nat → ∃ r, X !! i = Some r ∧ length r = n.
Proof.
  intros [Hm Hn] Hi.
  destruct (lookup_lt_is_Some_2 X i) as [r Hr]; [lia|].
  exists r. split; [done|]. by eapply (Forall_lookup_1 _ _ _ _ Hn Hr).
Qed.

Lemma wf_entry m n (X : Matrix A) i j :
  wf m n X → (i < m)%nat → (j < n)%nat → is_Some (entry X i j).
Proof.
  intros HX Hi Hj. destruct (wf_lookup m n X i HX Hi) as (r & Hr & Hl).
  unfold entry. rewrite Hr. simpl. apply lookup_lt_is_Some_2. lia.
Qed.

Lemma wf_ncols m n (X : Matrix A) : wf m n X → (0 < m)%nat → ncols X = n.
Proof.
  intros [Hm Hn] Hpos. destruct X as [|r X]; simpl in *; [lia|].
  by inversion Hn.
Qed.

Lemma wf_nrows m n (X : Matrix A) : wf m n X → nrows X = m.
Proof. by intros [Hm _]. Qed.

End MatrixFacts.

Section MatrixShape.
Context {A : Type}.

(** A well-formed matrix is the table of its elements. *)
Lemma wf_tabulate m n (X : Matrix A) (d : A) :
  wf m n X → X = tabulate m n (λ i j, default d (entry X i j)).
Proof.
  intros HX. apply list_eq. intros i.
  destruct (decide (i < m)%nat) as [Hi|Hi].
  - rewrite tabulate_lookup by done.
    destruct (wf_lookup m n X i HX Hi) as (r & Hr & Hl). rewrite Hr. f_equal.
    apply list_eq. intros j. rewrite list_lookup_fmap.
    destruct (decide (j < n)%nat) as [Hj|Hj].
    + rewrite lookup_seq_lt by done. simpl. unfold entry. rewrite Hr. simpl.
      destruct (lookup_lt_is_Some_2 r j) as [x Hx]; [lia|]. by rewrite Hx.
    + rewrite lookup_seq_ge by lia. simpl. apply lookup_ge_None_2. lia.
  - destruct HX as [Hm _].
    rewrite (lookup_ge_None_2 X) by lia.
    symmetry. apply lookup_ge_None_2.
    destruct (tabulate_wf m n (λ i j, default d (entry X i j))) as [-> _]. lia.
Qed.

Lemma tabulate_ext m n (f g : nat → nat → A) :
  (∀ i j, (i < m)%nat → (j < n)%nat → f i j = g i j) →
  tabulate m n f = tabulate m n g.
Proof.
  intros Hfg. unfold tabulate. apply list_eq. intros i.
  rewrite !list_lookup_fmap.
  destruct (decide (i < m)%nat) as [Hi|Hi].
  - rewrite lookup_seq_lt by done. simpl. f_equal.
    apply list_eq. intros j. rewrite !list_lookup_fmap.
    destruct (decide (j < n)%nat) as [Hj|Hj].
    + rewrite lookup_seq_lt by done. simpl. f_equal. by apply Hfg.
    + by rewrite lookup_seq_ge by lia.
  - by rewrite lookup_seq_ge by lia.
Qed.

Lemma ncols_tabulate m n (f : nat → nat → A) :
  (0 < m)%nat → ncols (tabulate m n f) = n.
Proof. intros Hm. apply (wf_ncols m); [apply tabulate_wf | done]. Qed.

Lemma nrows_tabulate m n (f : nat → nat → A) : nrows (tabulate m n f) = m.
Proof. apply (wf_nrows m n), tabulate_wf. Qed.

Lemma shape_tabulate m n (f : nat → nat → A) :
  (0 < m)%nat → shape (tabulate m n f) = (m, n).
Proof.
  intros Hm. unfold shape. by rewrite nrows_tabulate, ncols_tabulate.
Qed.

Lemma concat_replicate_singleton (x : A) k : concat (replicate k [x]) = replicate k x.
Proof. induction k as [|k IH]; [done|]. simpl. by rewrite IH. Qed.

Lemma replicate_tabulate_row k n (g : nat → A) :
  replicate k (g <$> seq 0 n) = tabulate k n (λ _ j, g j).
Proof.
  unfold tabulate. apply list_eq. intros i. rewrite list_lookup_fmap.
  destruct (decide (i < k)%nat) as [Hi|Hi].
  - rewrite lookup_seq_lt by done. simpl. by rewrite lookup_replicate_2.
  - rewrite lookup_seq_ge by lia. simpl. apply lookup_ge_None_2.
    rewrite length_replicate. lia.
Qed.

Lemma replicate_seq (x : A) n : replicate n x = (λ _, x) <$> seq 0 n.
Proof.
  apply list_eq. intros i. rewrite list_lookup_fmap.
  destruct (decide (i < n)%nat) as [Hi|Hi].
  - rewrite lookup_seq_lt by done. simpl. by rewrite lookup_replicate_2.
  - rewrite lookup_seq_ge by lia. simpl. apply lookup_ge_None_2.
    rewrite length_replicate. lia.
Qed.

End MatrixShape.

Section MatrixOps.
Context {A : Type}.

Lemma column_tabulate m n (f : nat → nat → A) j :
  (j < n)%nat → column (tabulate m n f) j = (λ i, f i j) <$> seq 0 m.
Proof.
  intros Hj. unfold column, tabulate. generalize (seq 0 m). intros l.
  induction l as [|i l IH]; [done|]. simpl.
  rewrite list_lookup_fmap, lookup_seq_lt by done. simpl. f_equal. apply IH.
Qed.

Lemma transpose_tabulate m n (f : nat → nat → A) :
  (0 < m)%nat → transpose (tabulate m n f) = tabulate n m (λ j i, f i j).
Proof.
  intros Hm. unfold transpose. rewrite ncols_tabulate by done.
  unfold tabulate at 2. apply list_eq. intros j. rewrite !list_lookup_fmap.
  destruct (decide (j < n)%nat) as [Hj|Hj].
  - rewrite lookup_seq_lt by done. simpl. by rewrite column_tabulate.
  - by rewrite lookup_seq_ge by lia.
Qed.

Lemma zip_with_tabulate {B C} m n (f : nat → nat → A) (g : nat → nat → B)
    (op : A → B → C) :
  zip_with (zip_with op) (tabulate m n f) (tabulate m n g)
  = tabulate m n (λ i j, op (f i j) (g i j)).
Proof.
  unfold tabulate. generalize (seq 0 m). intros l.
  induction l as [|i l IH]; [done|]. simpl. f_equal; [|apply IH].
  generalize (seq 0 n). intros l'. induction l' as [|j l' IH']; [done|].
  simpl. f_equal. apply IH'.
Qed.

Lemma elop_tabulate {B C} m n (f : nat → nat → A) (g : nat → nat → B)
    (op : A → B → C) :
  linalg.elop (tabulate m n f) (tabulate m n g) op
  = Ok (tabulate m n (λ i j, op (f i j) (g i j))).
Proof.
  unfold linalg.elop. rewrite zip_with_tabulate.
  case_decide as Hs; [done|]. exfalso. apply Hs.
  destruct m as [|m]; [reflexivity|]. rewrite !shape_tabulate by lia. done.
Qed.

(** A column of [r] elements repeated [n] times side by side. *)
Lemma repmat_column r n (g : nat → A) :
  linalg.repmat (tabulate r 1 (λ i _, g i)) 1 n = tabulate r n (λ i _, g i).
Proof.
  unfold linalg.repmat. simpl. rewrite app_nil_r. unfold tabulate.
  rewrite <- list_fmap_compose. apply list_fmap_ext. intros _ i _. simpl.
  by rewrite concat_replicate_singleton, replicate_seq.
Qed.

(** A row of [r] elements repeated [m] times one above the other. *)
Lemma repmat_row m r (g : nat → A) :
  linalg.repmat (tabulate 1 r (λ _ j, g j)) m 1 = tabulate m r (λ _ j, g j).
Proof.
  unfold linalg.repmat. simpl. rewrite app_nil_r.
  rewrite concat_replicate_singleton. apply replicate_tabulate_row.
Qed.

End MatrixOps.

Section ScalarFacts.
Context {R : Type} {SR : Scalar R}.

Lemma at_tabulate m n (f : nat → nat → R) i j :
  (i < m)%nat → (j < n)%nat → at_ (tabulate m n f) i j = f i j.
Proof. intros Hi Hj. unfold at_. by rewrite entry_tabulate. Qed.

Lemma wf_at m n (X : Matrix R) : wf m n X → X = tabulate m n (at_ X).
Proof. apply wf_tabulate. Qed.

Lemma wf_entry_at m n (X : Matrix R) i j :
  wf m n X → (i < m)%nat → (j < n)%nat → entry X i j = Some (at_ X i j).
Proof.
  intros HX Hi Hj. destruct (wf_entry m n X i j HX Hi Hj) as [x Hx].
  unfold at_. by rewrite Hx.
Qed.

Lemma bigsum_ext k (f g : nat → R) :
  (∀ t, (t < k)%nat → f t = g t) → bigsum k f = bigsum k g.
Proof.
  intros Hfg. unfold bigsum.
  assert (Hin : ∀ t, t ∈ seq 0 k → f t = g t).
  { intros t Ht. apply Hfg. apply elem_of_seq in Ht. lia. }
  revert Hin. generalize rzero. generalize (seq 0 k). intros l.
  induction l as [|t l IH]; intros a Hin; [done|]. simpl.
  rewrite (Hin t) by apply list_elem_of_here.
  apply IH. intros t' Ht'. apply Hin. by apply list_elem_of_further.
Qed.

Lemma inner_fmap k (u v : nat → R) :
  linalg.inner (u <$> seq 0 k) (v <$> seq 0 k)
  = bigsum k (λ t, rmul (u t) (v t)).
Proof.
  unfold linalg.inner, bigsum. generalize rzero. generalize (seq 0 k).
  intros l. induction l as [|t l IH]; intros a; [done|]. simpl. apply IH.
Qed.

Lemma sumlist_fmap k (u : nat → R) : linalg.sumlist (u <$> seq 0 k) = bigsum k u.
Proof.
  unfold linalg.sumlist, bigsum. generalize rzero. generalize (seq 0 k).
  intros l. induction l as [|t l IH]; intros a; [done|]. simpl. apply IH.
Qed.

Lemma fmap_seq_ext {B} n (f g : nat → B) :
  (∀ j, (j < n)%nat → f j = g j) → f <$> seq 0 n = g <$> seq 0 n.
Proof.
  intros Hfg. apply list_fmap_ext. intros i j Hj. apply Hfg.
  apply lookup_seq in Hj. lia.
Qed.

Lemma dot_tabulate m k n (f g : nat → nat → R) :
  (0 < m)%nat → (0 < k)%nat →
  linalg.dot (tabulate m k f) (tabulate k n g)
  = Ok (tabulate m n (λ i j, bigsum k (λ t, rmul (f i t) (g t j)))).
Proof.
  intros Hm Hk. unfold linalg.dot.
  rewrite (ncols_tabulate m k) by done. rewrite nrows_tabulate.
  rewrite (ncols_tabulate k n) by done.
  case_decide; [|done]. f_equal. unfold tabulate at 2 3.
  rewrite <- list_fmap_compose. apply fmap_seq_ext. intros i Hi. simpl.
  apply fmap_seq_ext. intros j Hj.
  rewrite column_tabulate by done. apply inner_fmap.
Qed.

Lemma sum0_tabulate m n (f : nat → nat → R) :
  (0 < m)%nat →
  linalg.sum0 (tabulate m n f) = tabulate 1 n (λ _ j, bigsum m (λ i, f i j)).
Proof.
  intros Hm. unfold linalg.sum0. rewrite ncols_tabulate by done.
  unfold tabulate at 2. simpl. f_equal. apply fmap_seq_ext. intros j Hj.
  rewrite column_tabulate by done. apply sumlist_fmap.
Qed.

Lemma sum1_tabulate m n (f : nat → nat → R) :
  linalg.sum1 (tabulate m n f) = tabulate m 1 (λ i _, bigsum n (λ j, f i j)).
Proof.
  unfold linalg.sum1, tabulate. rewrite <- list_fmap_compose.
  apply fmap_seq_ext. intros i Hi. simpl. by rewrite sumlist_fmap.
Qed.

End ScalarFacts.

(** ** The update rules *)

Section Updates.
Context {R : Type} {SR : Scalar R}.

Lemma euclidean_H_step m r n (V W H : Matrix R) :
  (0 < m)%nat → (0 < r)%nat → wf m n V → wf m r W → wf r n H →
  (let? a := linalg.dot (transpose W) V in
   let? b := linalg.dot W H in
   let? c := linalg.dot (transpose W) b in
   let? q := linalg.elop a c linalg.div in
   linalg.multiply H q)
  = Ok (tabulate r n (euclidean_H m r V W H)).
Proof.
  intros Hm Hr HV HW HH.
  set (rhs := tabulate r n (euclidean_H m r V W H)).
  rewrite (wf_at m n V HV), (wf_at m r W HW), (wf_at r n H HH).
  rewrite transpose_tabulate by done.
  rewrite !dot_tabulate by done. simpl.
  rewrite dot_tabulate by done. simpl.
  rewrite elop_tabulate. simpl. unfold linalg.multiply.
  rewrite elop_tabulate. reflexivity.
Qed.

Lemma euclidean_W_step m r n (V W H : Matrix R) :
  (0 < m)%nat → (0 < r)%nat → (0 < n)%nat → wf m n V → wf m r W → wf r n H →
  (let? a := linalg.dot V (transpose H) in
   let? b := linalg.dot H (transpose H) in
   let? c := linalg.dot W b in
   let? q := linalg.elop a c linalg.div in
   linalg.multiply W q)
  = Ok (tabulate m r (euclidean_W r n V W H)).
Proof.
  intros Hm Hr Hn HV HW HH.
  set (rhs := tabulate m r (euclidean_W r n V W H)).
  rewrite (wf_at m n V HV), (wf_at m r W HW), (wf_at r n H HH).
  rewrite transpose_tabulate by done.
  rewrite !dot_tabulate by done. simpl.
  rewrite dot_tabulate by done. simpl.
  rewrite elop_tabulate. simpl. unfold linalg.multiply.
  rewrite elop_tabulate. reflexivity.
Qed.

Lemma divergence_H_step m r n (V W H : Matrix R) :
  (0 < m)%nat → (0 < r)%nat → wf m n V → wf m r W → wf r n H →
  (let? wh := linalg.dot W H in
   let? q := linalg.elop V wh linalg.div in
   let? a := linalg.dot (transpose W) q in
   let? b := linalg.elop a
               (linalg.repmat (transpose (linalg.sum0 W)) 1 (ncols V))
               linalg.div in
   linalg.multiply H b)
  = Ok (tabulate r n (divergence_H m r V W H)).
Proof.
  intros Hm Hr HV HW HH.
  set (rhs := tabulate r n (divergence_H m r V W H)).
  rewrite (wf_ncols m n V HV Hm).
  rewrite (wf_at m n V HV), (wf_at m r W HW), (wf_at r n H HH).
  rewrite sum0_tabulate by done.
  rewrite !transpose_tabulate by (done || lia).
  rewrite (repmat_column r n (λ i, bigsum m (λ k, at_ W k i))).
  rewrite dot_tabulate by done. simpl.
  rewrite elop_tabulate. simpl.
  rewrite dot_tabulate by done. simpl.
  rewrite elop_tabulate. simpl. unfold linalg.multiply.
  rewrite elop_tabulate. reflexivity.
Qed.

Lemma divergence_W_step m r n (V W H : Matrix R) :
  (0 < m)%nat → (0 < r)%nat → (0 < n)%nat →
  wf m n V → wf m r W → wf r n H →
  (let? wh := linalg.dot W H in
   let? q := linalg.elop V wh linalg.div in
   let? a := linalg.dot q (transpose H) in
   let? b := linalg.elop a
               (linalg.repmat (transpose (linalg.sum1 H)) (nrows V) 1)
               linalg.div in
   linalg.multiply W b)
  = Ok (tabulate m r (divergence_W r n V W H)).
Proof.
  intros Hm Hr Hn HV HW HH.
  set (rhs := tabulate m r (divergence_W r n V W H)).
  rewrite (wf_nrows m n V HV).
  rewrite (wf_at m n V HV), (wf_at m r W HW), (wf_at r n H HH).
  rewrite sum1_tabulate.
  rewrite !transpose_tabulate by (done || lia).
  rewrite (repmat_row m r (λ j, bigsum n (λ k, at_ H j k))).
  rewrite dot_tabulate by done. simpl.
  rewrite elop_tabulate. simpl.
  rewrite dot_tabulate by done. simpl.
  rewrite elop_tabulate. simpl. unfold linalg.multiply.
  rewrite elop_tabulate. reflexivity.
Qed.

(** C4: one Euclidean update step on well-shaped factors (V of m x n,
    W of m x r, H of r x n, all dimensions positive) first replaces H by
    H ⊙ (Wᵗ·V) ⊘ (Wᵗ·(W·H)), computed with the old W, and then replaces W
    by W ⊙ (V·Hᵗ) ⊘ (W·(H·Hᵗ)), computed with the new H; nothing else of
    the instance changes.  The triple products are bracketed as the code
    does. *)
Theorem euclidean_update_rule (m r n : nat) (w : world R) :
  (0 < m)%nat → (0 < r)%nat → (0 < n)%nat →
  wf m n (V (self w)) → wf m r (W (self w)) → wf r n (H (self w)) →
  let H' := tabulate r n (euclidean_H m r (V (self w)) (W (self w)) (H (self w))) in
  let W' := tabulate m r (euclidean_W r n (V (self w)) (W (self w)) H') in
  euclidean_update w
  = Returns tt {| self := set_W W' (set_H H' (self w)); trace := trace w |}.
Proof.
  intros Hm Hr Hn HV HW HH H' W'.
  unfold euclidean_update, bind, get. simpl.
  rewrite (euclidean_H_step m r n) by done. simpl.
  rewrite (euclidean_W_step m r n) by (done || apply tabulate_wf).
  reflexivity.
Qed.

(** C5: one Divergence update step on well-shaped factors first replaces H
    by H ⊙ (Wᵗ·(V ⊘ (W·H))) ⊘ broadcast(colsum(W), n), computed with the old
    W, and then replaces W by W ⊙ ((V ⊘ (W·H))·Hᵗ) ⊘ broadcast(rowsum(H), m),
    where both the quotient V ⊘ (W·H) and the row sums are computed again
    from the new H. *)
Theorem divergence_update_rule (m r n : nat) (w : world R) :
  (0 < m)%nat → (0 < r)%nat → (0 < n)%nat →
  wf m n (V (self w)) → wf m r (W (self w)) → wf r n (H (self w)) →
  let H' := tabulate r n (divergence_H m r (V (self w)) (W (self w)) (H (self w))) in
  let W' := tabulate m r (divergence_W r n (V (self w)) (W (self w)) H') in
  divergence_update w
  = Returns tt {| self := set_W W' (set_H H' (self w)); trace := trace w |}.
Proof.
  intros Hm Hr Hn HV HW HH H' W'.
  unfold divergence_update, bind, get. simpl.
  rewrite (divergence_H_step m r n) by done. simpl.
  rewrite (divergence_W_step m r n) by (done || apply tabulate_wf).
  reflexivity.
Qed.

End Updates.

(** ** The stopping criteria *)

Section StoppingFacts.
Context {R : Type} {SR : Scalar R}.

(** C2: for every previous objective [p], current objective [c] and
    iteration [i], [_is_satisfied] answers as the five rules do when the
    first applicable one decides: periodic test not due, continue; iteration
    limit reached, stop; residual within the threshold after iteration 0,
    stop; objective increased after iteration 0, stop; otherwise continue.
    A limit counts as configured when it is a number other than zero. *)
Theorem is_satisfied_first_rule (s : Nmf R) (p c : R) (i : Z) :
  _is_satisfied s p c i
  = match stopping_evaluator s p c i with
    | Continue => true
    | Stop => false
    end.
Proof.
  unfold _is_satisfied, stopping_evaluator, rules. simpl.
  unfold configured_int, configured_num.
  destruct (test_conv s) as [t|]; destruct (max_iter s) as [mx|];
    destruct (min_residuals s) as [mr|]; simpl;
    repeat (match goal with
            | |- context [?a =? 0] => destruct (a =? 0); simpl
            | |- context [reqb ?a ?b] => destruct (reqb a b); simpl
            | |- context [?a <=? ?b] => destruct (a <=? b); simpl
            | |- context [0 <? ?b] => destruct (0 <? b); simpl
            | |- context [rleb ?a ?b] => destruct (rleb a b); simpl
            | |- context [rltb ?a ?b] => destruct (rltb a b); simpl
            end); reflexivity.
Qed.

(** The loop leaves at once, with no update, when the test fails. *)
Lemma iterate_leaves residuals fuel (p c : R) (i : Z) (w : world R) :
  _is_satisfied (self w) p c i = false →
  iterate residuals (S fuel) p c i w = Returns (p, c, i) w.
Proof. intros Hs. simpl. unfold bind, get. by rewrite Hs. Qed.

End StoppingFacts.

(** C3: with min_residuals = 0.01 and test_conv = 0, on objective values
    10.0, 9.5, ... the test of the loop passes at iteration 0 and fails at
    iteration 1, where the first drop of 0.5 is seen ([9.5 - 10.0 <= 0.01]):
    the loop leaves there, after one update, and never reaches a later
    smaller drop. *)
Theorem residual_rule_stops_at_first_drop :
  _is_satisfied residual_instance 10%float 10%float 0 = true
  ∧ _is_satisfied residual_instance 10%float 9.5%float 1 = false
  ∧ ∀ fuel t,
      iterate no_residuals (S fuel) 10%float 9.5%float 1
        {| self := residual_instance; trace := t |}
      = Returns (10%float, 9.5%float, 1)
          {| self := residual_instance; trace := t |}.
Proof.
  split; [reflexivity|]. split; [reflexivity|].
  intros fuel t. by apply iterate_leaves.
Qed.

(** A run with that threshold, the default Euclidean update and Frobenius
    objective: the first update takes the objective from 35.25 to 1.0, and
    the loop leaves on this drop after that single update. *)
Lemma residual_run_one_update :
  ∃ f w', factorize limit_seed no_residuals None 10 (fresh residual_instance)
          = Returns f w'
          ∧ n_iter (fit f) = Some 1
          ∧ updates (trace w') = 1%nat.
Proof.
  eexists _, _. split; [vm_compute; reflexivity|]. split; reflexivity.
Qed.

(** ** Strategy resolution *)

Lemma append_length (a b : string) :
  String.length (a +:+ b) = (String.length a + String.length b)%nat.
Proof. induction a as [|ch a IH]; simpl; [done|]. by rewrite IH. Qed.

Lemma append_cancel_r (a b s : string) : a +:+ s = b +:+ s → a = b.
Proof.
  revert b. induction a as [|ch a IH]; intros [|ch' b] Heq; simpl in *.
  - done.
  - apply (f_equal String.length) in Heq.
    rewrite !append_length in Heq. simpl in Heq. lia.
  - apply (f_equal String.length) in Heq.
    rewrite !append_length in Heq. simpl in Heq. lia.
  - injection Heq as -> Heq. f_equal. by apply IH.
Qed.

Lemma eqb_suffix (a b s : string) :
  String.eqb (a +:+ s) (b +:+ s) = String.eqb a b.
Proof.
  destruct (String.eqb_spec a b) as [->|Hne].
  - apply String.eqb_refl.
  - apply String.eqb_neq. intros Heq. by apply Hne, (append_cancel_r _ _ s).
Qed.

Lemma getattr_update (u : string) :
  getattr update_methods (u +:+ "_update")
  = if String.eqb u "euclidean" then Ok Euclidean
    else if String.eqb u "divergence" then Ok Divergence
    else Err (AttributeError (u +:+ "_update")).
Proof.
  unfold getattr, update_methods, assoc.
  change "euclidean_update"%string with ("euclidean" +:+ "_update").
  change "divergence_update"%string with ("divergence" +:+ "_update").
  rewrite !eqb_suffix.
  by destruct (String.eqb u "euclidean"), (String.eqb u "divergence").
Qed.

Lemma getattr_objective (o : string) :
  getattr objective_methods (o +:+ "_objective")
  = if String.eqb o "fro" then Ok Fro
    else if String.eqb o "div" then Ok Div
    else if String.eqb o "conn" then Ok Conn
    else Err (AttributeError (o +:+ "_objective")).
Proof.
  unfold getattr, objective_methods, assoc.
  change "fro_objective"%string with ("fro" +:+ "_objective").
  change "div_objective"%string with ("div" +:+ "_objective").
  change "conn_objective"%string with ("conn" +:+ "_objective").
  rewrite !eqb_suffix.
  by destruct (String.eqb o "fro"), (String.eqb o "div"), (String.eqb o "conn").
Qed.

Section Resolution.
Context {R : Type} {SR : Scalar R}.
Variable initialize :
  nat → Matrix R → Z → gmap string pyval → result (Matrix R * Matrix R).
Variable residuals : Nmf R → R.
Variable callback : option (Mf_fit R → result unit).

Lemma set_params_raises (w : world R) (u o : string) :
  default (PStr "euclidean") (options (self w) !! "update") = PStr u →
  default (PStr "fro") (options (self w) !! "objective") = PStr o →
  u ∉ ["euclidean"; "divergence"]%string ∨ o ∉ ["fro"; "div"; "conn"]%string →
  ∃ name w',
    _set_params w = Raises (AttributeError name) w'
    ∧ (name = u +:+ "_update" ∨ name = o +:+ "_objective")
    ∧ trace w' = trace w
    ∧ W (self w') = W (self w) ∧ H (self w') = H (self w).
Proof.
  intros Hu Ho Hbad.
  assert (Hobj : ∀ w0 : world R,
    options (self w0) = options (self w) → trace w0 = trace w →
    W (self w0) = W (self w) → H (self w0) = H (self w) →
    o ∉ ["fro"; "div"; "conn"]%string →
    ∃ w', lift (getattr objective_methods (o +:+ "_objective")) w0
          = Raises (AttributeError (o +:+ "_objective")) w'
          ∧ trace w' = trace w
          ∧ W (self w') = W (self w) ∧ H (self w') = H (self w)).
  { intros w0 _ Ht HW HH Hno. rewrite getattr_objective.
    destruct (String.eqb_spec o "fro") as [Heq|_];
      [exfalso; apply Hno; rewrite Heq; repeat constructor|].
    destruct (String.eqb_spec o "div") as [Heq|_];
      [exfalso; apply Hno; rewrite Heq; repeat constructor|].
    destruct (String.eqb_spec o "conn") as [Heq|_];
      [exfalso; apply Hno; rewrite Heq; repeat constructor|].
    exists w0. auto. }
  unfold _set_params, bind, get. rewrite Hu. simpl. rewrite getattr_update.
  destruct (String.eqb_spec u "euclidean") as [->|Hu1];
    [|destruct (String.eqb_spec u "divergence") as [->|Hu2]]; simpl.
  - rewrite Ho. simpl.
    destruct Hbad as [Hbad|Hbad]; [exfalso; apply Hbad; repeat constructor|].
    edestruct Hobj as (w' & -> & ?); [..|exact Hbad|]; [reflexivity..|].
    eauto 8.
  - rewrite Ho. simpl.
    destruct Hbad as [Hbad|Hbad]; [exfalso; apply Hbad; repeat constructor|].
    edestruct Hobj as (w' & -> & ?); [..|exact Hbad|]; [reflexivity..|].
    eauto 8.
  - eexists _, _. split; [reflexivity|]. auto.
Qed.

Lemma not_elem_of_two (x a b : string) : x ≠ a → x ≠ b → x ∉ [a; b].
Proof.
  intros Ha Hb Hin. apply elem_of_cons in Hin as [->|Hin]; [done|].
  apply elem_of_cons in Hin as [->|Hin]; [done|]. by apply elem_of_nil in Hin.
Qed.

(** Strategy resolution on a name that is not recognised: what is raised,
    and that only the resolved update may have been assigned by then. *)
Lemma set_params_raises_any (w : world R) :
  let uv := default (PStr "euclidean") (options (self w) !! "update") in
  let ov := default (PStr "fro") (options (self w) !! "objective") in
  (∀ u, uv = PStr u → u ∉ ["euclidean"; "divergence"]%string)
  ∨ (∀ o, ov = PStr o → o ∉ ["fro"; "div"; "conn"]%string) →
  ∃ e w',
    _set_params w = Raises e w'
    ∧ (((∀ u, uv = PStr u → u ∉ ["euclidean"; "divergence"]%string)
        ∧ e = lookup_error uv "_update")
       ∨ ((∃ u, uv = PStr u ∧ u ∈ ["euclidean"; "divergence"]%string)
          ∧ e = lookup_error ov "_objective"))
    ∧ trace w' = trace w
    ∧ W (self w') = W (self w) ∧ H (self w') = H (self w).
Proof.
  intros uv ov Hbad. subst uv ov.
  unfold _set_params, bind, get, lift.
  destruct (default (PStr "euclidean") (options (self w) !! "update"))
    as [|b|z|u] eqn:Huv; simpl.
  1-3: eexists _, w; split; [reflexivity|]; split; [|done]; left;
       split; [intros u Hu; discriminate Hu | reflexivity].
  rewrite getattr_update.
  destruct (String.eqb_spec u "euclidean") as [->|Hu1];
    [|destruct (String.eqb_spec u "divergence") as [->|Hu2]]; simpl.
  3:{ eexists _, w. split; [reflexivity|]. split; [|done]. left.
      split; [|reflexivity]. intros u' [= <-]. by apply not_elem_of_two. }
  all: destruct Hbad as [Hbad|Hbad];
    [exfalso; apply (Hbad _ eq_refl); repeat constructor|].
  all: destruct (default (PStr "fro") (options (self w) !! "objective"))
    as [|b|z|o] eqn:Hov; simpl.
  all: try (eexists _, _; split; [reflexivity|]; split; [|done]; right;
            split; [|reflexivity]; eexists; split; [done|];
            repeat constructor).
  all: specialize (Hbad o eq_refl); rewrite getattr_objective.
  all: destruct (String.eqb_spec o "fro") as [Heq|_];
    [exfalso; apply Hbad; rewrite Heq; repeat constructor|].
  all: destruct (String.eqb_spec o "div") as [Heq|_];
    [exfalso; apply Hbad; rewrite Heq; repeat constructor|].
  all: destruct (String.eqb_spec o "conn") as [Heq|_];
    [exfalso; apply Hbad; rewrite Heq; repeat constructor|].
  all: eexists _, _; split; [reflexivity|]; split; [|done]; right;
    split; [|reflexivity]; eexists; split; [done|]; repeat constructor.
Qed.

(** C9, as the code has it: when the update name (default "euclidean") is
    neither "euclidean" nor "divergence", or the objective name (default
    "fro") is none of "fro", "div" and "conn", [factorize] raises from
    [_set_params]: Python's [AttributeError] on the method it did not find,
    or [TypeError] when the value given is not a string.  The update is
    looked up first.  Nothing has been seeded, updated or evaluated by
    then: the trace and the factors are as they were. *)
Theorem unknown_strategy_raises (fuel : nat) (w : world R) :
  let uv := default (PStr "euclidean") (options (self w) !! "update") in
  let ov := default (PStr "fro") (options (self w) !! "objective") in
  (∀ u, uv = PStr u → u ∉ ["euclidean"; "divergence"]%string)
  ∨ (∀ o, ov = PStr o → o ∉ ["fro"; "div"; "conn"]%string) →
  ∃ e w',
    factorize initialize residuals callback fuel w = Raises e w'
    ∧ (((∀ u, uv = PStr u → u ∉ ["euclidean"; "divergence"]%string)
        ∧ e = lookup_error uv "_update")
       ∨ ((∃ u, uv = PStr u ∧ u ∈ ["euclidean"; "divergence"]%string)
          ∧ e = lookup_error ov "_objective"))
    ∧ trace w' = trace w
    ∧ W (self w') = W (self w) ∧ H (self w') = H (self w).
Proof.
  intros uv ov Hbad.
  destruct (set_params_raises_any w Hbad) as (e & w' & Hsp & Hrest).
  exists e, w'. split; [|exact Hrest].
  unfold factorize. unfold bind at 1. by rewrite Hsp.
Qed.

End Resolution.

(** ** What each step of a run does to the instance *)

Section Effects.
Context {R : Type} {SR : Scalar R}.
Variable initialize :
  nat → Matrix R → Z → gmap string pyval → result (Matrix R * Matrix R).
Variable residuals : Nmf R → R.
Variable callback : option (Mf_fit R → result unit).
Variable F : Prop.

Lemma wp_bind {A B} (m : M R A) (k : A → M R B) w (Q : B → world R → Prop) :
  wp F m w (λ a w', wp F (k a) w' Q) → wp F (bind m k) w Q.
Proof. unfold wp, bind. by destruct (m w). Qed.

Lemma wp_mono {A} (m : M R A) w (Q Q' : A → world R → Prop) :
  wp F m w Q → (∀ a w', Q a w' → Q' a w') → wp F m w Q'.
Proof. unfold wp. destruct (m w); auto. Qed.

Lemma wp_ret {A} (a : A) w (Q : A → world R → Prop) : Q a w → wp F (ret a) w Q.
Proof. done. Qed.

Lemma wp_get w (Q : Nmf R → world R → Prop) : Q (self w) w → wp F get w Q.
Proof. done. Qed.

Lemma wp_modify f w (Q : unit → world R → Prop) :
  Q tt {| self := f (self w); trace := trace w |} → wp F (modify f) w Q.
Proof. done. Qed.

Lemma wp_emit e w (Q : unit → world R → Prop) :
  Q tt {| self := self w; trace := trace w ++ [e] |} → wp F (emit e) w Q.
Proof. done. Qed.

Lemma wp_lift {A} (r : result A) w (Q : A → world R → Prop) :
  (∀ a, r = Ok a → Q a w) → wp F (lift r) w Q.
Proof. intros HQ. destruct r; [by apply HQ | done]. Qed.

Lemma wp_attribute {A} name (o : option A) w (Q : A → world R → Prop) :
  (∀ a, o = Some a → Q a w) → wp F (attribute name o) w Q.
Proof. intros HQ. destruct o; [by apply HQ | done]. Qed.

Lemma wp_returns {A} (m : M R A) w (Q : A → world R → Prop) a w' :
  wp F m w Q → m w = Returns a w' → Q a w'.
Proof. unfold wp. intros HQ Heq. by rewrite Heq in HQ. Qed.

(** An update assigns [H] and [W] and nothing else. *)
Lemma euclidean_update_effect w :
  wp F euclidean_update w
     (λ _ w', ∃ h x, self w' = set_W x (set_H h (self w)) ∧ trace w' = trace w).
Proof.
  unfold euclidean_update.
  apply wp_bind, wp_get, wp_bind, wp_lift. intros h _.
  apply wp_bind, wp_modify, wp_bind, wp_get, wp_bind, wp_lift. intros x _.
  apply wp_modify. by exists h, x.
Qed.

Lemma divergence_update_effect w :
  wp F divergence_update w
     (λ _ w', ∃ h x, self w' = set_W x (set_H h (self w)) ∧ trace w' = trace w).
Proof.
  unfold divergence_update.
  apply wp_bind, wp_get, wp_bind, wp_lift. intros h _.
  apply wp_bind, wp_modify, wp_bind, wp_get, wp_bind, wp_lift. intros x _.
  apply wp_modify. by exists h, x.
Qed.

Lemma call_update_effect w :
  wp F call_update w
     (λ _ w', ∃ h x, self w' = set_W x (set_H h (self w))
                     ∧ trace w' = trace w ++ [Updated]).
Proof.
  unfold call_update.
  apply wp_bind, wp_get, wp_bind, wp_attribute. intros u _.
  apply wp_bind.
  eapply wp_mono.
  { destruct u; [apply euclidean_update_effect | apply divergence_update_effect]. }
  intros _ w' (h & x & Hs & Ht). apply wp_emit. exists h, x. simpl.
  by rewrite Hs, Ht.
Qed.

(** The connectivity objective assigns [consold] and [cons], both present
    afterwards, and nothing else. *)
Lemma conn_objective_effect w :
  wp F conn_objective w
     (λ _ w', ∃ c co, self w' = set_cons (Some c) (set_consold (Some co) (self w))
                      ∧ trace w' = trace w).
Proof.
  unfold conn_objective.
  apply wp_bind, wp_get. destruct (linalg.argmax0 (H (self w))) as [vals idx].
  apply wp_bind, wp_lift. intros c' _. apply wp_bind.
  apply (wp_mono _ _ (λ _ w', ∃ co, self w' = set_cons (Some c') (set_consold (Some co) (self w))
                                    ∧ trace w' = trace w)).
  - destruct (consold (self w)) as [old|].
    + apply wp_bind, wp_attribute. intros c0 _.
      apply wp_bind, wp_modify, wp_modify. by exists c0.
    + apply wp_bind, wp_attribute. intros c0 _.
      apply wp_bind, wp_lift. intros co _.
      apply wp_bind, wp_modify, wp_modify. by exists co.
  - intros _ w' (co & Hs & Ht).
    apply wp_bind, wp_get, wp_bind, wp_attribute. intros c1 _.
    apply wp_bind, wp_attribute. intros c2 _.
    apply wp_bind, wp_lift. intros d _. apply wp_ret. by exists c', co.
Qed.

Lemma fro_objective_effect w : wp F fro_objective w (λ _ w', w' = w).
Proof.
  unfold fro_objective. apply wp_bind, wp_get, wp_lift. by intros.
Qed.

Lemma div_objective_effect w : wp F div_objective w (λ _ w', w' = w).
Proof.
  unfold div_objective. apply wp_bind, wp_get, wp_lift. by intros.
Qed.

(** What an evaluation of the objective leaves unchanged. *)
Lemma call_objective_effect w :
  wp F call_objective w
     (λ _ w', config (self w') = config (self w)
              ∧ W (self w') = W (self w) ∧ H (self w') = H (self w)
              ∧ tracker (self w') = tracker (self w)
              ∧ (is_Some (cons (self w)) → is_Some (cons (self w')))
              ∧ (is_Some (consold (self w)) → is_Some (consold (self w')))
              ∧ (objective (self w) = Some Conn →
                 is_Some (cons (self w')) ∧ is_Some (consold (self w')))
              ∧ trace w' = trace w ++ [Evaluated]).
Proof.
  unfold call_objective.
  apply wp_bind, wp_get, wp_bind, wp_attribute. intros o Ho.
  apply wp_bind. destruct o.
  - eapply wp_mono; [apply fro_objective_effect|]. intros v w' ->.
    apply wp_bind, wp_emit, wp_ret. simpl. rewrite Ho. by repeat split.
  - eapply wp_mono; [apply div_objective_effect|]. intros v w' ->.
    apply wp_bind, wp_emit, wp_ret. simpl. rewrite Ho. by repeat split.
  - eapply wp_mono; [apply conn_objective_effect|].
    intros v w' (c & co & Hs & Ht).
    apply wp_bind, wp_emit, wp_ret. simpl. rewrite Hs, Ht. simpl.
    repeat split; eauto.
Qed.

Lemma track_error_effect w :
  wp F (_track_error residuals) w
     (λ _ w', ∃ t t', tracker (self w) = Some t
                      ∧ self w' = set_tracker (Some t') (self w)
                      ∧ trace w' = trace w ++ [ErrorTracked]).
Proof.
  unfold _track_error.
  apply wp_bind, wp_get, wp_bind, wp_attribute. intros t Ht.
  apply wp_bind, wp_modify, wp_emit. eauto.
Qed.

Lemma updates_snoc t e :
  updates (t ++ [e]) = (updates t + (if decide (e = Updated) then 1 else 0))%nat.
Proof.
  unfold updates. rewrite filter_app, length_app. f_equal.
  rewrite filter_cons, filter_nil. by case_decide.
Qed.

Lemma floored_max (X : Matrix R) :
  rleb eps eps = true → floored (linalg.max X eps).
Proof.
  intros Heps. unfold floored, linalg.max.
  apply Forall_fmap, Forall_forall. intros r _. simpl.
  apply Forall_fmap, Forall_forall. intros x _. simpl.
  by destruct (rleb eps x) eqn:Hx.
Qed.

Lemma adjustment_floored (s : Nmf R) :
  rleb eps eps = true →
  floored (W (_adjustment s)) ∧ floored (H (_adjustment s)).
Proof. intros Heps. split; apply floored_max, Heps. Qed.

(** One pass of the loop: one update, the factors floored, the settings
    kept, no tracker appearing, the connectivity attributes staying. *)
Lemma pass_effect (c : R) (i : Z) w :
  wp F (pass residuals c i) w
     (λ _ w', config (self w') = config (self w)
              ∧ updates (trace w') = S (updates (trace w))
              ∧ (rleb eps eps = true →
                 floored (W (self w')) ∧ floored (H (self w')))
              ∧ (tracker (self w) = None → tracker (self w') = None)
              ∧ (is_Some (cons (self w)) → is_Some (cons (self w')))
              ∧ (is_Some (consold (self w)) → is_Some (consold (self w')))
              ∧ (FactorTracked ∈ trace w' → FactorTracked ∈ trace w)).
Proof.
  unfold pass. apply wp_bind.
  eapply wp_mono; [apply call_update_effect|].
  intros _ w1 (h & x & Hs1 & Ht1).
  apply wp_bind, wp_modify, wp_bind, wp_emit, wp_bind, wp_get. simpl.
  set (w2 := {| self := _adjustment (self w1); trace := trace w1 ++ [Adjusted] |}).
  apply wp_bind.
  apply (wp_mono _ _
    (λ _ w3, config (self w3) = config (self w2)
             ∧ W (self w3) = W (self w2) ∧ H (self w3) = H (self w2)
             ∧ tracker (self w3) = tracker (self w2)
             ∧ (is_Some (cons (self w2)) → is_Some (cons (self w3)))
             ∧ (is_Some (consold (self w2)) → is_Some (consold (self w3)))
             ∧ updates (trace w3) = updates (trace w2)
             ∧ (FactorTracked ∈ trace w3 → FactorTracked ∈ trace w2))).
  { match goal with |- context [if ?b then _ else _] => destruct b end.
    - eapply wp_mono; [apply call_objective_effect|].
      intros v w3 (Hc & HW & HH & Htr & Hco & Hcold & _ & Ht3).
      repeat split; try done.
      + rewrite Ht3, updates_snoc. case_decide; [done | lia].
      + rewrite Ht3. intros Hin. apply elem_of_app in Hin as [Hin|Hin]; [done|].
        by apply list_elem_of_singleton in Hin.
    - apply wp_ret. by repeat split. }
  intros c' w3 (Hc & HW & HH & Htr & Hco & Hcold & Hup & Hft).
  apply wp_bind, wp_get, wp_bind.
  assert (Hbase :
    config (self w2) = config (self w)
    ∧ updates (trace w2) = S (updates (trace w))
    ∧ (tracker (self w) = None → tracker (self w2) = None)
    ∧ (is_Some (cons (self w)) → is_Some (cons (self w2)))
    ∧ (is_Some (consold (self w)) → is_Some (consold (self w2)))
    ∧ (FactorTracked ∈ trace w2 → FactorTracked ∈ trace w)).
  { unfold w2. simpl. rewrite Hs1, Ht1. simpl. repeat split; try done.
    - rewrite !updates_snoc. repeat case_decide; try done. lia.
    - intros Hin. apply elem_of_app in Hin as [Hin|Hin];
        [|by apply list_elem_of_singleton in Hin].
      apply elem_of_app in Hin as [Hin|Hin]; [done|].
      by apply list_elem_of_singleton in Hin. }
  destruct Hbase as (Hc2 & Hup2 & Htr2 & Hco2 & Hcold2 & Hft2).
  apply (wp_mono _ _
    (λ _ w4, config (self w4) = config (self w3)
             ∧ W (self w4) = W (self w3) ∧ H (self w4) = H (self w3)
             ∧ (tracker (self w3) = None → tracker (self w4) = None)
             ∧ cons (self w4) = cons (self w3)
             ∧ consold (self w4) = consold (self w3)
             ∧ updates (trace w4) = updates (trace w3)
             ∧ (FactorTracked ∈ trace w4 → FactorTracked ∈ trace w3))).
  { match goal with |- context [if ?b then _ else _] => destruct b end.
    - eapply wp_mono; [apply track_error_effect|].
      intros _ w4 (t & t' & Ht & Hs4 & Ht4). rewrite Hs4, Ht4. simpl.
      repeat split; try done.
      + intros Hnone. by rewrite Hnone in Ht.
      + rewrite updates_snoc. case_decide; [done | lia].
      + intros Hin. apply elem_of_app in Hin as [Hin|Hin]; [done|].
        by apply list_elem_of_singleton in Hin.
    - apply wp_ret. by repeat split. }
  intros _ w4 (Hc4 & HW4 & HH4 & Htr4 & Hco4 & Hcold4 & Hup4 & Hft4).
  apply wp_ret.
  split; [by rewrite Hc4, Hc, Hc2|].
  split; [by rewrite Hup4, Hup, Hup2|].
  split.
  { intros Heps. rewrite HW4, HH4, HW, HH. unfold w2. simpl.
    by apply adjustment_floored. }
  split; [intros Hn; apply Htr4; rewrite Htr; by apply Htr2|].
  split; [intros Hs; rewrite Hco4; by apply Hco, Hco2|].
  split; [intros Hs; rewrite Hcold4; by apply Hcold, Hcold2|].
  intros Hin. by apply Hft2, Hft, Hft4.
Qed.

End Effects.

Section LoopFacts.
Context {R : Type} {SR : Scalar R}.
Variable residuals : Nmf R → R.

Lemma config_limits (s s' : Nmf R) :
  config s' = config s →
  max_iter s' = max_iter s ∧ min_residuals s' = min_residuals s
  ∧ test_conv s' = test_conv s ∧ track_factor s' = track_factor s
  ∧ track_error s' = track_error s ∧ objective s' = objective s
  ∧ n_run s' = n_run s.
Proof. unfold config. intros Hc. injection Hc. intros. by repeat split. Qed.

Lemma is_satisfied_config (s s' : Nmf R) p c i :
  config s' = config s → _is_satisfied s' p c i = _is_satisfied s p c i.
Proof.
  intros Hc. destruct (config_limits s s' Hc) as (Hmx & Hmr & Htc & _).
  unfold _is_satisfied. by rewrite Hmx, Hmr, Htc.
Qed.

(** The loop: what holds when it leaves. *)
Lemma iterate_effect fuel (p c : R) (i : Z) w :
  wp True (iterate residuals fuel p c i) w
     (λ r w', config (self w') = config (self w)
              ∧ i ≤ r.2
              ∧ updates (trace w') = (updates (trace w) + Z.to_nat (r.2 - i))%nat
              ∧ _is_satisfied (self w') r.1.1 r.1.2 r.2 = false
              ∧ (rleb eps eps = true →
                 i < r.2 ∨ (floored (W (self w)) ∧ floored (H (self w))) →
                 floored (W (self w')) ∧ floored (H (self w')))
              ∧ (tracker (self w) = None → tracker (self w') = None)
              ∧ (is_Some (cons (self w)) → is_Some (cons (self w')))
              ∧ (is_Some (consold (self w)) → is_Some (consold (self w')))
              ∧ (FactorTracked ∈ trace w' → FactorTracked ∈ trace w)).
Proof.
  revert p c i w. induction fuel as [|fuel IH]; intros p c i w; [done|].
  simpl. apply wp_bind, wp_get.
  destruct (_is_satisfied (self w) p c i) eqn:Hsat.
  - apply wp_bind. eapply wp_mono; [apply pass_effect|].
    intros c' w1 (Hc1 & Hup1 & Hfl1 & Htr1 & Hco1 & Hcold1 & Hft1).
    eapply wp_mono; [apply IH|].
    intros [[p' c''] it] w' (Hc & Hle & Hup & Hex & Hfl & Htr & Hco & Hcold & Hft).
    simpl in *.
    split; [by rewrite Hc|]. split; [lia|].
    split; [rewrite Hup, Hup1; lia|]. split; [done|].
    split; [intros Heps _; apply Hfl; [done|]; right; by apply Hfl1|].
    split; [auto|]. split; [auto|]. split; auto.
  - apply wp_ret. simpl. split; [done|]. split; [lia|].
    split; [rewrite Z.sub_diag; simpl; lia|]. split; [done|].
    split; [intros _ [?|?]; [lia | done]|]. by repeat split.
Qed.

(** With an iteration limit and no periodic test, the test fails once the
    limit is reached. *)
Lemma is_satisfied_below_limit (s : Nmf R) (mx : Z) p c i :
  max_iter s = Some mx → mx ≠ 0 → truthy_int (test_conv s) = false →
  _is_satisfied s p c i = true → i < mx.
Proof.
  intros Hmx Hnz Htc Hsat. unfold _is_satisfied in Hsat. rewrite Hmx in Hsat.
  assert (Hz : (mx =? 0) = false) by by apply Z.eqb_neq.
  rewrite Hz in Hsat. simpl in Hsat.
  destruct (mx <=? i) eqn:Hle.
  - destruct (test_conv s) as [t|]; simpl in *; [|done].
    apply negb_false_iff in Htc. by rewrite Htc in Hsat.
  - apply Z.leb_gt in Hle. lia.
Qed.

(** With no periodic test, the test passes at iteration 0 unless the limit
    is negative. *)
Lemma is_satisfied_at_zero (s : Nmf R) (mx : Z) p c :
  max_iter s = Some mx → 0 < mx → truthy_int (test_conv s) = false →
  _is_satisfied s p c 0 = true.
Proof.
  intros Hmx Hpos Htc. unfold _is_satisfied. rewrite Hmx.
  assert (Hle : (mx <=? 0) = false) by (apply Z.leb_gt; lia).
  rewrite Hle, andb_false_r. simpl.
  destruct (test_conv s) as [t|]; destruct (min_residuals s) as [mr|];
    simpl; rewrite ?andb_false_r; done.
Qed.

(** With no periodic test, leaving below the limit means that the
    minimum-residual rule or the increase rule applied. *)
Lemma leaves_below_limit (s : Nmf R) (mx : Z) p c i :
  max_iter s = Some mx → truthy_int (test_conv s) = false →
  _is_satisfied s p c i = false → i < mx →
  applies s p c i MinResidual = true ∨ applies s p c i Increase = true.
Proof.
  intros Hmx Htc Hsat Hlt. unfold _is_satisfied in Hsat. rewrite Hmx in Hsat.
  assert (Hle : (mx <=? i) = false) by (apply Z.leb_gt; lia).
  rewrite Hle, andb_false_r in Hsat. unfold applies, configured_num.
  assert (Hskip : match test_conv s with
                  | Some t => negb (t =? 0) && negb (i `mod` t =? 0)
                  | None => false
                  end = false).
  { destruct (test_conv s) as [t|]; simpl in *; [|done].
    apply negb_false_iff in Htc. by rewrite Htc. }
  rewrite Hskip in Hsat.
  destruct (min_residuals s) as [mr|]; simpl in *.
  - destruct (reqb mr rzero); simpl in *.
    + right. by destruct ((0 <? i) && rltb p c).
    + destruct ((0 <? i) && rleb (rsub c p) mr); [by left|].
      right. by destruct ((0 <? i) && rltb p c).
  - right. by destruct ((0 <? i) && rltb p c).
Qed.

(** With an iteration limit and no periodic test, fuel beyond the limit is
    enough for the loop to leave, and it leaves within the limit. *)
Lemma iterate_within_limit fuel (mx : Z) (p c : R) (i : Z) w :
  max_iter (self w) = Some mx → mx ≠ 0 →
  truthy_int (test_conv (self w)) = false →
  i ≤ mx → mx - i < Z.of_nat fuel →
  wp False (iterate residuals fuel p c i) w (λ r _, r.2 ≤ mx).
Proof.
  revert p c i w.
  induction fuel as [|fuel IH]; intros p c i w Hmx Hnz Htc Hle Hfuel; [simpl; lia|].
  simpl. apply wp_bind, wp_get.
  destruct (_is_satisfied (self w) p c i) eqn:Hsat.
  - pose proof (is_satisfied_below_limit _ _ _ _ _ Hmx Hnz Htc Hsat) as Hlt.
    apply wp_bind. eapply wp_mono; [apply pass_effect|].
    intros c' w1 (Hc1 & _).
    destruct (config_limits _ _ Hc1) as (Hmx1 & _ & Htc1 & _).
    apply IH; [by rewrite Hmx1 | done | by rewrite Htc1 | lia | lia].
  - by apply wp_ret.
Qed.

(** C7, as the code has it: with max_iter = 5 and no periodic test, the
    loop started at iteration 0 leaves after at least one and at most five
    update steps (given fuel for six tests of its condition); it performs
    fewer than five only when it leaves because, past iteration 0, the
    minimum-residual rule applied or the objective increased. *)
Theorem max_iter_bounds_updates fuel (p c : R) w :
  max_iter (self w) = Some 5 →
  truthy_int (test_conv (self w)) = false →
  (5 < fuel)%nat →
  match iterate residuals fuel p c 0 w with
  | Returns (p', c', it) w' =>
      1 ≤ it ≤ 5
      ∧ updates (trace w') = (updates (trace w) + Z.to_nat it)%nat
      ∧ (it < 5 →
         applies (self w') p' c' it MinResidual = true
         ∨ applies (self w') p' c' it Increase = true)
  | Raises _ _ => True
  | OutOfFuel => False
  end.
Proof.
  intros Hmx Htc Hfuel.
  pose proof (iterate_within_limit fuel 5 p c 0 w Hmx) as Hlim.
  pose proof (iterate_effect fuel p c 0 w) as Heff.
  unfold wp in Hlim, Heff.
  destruct (iterate residuals fuel p c 0 w) as [[[p' c'] it] w'| |].
  - simpl in *. destruct Heff as (Hc & Hge & Hup & Hex & _).
    destruct (config_limits _ _ Hc) as (Hmx' & _ & Htc' & _).
    assert (Hit : it ≤ 5) by (apply Hlim; [done|done|lia|lia]).
    rewrite <- Hmx' in Hmx. rewrite <- Htc' in Htc.
    split; [split; [|done]|].
    + destruct (decide (it = 0)) as [->|]; [|lia].
      rewrite (is_satisfied_at_zero _ 5) in Hex by (done || lia). done.
    + split; [by rewrite Hup, Z.sub_0_r|].
      intros Hlt. by apply (leaves_below_limit _ 5).
  - done.
  - apply Hlim; [done|done|lia|lia].
Qed.

End LoopFacts.

(** The run of [limit_instance] performs two update steps, not five: the
    second leaves the Frobenius objective at 1.0000000000000002, above the
    1.0 that the first had reached, and the increase rule stops the loop. *)
Lemma limit_run_two_updates :
  ∃ f w', factorize limit_seed no_residuals None 10 (fresh limit_instance)
          = Returns f w'
          ∧ updates (trace w') = 2%nat
          ∧ n_iter (fit f) = Some 2
          ∧ updates (trace w') ≠ 5%nat.
Proof.
  eexists _, _. split; [vm_compute; reflexivity|].
  split; [reflexivity|]. split; [reflexivity|]. vm_compute. lia.
Qed.

Lemma max_iter_bounds_updates_witness :
  match iterate no_residuals 6 35.25%float 35.25%float 0 limit_world with
  | Returns (p', c', it) w' =>
      1 ≤ it ≤ 5
      ∧ updates (trace w') = (updates (trace limit_world) + Z.to_nat it)%nat
      ∧ (it < 5 →
         applies (self w') p' c' it MinResidual = true
         ∨ applies (self w') p' c' it Increase = true)
  | Raises _ _ => True
  | OutOfFuel => False
  end.
Proof.
  apply (max_iter_bounds_updates no_residuals 6 35.25%float 35.25%float limit_world);
    [reflexivity | reflexivity | lia].
Defined.

(** ** The stabilizer *)

Section Stabilizer.
Context {R : Type} {SR : Scalar R}.
Variable residuals : Nmf R → R.

Lemma entry_max (X : Matrix R) (e : R) i j :
  entry (linalg.max X e) i j
  = (λ x, if rleb e x then x else e) <$> entry X i j.
Proof.
  unfold entry, linalg.max. rewrite list_lookup_fmap.
  destruct (X !! i) as [r|]; simpl; [|done]. by rewrite list_lookup_fmap.
Qed.

Lemma shape_max (X : Matrix R) (e : R) : shape (linalg.max X e) = shape X.
Proof.
  unfold shape, nrows, linalg.max. rewrite length_fmap. f_equal.
  destruct X as [|r X]; simpl; [done|]. by rewrite length_fmap.
Qed.

Lemma bind_returns_inv {A B} (m : M R A) (k : A → M R B) w b w'' :
  bind m k w = Returns b w'' →
  ∃ a w', m w = Returns a w' ∧ k a w' = Returns b w''.
Proof. unfold bind. destruct (m w) as [a w'| |]; [eauto | done | done]. Qed.

(** A pass that returns has floored the factors that the update produced
    before it evaluates the objective on them, and these floored factors
    are the ones it leaves. *)
Lemma pass_evaluates_floored (c : R) (i : Z) (w : world R) c' w' :
  rleb eps eps = true →
  pass residuals c i w = Returns c' w' →
  ∃ w1, call_update w = Returns tt w1
        ∧ let w2 := {| self := _adjustment (self w1);
                       trace := trace w1 ++ [Adjusted] |} in
          floored (W (self w2)) ∧ floored (H (self w2))
          ∧ (if negb (truthy_int (test_conv (self w)))
                || (i `mod` default 0 (test_conv (self w)) =? 0)
             then ∃ w3, call_objective w2 = Returns c' w3
             else c' = c)
          ∧ W (self w') = W (self w2) ∧ H (self w') = H (self w2).
Proof.
  intros Heps Hret. unfold pass in Hret.
  apply bind_returns_inv in Hret as ([] & w1 & Hup & Hret).
  apply bind_returns_inv in Hret as ([] & wa & Hmod & Hret).
  apply bind_returns_inv in Hret as ([] & w2 & Hem & Hret).
  apply bind_returns_inv in Hret as (s2 & w2' & Hget & Hret).
  apply bind_returns_inv in Hret as (c2 & w3 & Hobj & Hret).
  apply bind_returns_inv in Hret as (s3 & w3' & Hget3 & Hret).
  apply bind_returns_inv in Hret as ([] & w4 & Hte & Hret).
  injection Hmod as <-. injection Hem as <-. injection Hget as <- <-.
  injection Hget3 as <- <-. injection Hret as <- <-. simpl in *.
  pose proof (wp_returns True _ _ _ _ _ (call_update_effect True w) Hup)
    as (h & x & Hs1 & _).
  assert (Htc : test_conv (self w1) = test_conv (self w)) by by rewrite Hs1.
  rewrite Htc in Hobj.
  assert (H43 : W (self w4) = W (self w3) ∧ H (self w4) = H (self w3)).
  { destruct (truthy (track_error (self w3))).
    - pose proof (wp_returns True _ _ _ _ _
                    (track_error_effect residuals True w3) Hte)
        as (t & t' & _ & Hs4 & _).
      by rewrite Hs4.
    - by injection Hte as <-. }
  destruct H43 as [HW43 HH43]. rewrite HW43, HH43.
  exists w1. split; [done|].
  split; [by apply floored_max|]. split; [by apply floored_max|].
  destruct (negb (truthy_int (test_conv (self w)))
            || (i `mod` default 0 (test_conv (self w)) =? 0)).
  - pose proof (wp_returns True _ _ _ _ _ (call_objective_effect True _) Hobj)
      as (_ & HW & HH & _).
    split; [by exists w3|]. by rewrite HW, HH.
  - injection Hobj as <- <-. by repeat split.
Qed.

(** C6: provided [eps <= eps] holds of the element type, [_adjustment]
    replaces every element x of W and of H by x if eps <= x and by eps
    otherwise, keeps the shapes and every other attribute, and leaves all
    elements of W and H at least eps.  In every pass of the loop the
    adjustment comes between the update and the objective: a pass that
    returns has evaluated the objective, when it evaluates it, in the state
    that [_adjustment] made of the one the update left, where all elements
    of W and H are at least eps, and it leaves these floored factors; so
    the loop, once it has made an update, leaves W and H floored. *)
Theorem adjustment_floors :
  rleb eps eps = true →
  (∀ s : Nmf R,
     (∀ i j, entry (W (_adjustment s)) i j
             = (λ x, if rleb eps x then x else eps) <$> entry (W s) i j)
     ∧ (∀ i j, entry (H (_adjustment s)) i j
               = (λ x, if rleb eps x then x else eps) <$> entry (H s) i j)
     ∧ shape (W (_adjustment s)) = shape (W s)
     ∧ shape (H (_adjustment s)) = shape (H s)
     ∧ floored (W (_adjustment s)) ∧ floored (H (_adjustment s))
     ∧ config (_adjustment s) = config s
     ∧ tracker (_adjustment s) = tracker s
     ∧ cons (_adjustment s) = cons s ∧ consold (_adjustment s) = consold s
     ∧ n_iter (_adjustment s) = n_iter s
     ∧ final_obj (_adjustment s) = final_obj s)
  ∧ (∀ c i w c' w',
       pass residuals c i w = Returns c' w' →
       ∃ w1, call_update w = Returns tt w1
             ∧ let w2 := {| self := _adjustment (self w1);
                            trace := trace w1 ++ [Adjusted] |} in
               floored (W (self w2)) ∧ floored (H (self w2))
               ∧ (if negb (truthy_int (test_conv (self w)))
                     || (i `mod` default 0 (test_conv (self w)) =? 0)
                  then ∃ w3, call_objective w2 = Returns c' w3
                  else c' = c)
               ∧ W (self w') = W (self w2) ∧ H (self w') = H (self w2))
  ∧ (∀ fuel p c i w,
       wp True (iterate residuals fuel p c i) w
          (λ r w', i < r.2 → floored (W (self w')) ∧ floored (H (self w')))).
Proof.
  intros Heps. split; [|split].
  - intros s. split; [intros i j; apply entry_max|].
    split; [intros i j; apply entry_max|].
    split; [apply shape_max|]. split; [apply shape_max|].
    split; [apply floored_max, Heps|]. split; [apply floored_max, Heps|].
    by repeat split.
  - intros c i w c' w' Hret. by apply (pass_evaluates_floored c i w).
  - intros fuel p c i w. eapply wp_mono; [apply iterate_effect|].
    intros r w' (_ & _ & _ & _ & Hfl & _) Hlt. apply Hfl; [done | by left].
Qed.

End Stabilizer.

Lemma adjustment_floors_witness :
  let s := set_W [[0]; [2]]%float (self limit_world) in
  (floored (W (_adjustment s)) ∧ floored (H (_adjustment s))
   ∧ entry (W (_adjustment s)) 0 0 = Some 0x1p-52%float)
  ∧ ∃ c' w' w1,
      pass no_residuals 35.25%float 0 limit_world = Returns c' w'
      ∧ call_update limit_world = Returns tt w1
      ∧ floored (W (_adjustment (self w1)))
      ∧ floored (H (_adjustment (self w1)))
      ∧ (∃ w3, call_objective
                 {| self := _adjustment (self w1);
                    trace := trace w1 ++ [Adjusted] |}
               = Returns c' w3)
      ∧ W (self w') = W (_adjustment (self w1))
      ∧ H (self w') = H (_adjustment (self w1)).
Proof.
  intros s.
  destruct (adjustment_floors (R := float) no_residuals) as (Hadj & Hpass & _);
    [reflexivity|].
  split.
  - destruct (Hadj s) as (HW00 & _ & _ & _ & HW & HH & _).
    split; [exact HW|]. split; [exact HH|]. rewrite HW00. reflexivity.
  - destruct (pass no_residuals 35.25%float 0 limit_world)
      as [c' w'| |] eqn:Hret; [|vm_compute in Hret; discriminate..].
    destruct (Hpass 35.25%float 0 limit_world c' w' Hret)
      as (w1 & Hup & HW & HH & Hobj & HW' & HH').
    exists c', w', w1. by repeat split.
Defined.

(** ** Runs *)

Section Runs.
Context {R : Type} {SR : Scalar R}.
Variable initialize :
  nat → Matrix R → Z → gmap string pyval → result (Matrix R * Matrix R).
Variable residuals : Nmf R → R.
Variable callback : option (Mf_fit R → result unit).
Variable F : Prop.

(** [_set_params] resolves the strategies and the tracking and touches
    nothing else. *)
Lemma set_params_effect w :
  wp F _set_params w
     (λ _ (w' : world R),
        trace w' = trace w
        ∧ n_run (self w') = n_run (self w)
        ∧ max_iter (self w') = max_iter (self w)
        ∧ test_conv (self w') = test_conv (self w)
        ∧ cons (self w') = cons (self w)
        ∧ consold (self w') = consold (self w)
        ∧ track_factor (self w')
          = default (PBool false) (options (self w) !! "track_factor")
        ∧ track_error (self w')
          = default (PBool false) (options (self w) !! "track_error")
        ∧ tracker (self w')
          = (if truthy (track_factor (self w')) && (1 <? n_run (self w))
                || truthy (track_error (self w'))
             then Some {| errors := []; factors := [] |}
             else None)).
Proof.
  unfold _set_params.
  apply wp_bind, wp_get, wp_bind, wp_lift. intros name _.
  apply wp_bind, wp_lift. intros u _.
  apply wp_bind, wp_modify, wp_bind, wp_get, wp_bind, wp_lift. intros name' _.
  apply wp_bind, wp_lift. intros o _.
  apply wp_bind, wp_modify, wp_bind, wp_get, wp_bind, wp_modify.
  apply wp_bind, wp_get, wp_bind, wp_modify, wp_bind, wp_get, wp_modify.
  simpl. by repeat split.
Qed.

(** The head of a run seeds the factors and evaluates the objective. *)
Lemma start_effect k w :
  wp F (start initialize k) w
     (λ _ w',
        config (self w') = config (self w)
        ∧ tracker (self w') = tracker (self w)
        ∧ (objective (self w) = Some Conn →
           is_Some (cons (self w')) ∧ is_Some (consold (self w')))
        ∧ (FactorTracked ∈ trace w' → FactorTracked ∈ trace w)).
Proof.
  unfold start.
  apply wp_bind, wp_get, wp_bind, wp_lift. intros seed _.
  apply wp_bind, wp_modify, wp_bind, wp_modify, wp_bind, wp_emit.
  eapply wp_mono; [apply call_objective_effect|].
  intros v w' (Hc & _ & _ & Htr & _ & _ & Hconn & Ht). simpl in *.
  split; [done|]. split; [done|]. split; [done|].
  rewrite Ht. intros Hin.
  apply elem_of_app in Hin as [Hin|Hin];
    [|by apply list_elem_of_singleton in Hin].
  apply elem_of_app in Hin as [Hin|Hin]; [done|].
  by apply list_elem_of_singleton in Hin.
Qed.

Lemma notify_effect c w :
  wp F (notify callback c) w
     (λ _ w',
        config (self w') = config (self w)
        ∧ tracker (self w') = tracker (self w)
        ∧ cons (self w') = cons (self w)
        ∧ consold (self w') = consold (self w)
        ∧ (FactorTracked ∈ trace w' → FactorTracked ∈ trace w)).
Proof.
  unfold notify. destruct callback as [cb|].
  - apply wp_bind, wp_modify, wp_bind, wp_get, wp_bind, wp_lift. intros _ _.
    apply wp_emit. simpl. repeat split; try done.
    intros Hin. apply elem_of_app in Hin as [Hin|Hin]; [done|].
    by apply list_elem_of_singleton in Hin.
  - apply wp_ret. by repeat split.
Qed.

(** With factor tracking asked for and no tracker, the recording raises
    and leaves the instance as it is. *)
Lemma record_factors_no_tracker (w : world R) :
  truthy (track_factor (self w)) = true → tracker (self w) = None →
  record_factors w = Raises (AttributeError "_track_factor") w.
Proof.
  intros Htf Htr. unfold record_factors, bind, get. rewrite Htf.
  unfold _track_factor, bind, get. by rewrite Htr.
Qed.

Lemma record_factors_effect (w : world R) :
  wp F record_factors w
     (λ _ w',
        config (self w') = config (self w)
        ∧ cons (self w') = cons (self w)
        ∧ consold (self w') = consold (self w)
        ∧ (truthy (track_factor (self w)) = true → is_Some (tracker (self w)))).
Proof.
  unfold record_factors. apply wp_bind, wp_get.
  destruct (truthy (track_factor (self w))) eqn:Htf.
  - unfold _track_factor.
    apply wp_bind, wp_get, wp_bind, wp_attribute. intros t Ht.
    apply wp_bind, wp_modify, wp_emit. simpl. by repeat split.
  - apply wp_ret. by repeat split.
Qed.

End Runs.

Section Factorize.
Context {R : Type} {SR : Scalar R}.
Variable initialize :
  nat → Matrix R → Z → gmap string pyval → result (Matrix R * Matrix R).
Variable residuals : Nmf R → R.
Variable callback : option (Mf_fit R → result unit).

Lemma bind_returns {A B} (m : M R A) (k : A → M R B) w a w' :
  m w = Returns a w' → bind m k w = k a w'.
Proof. unfold bind. by intros ->. Qed.

Lemma bind_raises {A B} (m : M R A) (k : A → M R B) w e w' :
  m w = Raises e w' → bind m k w = Raises e w'.
Proof. unfold bind. by intros ->. Qed.

(** A run that returns kept the settings, leaves the connectivity
    attributes present when the objective is the connectivity one, and
    found a tracker if it had factors to record. *)
Lemma run_effect fuel k (w : world R) :
  wp True (run initialize residuals callback fuel k) w
     (λ _ w',
        config (self w') = config (self w)
        ∧ (objective (self w) = Some Conn →
           is_Some (cons (self w')) ∧ is_Some (consold (self w')))
        ∧ (truthy (track_factor (self w)) = true → is_Some (tracker (self w)))).
Proof.
  unfold run. apply wp_bind.
  eapply wp_mono; [apply start_effect|].
  intros c0 w1 (Hc1 & Htr1 & Hconn1 & _). apply wp_bind.
  eapply wp_mono; [apply iterate_effect|].
  intros [[p c] it] w2 (Hc2 & _ & _ & _ & _ & Htr2 & Hco2 & Hcold2 & _).
  simpl. apply wp_bind.
  eapply wp_mono; [apply notify_effect|].
  intros _ w3 (Hc3 & Htr3 & Hco3 & Hcold3 & _). apply wp_bind.
  eapply wp_mono; [apply record_factors_effect|].
  intros _ w4 (Hc4 & Hco4 & Hcold4 & Htf4). apply wp_ret.
  destruct (config_limits _ _ Hc1) as (_ & _ & _ & Htf1 & _ & Hobj1 & _).
  destruct (config_limits _ _ Hc2) as (_ & _ & _ & Htf2 & _).
  destruct (config_limits _ _ Hc3) as (_ & _ & _ & Htf3 & _).
  split; [by rewrite Hc4, Hc3, Hc2, Hc1|]. split.
  - intros Hconn. destruct (Hconn1 Hconn) as [Hs1 Hs2].
    rewrite Hco4, Hcold4, Hco3, Hcold3. auto.
  - intros Htf. rewrite <- Htf1, <- Htf2, <- Htf3 in Htf.
    specialize (Htf4 Htf). rewrite Htr3 in Htf4.
    destruct (tracker (self w)) as [t|] eqn:Ht; [done|].
    rewrite (Htr2 Htr1) in Htf4. by destruct Htf4.
Qed.

Lemma runs_need_tracker fuel k n last (w : world R) :
  (0 < n)%nat → truthy (track_factor (self w)) = true →
  tracker (self w) = None →
  wp True (runs initialize residuals callback fuel k n last) w (λ _ _, False).
Proof.
  intros Hn Htf Htr. destruct n as [|n]; [lia|]. simpl. apply wp_bind.
  eapply wp_mono; [apply run_effect|].
  intros r w1 (_ & _ & Hsome). destruct (Hsome Htf) as [t Ht]. congruence.
Qed.

(** C10: with track_factor set, track_error not set and n_run = 1,
    [_set_params] leaves [tracker] at [None] while [track_factor] stays
    set; the recording of the factors then raises on the missing tracker
    and changes nothing; so [factorize] never returns, and once the loop of
    its run has left and the callback has been served it raises exactly
    there, with no snapshot recorded. *)
Theorem factor_tracking_without_tracker (fuel : nat) (w : world R) :
  truthy (default (PBool false) (options (self w) !! "track_factor")) = true →
  truthy (default (PBool false) (options (self w) !! "track_error")) = false →
  n_run (self w) = 1 →
  (∀ w1, _set_params w = Returns tt w1 →
         tracker (self w1) = None ∧ truthy (track_factor (self w1)) = true)
  ∧ (∀ w1 : world R,
       truthy (track_factor (self w1)) = true → tracker (self w1) = None →
       record_factors w1 = Raises (AttributeError "_track_factor") w1)
  ∧ (∀ f w', factorize initialize residuals callback fuel w ≠ Returns f w')
  ∧ (∀ w1 c w2 r w3 w4,
       _set_params w = Returns tt w1 →
       start initialize 0 w1 = Returns c w2 →
       iterate residuals fuel c c 0 w2 = Returns r w3 →
       notify callback r.1.2 w3 = Returns tt w4 →
       factorize initialize residuals callback fuel w
       = Raises (AttributeError "_track_factor") w4
       ∧ tracker (self w4) = None
       ∧ (FactorTracked ∈ trace w4 → FactorTracked ∈ trace w)).
Proof.
  intros Htf Hte Hn.
  assert (Hset : ∀ w1, _set_params w = Returns tt w1 →
            tracker (self w1) = None ∧ truthy (track_factor (self w1)) = true
            ∧ n_run (self w1) = 1 ∧ trace w1 = trace w).
  { intros w1 Hsp.
    pose proof (wp_returns True _ _ _ _ _ (set_params_effect True w) Hsp)
      as (Ht & Hn1 & _ & _ & _ & _ & Htf1 & Hte1 & Htr1).
    rewrite Htf1, Hte1, Htf, Hte, Hn in Htr1. simpl in Htr1.
    rewrite Htf1, Hn1. auto. }
  split; [intros w1 Hsp; by destruct (Hset w1 Hsp) as (? & ? & _)|].
  split; [intros w1; apply record_factors_no_tracker|].
  split.
  - intros f w' Hret. unfold factorize in Hret.
    unfold bind at 1 in Hret.
    destruct (_set_params w) as [[] w1| |] eqn:Hsp; [|done..].
    destruct (Hset w1 eq_refl) as (Htr1 & Htf1 & Hn1 & _).
    unfold bind at 1 in Hret. unfold get at 1 in Hret.
    unfold bind at 1 in Hret. rewrite Hn1 in Hret.
    pose proof (runs_need_tracker fuel 0 (Z.to_nat 1) None w1) as Hruns.
    unfold wp in Hruns.
    destruct (runs initialize residuals callback fuel 0 (Z.to_nat 1) None w1);
      [|done..].
    apply Hruns; [simpl; lia | done | done].
  - intros w1 c w2 r w3 w4 Hsp Hstart Hiter Hnotify.
    destruct (Hset w1 Hsp) as (Htr1 & Htf1 & Hn1 & Ht1).
    pose proof (wp_returns True _ _ _ _ _ (start_effect initialize True 0 w1) Hstart)
      as (Hc2 & Htr2 & _ & Hft2).
    pose proof (wp_returns True _ _ _ _ _ (iterate_effect residuals fuel c c 0 w2) Hiter)
      as (Hc3 & _ & _ & _ & _ & Htr3 & _ & _ & Hft3).
    pose proof (wp_returns True _ _ _ _ _ (notify_effect callback True r.1.2 w3) Hnotify)
      as (Hc4 & Htr4 & _ & _ & Hft4).
    destruct (config_limits _ _ Hc2) as (_ & _ & _ & Htf2 & _).
    destruct (config_limits _ _ Hc3) as (_ & _ & _ & Htf3 & _).
    destruct (config_limits _ _ Hc4) as (_ & _ & _ & Htf4 & _).
    assert (Hnone : tracker (self w4) = None).
    { rewrite Htr4. apply Htr3. by rewrite Htr2. }
    assert (Htruthy : truthy (track_factor (self w4)) = true).
    { by rewrite Htf4, Htf3, Htf2. }
    split; [|split; [done|]].
    + unfold factorize. rewrite (bind_returns _ _ _ _ _ Hsp).
      unfold bind at 1. unfold get at 1. rewrite Hn1.
      apply bind_raises. simpl. apply bind_raises. unfold run.
      rewrite (bind_returns _ _ _ _ _ Hstart).
      rewrite (bind_returns _ _ _ _ _ Hiter).
      destruct r as [[p c'] it]. simpl in *.
      rewrite (bind_returns _ _ _ _ _ Hnotify).
      apply bind_raises. by apply record_factors_no_tracker.
    + intros Hin. rewrite <- Ht1. by apply Hft2, Hft3, Hft4.
Qed.

End Factorize.

(** ** The connectivity attributes across runs *)

Section Connectivity.
Context {R : Type} {SR : Scalar R}.
Variable initialize :
  nat → Matrix R → Z → gmap string pyval → result (Matrix R * Matrix R).
Variable residuals : Nmf R → R.
Variable callback : option (Mf_fit R → result unit).

(** With neither attribute present, the connectivity objective cannot
    return: it reads [self.cons] before any assignment to it. *)
Lemma conn_objective_first_call (w : world R) v w' :
  cons (self w) = None → consold (self w) = None →
  conn_objective w ≠ Returns v w'.
Proof.
  intros Hc Hco. unfold conn_objective, bind, get.
  destruct (linalg.argmax0 (H (self w))) as [vals idx].
  destruct (linalg.elop _ _ linalg.eq) as [c'|e]; simpl; [|done].
  by rewrite Hco, Hc.
Qed.

(** On an instance with neither attribute, the head of a run raises: the
    seeding does, or the connectivity objective does before it has assigned
    anything. *)
Lemma start_conn_raises k (w : world R) :
  objective (self w) = Some Conn →
  cons (self w) = None → consold (self w) = None →
  ∃ e w', start initialize k w = Raises e w'
          ∧ cons (self w') = None ∧ consold (self w') = None
          ∧ (trace w' = trace w ∨ trace w' = trace w ++ [Seeded k]).
Proof.
  intros Hobj Hc Hco. unfold start, bind, get, lift.
  destruct (initialize k _ _ _) as [[W0 H0]|e]; simpl.
  2:{ exists e, w. eauto. }
  unfold call_objective, bind, get. simpl. rewrite Hobj. simpl.
  unfold conn_objective, bind, get. simpl.
  destruct (linalg.argmax0 H0) as [vals idx].
  destruct (linalg.elop _ _ linalg.eq) as [c'|e]; simpl.
  - rewrite Hco, Hc. simpl. eexists _, _. split; [reflexivity|]. simpl. auto.
  - eexists _, _. split; [reflexivity|]. simpl. auto.
Qed.

(** With the objective name "conn", [_set_params] resolves the objective to
    the connectivity one, or raises on the update name; it does not touch
    the connectivity attributes. *)
Lemma set_params_conn (w : world R) :
  default (PStr "fro") (options (self w) !! "objective") = PStr "conn" →
  (∃ w', _set_params w = Returns tt w'
         ∧ objective (self w') = Some Conn
         ∧ cons (self w') = cons (self w)
         ∧ consold (self w') = consold (self w)
         ∧ trace w' = trace w)
  ∨ (∃ e w', _set_params w = Raises e w'
             ∧ cons (self w') = cons (self w)
             ∧ consold (self w') = consold (self w)
             ∧ trace w' = trace w).
Proof.
  intros Ho. unfold _set_params, bind, get, lift.
  destruct (str_add _ "_update") as [name|e]; simpl; [|right; eauto 8].
  destruct (getattr update_methods name) as [u|e]; simpl; [|right; eauto 8].
  rewrite Ho. simpl. left. eexists. split; [reflexivity|]. simpl. auto.
Qed.

(** C8, as the code has it: on an instance with neither [cons] nor
    [consold], as the class builds it, [factorize] with the objective
    "conn" completes no run, whatever [n_run] is.  It raises: the first
    evaluation of the first run takes the branch that is to rebuild
    [consold] as the complement of the new [cons], and that branch reads
    [self.cons] before any assignment.  At most the seeding of run 0 has
    taken place by then; no later run starts, and neither attribute is
    ever assigned. *)
Theorem conn_runs_never_complete fuel (w : world R) :
  cons (self w) = None → consold (self w) = None →
  default (PStr "fro") (options (self w) !! "objective") = PStr "conn" →
  ∃ e w', factorize initialize residuals callback fuel w = Raises e w'
          ∧ cons (self w') = None ∧ consold (self w') = None
          ∧ (trace w' = trace w ∨ trace w' = trace w ++ [Seeded 0%nat]).
Proof.
  intros Hc Hco Ho.
  destruct (set_params_conn w Ho)
    as [(w1 & Hsp & Hobj & Hc1 & Hco1 & Ht1)|(e & w1 & Hsp & Hc1 & Hco1 & Ht1)].
  - rewrite Hc in Hc1. rewrite Hco in Hco1.
    unfold factorize. rewrite (bind_returns _ _ _ _ _ Hsp).
    unfold bind at 1. unfold get at 1.
    destruct (Z.to_nat (n_run (self w1))) as [|n].
    + exists (UnboundLocalError "iter"), w1. split; [reflexivity|].
      rewrite Ht1. auto.
    + destruct (start_conn_raises 0 w1 Hobj Hc1 Hco1)
        as (e & w' & Hst & Hc' & Hco' & Ht').
      exists e, w'. split.
      * apply bind_raises. simpl. apply bind_raises. unfold run.
        by apply bind_raises.
      * rewrite <- Ht1. auto.
  - exists e, w1. split; [unfold factorize; by apply bind_raises|].
    rewrite Hc1, Hco1, Ht1. auto.
Qed.

End Connectivity.

(** ** The methods on the concrete instances *)

(** C1, as the code has it: on an instance with neither [cons] nor
    [consold], whose H has three columns with dominant components 0, 0 and
    1, the first evaluation of the connectivity objective does not return
    9; it raises AttributeError on [self.cons], read in
    [np.ones_like(self.cons)] before any assignment, and so does
    [factorize] right after the seeding of its first run. *)
Theorem conn_first_call_raises :
  (linalg.argmax0 (H (self conn_world))).2 = [[0; 0; 1]%nat]
  ∧ cons (self conn_world) = None ∧ consold (self conn_world) = None
  ∧ conn_objective conn_world = Raises (AttributeError "cons") conn_world
  ∧ ∃ w', factorize conn_seed no_residuals None 10 (fresh conn_instance)
          = Raises (AttributeError "cons") w'
          ∧ H (self w') = H (self conn_world)
          ∧ trace w' = [Seeded 0].
Proof.
  split; [reflexivity|]. split; [reflexivity|]. split; [reflexivity|].
  split; [vm_compute; reflexivity|].
  eexists. split; [vm_compute; reflexivity|]. split; reflexivity.
Qed.

(** Had the instance carried a 3 x 3 [cons] already, the same call would
    have returned 9, with [consold] the complement of the new [cons]. *)
Lemma conn_first_call_with_cons :
  let w := {| self := set_cons (Some (tabulate 3 3 (λ _ _, true))) (self conn_world);
              trace := [] |} in
  ∃ w', conn_objective w = Returns 9%float w'
        ∧ cons (self w')
          = Some [[true; true; false]; [true; true; false]; [false; false; true]]
        ∧ consold (self w')
          = Some [[false; false; true]; [false; false; true]; [true; true; false]].
Proof. eexists. split; [vm_compute; reflexivity|]. split; reflexivity. Qed.

(** Three runs asked of [conn_runs_instance]: the call raises in the first
    evaluation of run 0, on [self.cons], with run 0 seeded and nothing
    else done. *)
Lemma conn_runs_raise_in_first_run :
  ∃ w', factorize conn_seed no_residuals None 10 (fresh conn_runs_instance)
        = Raises (AttributeError "cons") w'
        ∧ n_run (self w') = 3
        ∧ cons (self w') = None ∧ consold (self w') = None
        ∧ trace w' = [Seeded 0%nat].
Proof.
  eexists. split; [vm_compute; reflexivity|]. by repeat split.
Qed.

Lemma conn_runs_never_complete_witness :
  ∃ e w', factorize conn_seed no_residuals None 10 (fresh conn_runs_instance)
          = Raises e w'
          ∧ cons (self w') = None ∧ consold (self w') = None
          ∧ (trace w' = [] ∨ trace w' = [] ++ [Seeded 0%nat]).
Proof.
  apply (conn_runs_never_complete conn_seed no_residuals None 10
           (fresh conn_runs_instance));
    reflexivity.
Defined.

Lemma euclidean_update_rule_witness :
  let s := self limit_world in
  let H' := tabulate 1 2 (euclidean_H 2 1 (V s) (W s) (H s)) in
  let W' := tabulate 2 1 (euclidean_W 1 2 (V s) (W s) H') in
  euclidean_update limit_world
  = Returns tt {| self := set_W W' (set_H H' s); trace := trace limit_world |}.
Proof.
  apply (euclidean_update_rule 2 1 2 limit_world);
    try lia; (split; [reflexivity | repeat constructor]).
Defined.

Lemma divergence_update_rule_witness :
  let s := self limit_world in
  let H' := tabulate 1 2 (divergence_H 2 1 (V s) (W s) (H s)) in
  let W' := tabulate 2 1 (divergence_W 1 2 (V s) (W s) H') in
  divergence_update limit_world
  = Returns tt {| self := set_W W' (set_H H' s); trace := trace limit_world |}.
Proof.
  apply (divergence_update_rule 2 1 2 limit_world);
    try lia; (split; [reflexivity | repeat constructor]).
Defined.

(** C9, counterexample: an unknown update name makes [factorize] raise
    Python's [AttributeError] on the name of the method, a number for the
    objective makes it raise [TypeError]; the two differ, and neither is
    an error class of the code's own. *)
Lemma unknown_names_raise_builtin_errors :
  factorize limit_seed no_residuals None 10 (fresh unknown_instance)
  = Raises (AttributeError "euclid_update") (fresh unknown_instance)
  ∧ (∃ w', factorize limit_seed no_residuals None 10 (fresh numbered_instance)
           = Raises TypeError w'
           ∧ trace w' = [])
  ∧ AttributeError "euclid_update" ≠ TypeError.
Proof.
  split; [vm_compute; reflexivity|]. split; [|discriminate].
  eexists. split; [vm_compute; reflexivity|]. reflexivity.
Qed.

Lemma unknown_strategy_raises_witness :
  ∃ e w',
    factorize limit_seed no_residuals None 10 (fresh unknown_instance)
    = Raises e w'
    ∧ (((∀ u, PStr "euclid" = PStr u → u ∉ ["euclidean"; "divergence"]%string)
        ∧ e = AttributeError "euclid_update")
       ∨ ((∃ u, PStr "euclid" = PStr u ∧ u ∈ ["euclidean"; "divergence"]%string)
          ∧ e = AttributeError "fro_objective"))
    ∧ trace w' = trace (fresh unknown_instance)
    ∧ W (self w') = W (self (fresh unknown_instance))
    ∧ H (self w') = H (self (fresh unknown_instance)).
Proof.
  apply (unknown_strategy_raises limit_seed no_residuals None 10
           (fresh unknown_instance)).
  left. intros u [= <-]. by apply not_elem_of_two.
Defined.

(** The run of [track_instance] ends in the AttributeError of the missing
    tracker, after the two updates of its loop, with nothing recorded. *)
Lemma track_run_raises :
  ∃ w', factorize limit_seed no_residuals None 10 (fresh track_instance)
        = Raises (AttributeError "_track_factor") w'
        ∧ tracker (self w') = None
        ∧ trace w' = [Seeded 0; Evaluated; Updated; Adjusted; Evaluated;
                      Updated; Adjusted; Evaluated].
Proof. eexists. split; [vm_compute; reflexivity|]. split; reflexivity. Qed.

Lemma factor_tracking_without_tracker_witness :
  match factorize limit_seed no_residuals None 10 (fresh track_instance) with
  | Returns _ _ => False
  | Raises _ _ => True
  | OutOfFuel => True
  end.
Proof.
  destruct (factor_tracking_without_tracker limit_seed no_residuals None 10
              (fresh track_instance)) as (_ & _ & Hnever & _);
    [reflexivity | reflexivity | reflexivity |].
  destruct (factorize limit_seed no_residuals None 10 (fresh track_instance))
    as [f w'| |] eqn:Hrun; [|exact I..].
  exact (Hnever f w' eq_refl).
Defined.

(** * Further properties of the methods *)

(** ** The stopping test at its edges *)

Section StoppingEdges.
Context {R : Type} {SR : Scalar R}.
Variable residuals : Nmf R → R.

(** X1: at iteration 0 the test of the loop fails only when [max_iter] is
    a negative number; with any other setting every run performs at least
    one update. *)
Theorem first_test_fails_iff (s : Nmf R) (p c : R) :
  _is_satisfied s p c 0 = false ↔ ∃ mx, max_iter s = Some mx ∧ mx < 0.
Proof.
  unfold _is_satisfied.
  assert (Hskip : match test_conv s with
                  | Some t => negb (t =? 0) && negb (0 `mod` t =? 0)
                  | None => false
                  end = false).
  { destruct (test_conv s) as [t|]; [|done].
    rewrite Zmod_0_l. apply andb_false_r. }
  rewrite Hskip.
  assert (Hres : match min_residuals s with
                 | Some mr =>
                     negb (reqb mr rzero) && (0 <? 0) && rleb (rsub c p) mr
                 | None => false
                 end = false).
  { destruct (min_residuals s) as [mr|]; [|done].
    by rewrite andb_false_r. }
  rewrite Hres. simpl.
  destruct (max_iter s) as [mx|].
  - destruct (mx =? 0) eqn:Hz; simpl.
    + apply Z.eqb_eq in Hz. split; [done|]. intros (mx' & [= <-] & Hneg). lia.
    + destruct (mx <=? 0) eqn:Hle.
      * apply Z.leb_le in Hle. apply Z.eqb_neq in Hz. split; [|done].
        intros _. exists mx. split; [done | lia].
      * apply Z.leb_gt in Hle. split; [done|].
        intros (mx' & [= <-] & Hneg). lia.
  - split; [done|]. by intros (mx & ? & _).
Qed.

(** With a periodic test, the loop goes on at every iteration that is not
    a multiple of the interval. *)
Lemma is_satisfied_periodic (s : Nmf R) (t : Z) p c i :
  test_conv s = Some t → t ≠ 0 → i `mod` t ≠ 0 →
  _is_satisfied s p c i = true.
Proof.
  intros Ht Hnz Hmod. unfold _is_satisfied. rewrite Ht.
  apply Z.eqb_neq in Hnz, Hmod. by rewrite Hnz, Hmod.
Qed.

(** With a periodic test and an iteration limit, the loop has left by the
    time a multiple of the interval reaches the limit. *)
Lemma iterate_within_multiple fuel (mx t j : Z) (p c : R) (i : Z) w :
  test_conv (self w) = Some t → max_iter (self w) = Some mx → mx ≠ 0 →
  j `mod` t = 0 → mx ≤ j → i ≤ j → j - i < Z.of_nat fuel →
  wp False (iterate residuals fuel p c i) w (λ r _, r.2 ≤ j).
Proof.
  revert p c i w.
  induction fuel as [|fuel IH]; intros p c i w Ht Hmx Hnz Hj Hle Hi Hfuel;
    [simpl; lia|].
  simpl. apply wp_bind, wp_get.
  destruct (_is_satisfied (self w) p c i) eqn:Hsat.
  - assert (Hlt : i < j).
    { destruct (decide (i = j)) as [->|]; [|lia].
      unfold _is_satisfied in Hsat. rewrite Ht, Hmx, Hj in Hsat.
      apply Z.eqb_neq in Hnz. apply Z.leb_le in Hle.
      rewrite Hnz, Hle in Hsat. simpl in Hsat.
      by rewrite andb_false_r in Hsat. }
    apply wp_bind. eapply wp_mono; [apply pass_effect|].
    intros c' w1 (Hc1 & _).
    destruct (config_limits _ _ Hc1) as (Hmx1 & _ & Htc1 & _).
    apply IH; [by rewrite Htc1 | by rewrite Hmx1 | done | done | done | lia | lia].
  - by apply wp_ret.
Qed.

(** X2: with a periodic test every t iterations, the loop leaves only at
    a multiple of t: an iteration limit is not looked at in between, so the
    loop may run past it, up to the first multiple of t that reaches the
    limit. *)
Theorem periodic_test_leaves_at_multiples fuel (mx t j : Z) (p c : R) w :
  test_conv (self w) = Some t → t ≠ 0 →
  max_iter (self w) = Some mx → mx ≠ 0 →
  j `mod` t = 0 → mx ≤ j → 0 ≤ j → j < Z.of_nat fuel →
  match iterate residuals fuel p c 0 w with
  | Returns (_, _, it) _ => it `mod` t = 0 ∧ 0 ≤ it ≤ j
  | Raises _ _ => True
  | OutOfFuel => False
  end.
Proof.
  intros Ht Hnz Hmx Hmnz Hj Hle Hpos Hfuel.
  pose proof (iterate_within_multiple fuel mx t j p c 0 w Ht Hmx Hmnz Hj Hle)
    as Hlim.
  pose proof (iterate_effect residuals fuel p c 0 w) as Heff.
  unfold wp in Hlim, Heff.
  destruct (iterate residuals fuel p c 0 w) as [[[p' c'] it] w'| |].
  - simpl in *. destruct Heff as (Hc & Hge & _ & Hex & _).
    destruct (config_limits _ _ Hc) as (_ & _ & Htc' & _).
    split; [|split; [done | apply Hlim; lia]].
    destruct (decide (it `mod` t = 0)) as [|Hmod]; [done|].
    rewrite (is_satisfied_periodic _ t) in Hex; [done | | done | done].
    by rewrite Htc'.
  - done.
  - apply Hlim; lia.
Qed.

End StoppingEdges.

Lemma periodic_test_leaves_at_multiples_witness :
  match iterate no_residuals 7 35.25%float 35.25%float 0 periodic_world with
  | Returns (_, _, it) _ => it `mod` 3 = 0 ∧ 0 ≤ it ≤ 6
  | Raises _ _ => True
  | OutOfFuel => False
  end.
Proof.
  apply (periodic_test_leaves_at_multiples no_residuals 7 5 3 6
           35.25%float 35.25%float periodic_world);
    (reflexivity || lia).
Defined.

(** With [max_iter = 5] and a test every third iteration, the loop of
    [periodic_world] performs six updates. *)
Lemma periodic_run_six_updates :
  ∃ p c w', iterate no_residuals 7 35.25%float 35.25%float 0 periodic_world
            = Returns (p, c, 6) w'
            ∧ updates (trace w') = 6%nat.
Proof. eexists _, _, _. split; [vm_compute; reflexivity | reflexivity]. Qed.

(** ** The stabilizer, applied again *)

Section StabilizerAgain.
Context {R : Type} {SR : Scalar R}.

Lemma max_floored (X : Matrix R) : floored X → linalg.max X eps = X.
Proof.
  unfold floored, linalg.max. intros HX.
  induction HX as [|r X Hr _ IH]; [done|]. simpl. f_equal; [|apply IH].
  induction Hr as [|x r Hx _ IHr]; [done|]. simpl. rewrite Hx. f_equal.
  apply IHr.
Qed.

(** X3: provided [eps <= eps] holds of the element type, flooring is
    idempotent, [_adjustment (_adjustment s) = _adjustment s], and an
    instance whose W and H are already at least eps everywhere is left
    exactly as it is. *)
Theorem adjustment_idempotent :
  rleb eps eps = true →
  (∀ s : Nmf R, _adjustment (_adjustment s) = _adjustment s)
  ∧ (∀ s : Nmf R, floored (W s) → floored (H s) → _adjustment s = s).
Proof.
  intros Heps. split.
  - intros s. unfold _adjustment, set_W, set_H. simpl.
    rewrite (max_floored (linalg.max (W s) eps)) by by apply floored_max.
    by rewrite (max_floored (linalg.max (H s) eps)) by by apply floored_max.
  - intros s HW HH. unfold _adjustment, set_W, set_H. simpl.
    rewrite !max_floored by done. by destruct s.
Qed.

End StabilizerAgain.

Lemma adjustment_idempotent_witness :
  _adjustment (_adjustment (set_W [[0]; [2]]%float (self limit_world)))
  = _adjustment (set_W [[0]; [2]]%float (self limit_world)).
Proof.
  destruct (adjustment_idempotent (R := float)) as [Hidem _]; [reflexivity|].
  apply Hidem.
Defined.

(** ** Strategy resolution, when it succeeds *)

Section ResolutionAgain.
Context {R : Type} {SR : Scalar R}.
Variable initialize :
  nat → Matrix R → Z → gmap string pyval → result (Matrix R * Matrix R).
Variable residuals : Nmf R → R.
Variable callback : option (Mf_fit R → result unit).

Lemma set_params_returns (w : world R) (u o : string) :
  default (PStr "euclidean") (options (self w) !! "update") = PStr u →
  default (PStr "fro") (options (self w) !! "objective") = PStr o →
  u ∈ ["euclidean"; "divergence"]%string → o ∈ ["fro"; "div"; "conn"]%string →
  ∃ w', _set_params w = Returns tt w'
        ∧ update (self w') = assoc (u +:+ "_update") update_methods
        ∧ objective (self w') = assoc (o +:+ "_objective") objective_methods
        ∧ is_Some (update (self w')) ∧ is_Some (objective (self w')).
Proof.
  intros Hu Ho Huin Hoin.
  assert (Hgu : ∃ ur, getattr update_methods (u +:+ "_update") = Ok ur
                      ∧ assoc (u +:+ "_update") update_methods = Some ur).
  { unfold getattr.
    repeat (apply elem_of_cons in Huin as [->|Huin]; [by eexists|]).
    by apply elem_of_nil in Huin. }
  assert (Hgo : ∃ or, getattr objective_methods (o +:+ "_objective") = Ok or
                      ∧ assoc (o +:+ "_objective") objective_methods = Some or).
  { unfold getattr.
    repeat (apply elem_of_cons in Hoin as [->|Hoin]; [by eexists|]).
    by apply elem_of_nil in Hoin. }
  destruct Hgu as (ur & Hgu & Hau). destruct Hgo as (or & Hgo & Hao).
  rewrite Hau, Hao.
  unfold _set_params, bind, get. rewrite Hu. simpl. rewrite Hgu. simpl.
  rewrite Ho. simpl. rewrite Hgo. simpl.
  eexists. split; [reflexivity|]. simpl. eauto.
Qed.

(** X4: [_set_params] returns exactly when the options give, as strings
    (or by default, "euclidean" and "fro" when the keys are missing), an
    update name among "euclidean", "divergence" and an objective name among
    "fro", "div", "conn"; any other value, a wrong name or a value that is
    not a string, makes it raise. *)
Theorem set_params_returns_iff (w : world R) :
  (∃ w', _set_params w = Returns tt w')
  ↔ ∃ u o,
      default (PStr "euclidean") (options (self w) !! "update") = PStr u
      ∧ default (PStr "fro") (options (self w) !! "objective") = PStr o
      ∧ u ∈ ["euclidean"; "divergence"]%string
      ∧ o ∈ ["fro"; "div"; "conn"]%string.
Proof.
  split.
  - intros [w' Hret].
    destruct (default (PStr "euclidean") (options (self w) !! "update"))
      as [| | |u] eqn:Hu;
      try (unfold _set_params, bind, get in Hret; rewrite Hu in Hret; done).
    destruct (default (PStr "fro") (options (self w) !! "objective"))
      as [| | |o] eqn:Ho.
    1-3: unfold _set_params, bind, get in Hret; rewrite Hu in Hret;
         simpl in Hret;
         destruct (getattr update_methods (u +:+ "_update")); simpl in Hret;
         [rewrite Ho in Hret|]; done.
    exists u, o. split; [done|]. split; [done|].
    destruct (decide (u ∈ ["euclidean"; "divergence"]%string)) as [Huin|Hunot].
    + split; [done|].
      destruct (decide (o ∈ ["fro"; "div"; "conn"]%string)) as [|Honot]; [done|].
      destruct (set_params_raises w u o Hu Ho (or_intror Honot))
        as (name & w'' & Hraise & _). congruence.
    + destruct (set_params_raises w u o Hu Ho (or_introl Hunot))
        as (name & w'' & Hraise & _). congruence.
  - intros (u & o & Hu & Ho & Huin & Hoin).
    destruct (set_params_returns w u o Hu Ho Huin Hoin) as (w' & Hret & _).
    by exists w'.
Qed.

(** X5: with [n_run] zero or negative no run takes place, and once the
    strategies are resolved [factorize] raises UnboundLocalError on [iter],
    read after the [for] loop without ever being assigned; nothing has been
    seeded. *)
Theorem no_run_raises (fuel : nat) (w w1 : world R) :
  n_run (self w) ≤ 0 →
  _set_params w = Returns tt w1 →
  factorize initialize residuals callback fuel w
  = Raises (UnboundLocalError "iter") w1
  ∧ trace w1 = trace w.
Proof.
  intros Hn Hsp.
  pose proof (wp_returns True _ _ _ _ _ (set_params_effect True w) Hsp)
    as (Ht & Hn1 & _).
  split; [|done].
  unfold factorize. rewrite (bind_returns _ _ _ _ _ Hsp).
  unfold bind at 1. unfold get at 1. rewrite Hn1.
  destruct (n_run (self w)) as [|pos|neg]; [done | lia | done].
Qed.

End ResolutionAgain.

Lemma no_run_raises_witness :
  ∃ w1,
    factorize limit_seed no_residuals None 10 (fresh idle_instance)
    = Raises (UnboundLocalError "iter") w1
    ∧ trace w1 = trace (fresh idle_instance).
Proof.
  eexists.
  apply (no_run_raises limit_seed no_residuals None 10 (fresh idle_instance)).
  - vm_compute. discriminate.
  - vm_compute. reflexivity.
Defined.

(** ** One pass of the loop, in detail *)

Section PassFacts.
Context {R : Type} {SR : Scalar R}.
Variable residuals : Nmf R → R.
Variable F : Prop.

Lemma evaluations_snoc t e :
  evaluations (t ++ [e])
  = (evaluations t + (if decide (e = Evaluated) then 1 else 0))%nat.
Proof.
  unfold evaluations. rewrite filter_app, length_app. f_equal.
  rewrite filter_cons, filter_nil. by case_decide.
Qed.

Lemma evaluations_other t e :
  e ≠ Evaluated → evaluations (t ++ [e]) = evaluations t.
Proof. intros He. rewrite evaluations_snoc. case_decide; [done | lia]. Qed.

Lemma track_error_exact (w : world R) :
  wp F (_track_error residuals) w
     (λ _ w', ∃ t, tracker (self w) = Some t
                   ∧ self w'
                     = set_tracker
                         (Some {| errors := errors t ++ [residuals (self w)];
                                  factors := factors t |})
                         (self w)
                   ∧ trace w' = trace w ++ [ErrorTracked]).
Proof.
  unfold _track_error.
  apply wp_bind, wp_get, wp_bind, wp_attribute. intros t Ht.
  apply wp_bind, wp_modify, wp_emit. eauto.
Qed.

(** What a pass does about the objective and about the tracker. *)
Lemma pass_detail (c : R) (i : Z) (w : world R) :
  wp F (pass residuals c i) w
     (λ c' w',
        (negb (truthy_int (test_conv (self w)))
         || (i `mod` default 0 (test_conv (self w)) =? 0) = false →
         c' = c ∧ evaluations (trace w') = evaluations (trace w)
         ∧ cons (self w') = cons (self w)
         ∧ consold (self w') = consold (self w))
        ∧ (negb (truthy_int (test_conv (self w)))
           || (i `mod` default 0 (test_conv (self w)) =? 0) = true →
           evaluations (trace w') = S (evaluations (trace w)))
        ∧ (truthy (track_error (self w)) = false →
           tracker (self w') = tracker (self w))
        ∧ (truthy (track_error (self w)) = true →
           ∃ t s3, tracker (self w) = Some t
                   ∧ tracker (self w')
                     = Some {| errors := errors t ++ [residuals s3];
                               factors := factors t |}
                   ∧ self w' = set_tracker (tracker (self w')) s3)).
Proof.
  unfold pass. apply wp_bind.
  eapply wp_mono; [apply call_update_effect|].
  intros _ w1 (h & x & Hs1 & Ht1).
  apply wp_bind, wp_modify, wp_bind, wp_emit, wp_bind, wp_get. simpl.
  set (w2 := {| self := _adjustment (self w1); trace := trace w1 ++ [Adjusted] |}).
  assert (Hbase : test_conv (self w2) = test_conv (self w)
                  ∧ track_error (self w2) = track_error (self w)
                  ∧ tracker (self w2) = tracker (self w)
                  ∧ cons (self w2) = cons (self w)
                  ∧ consold (self w2) = consold (self w)
                  ∧ evaluations (trace w2) = evaluations (trace w)).
  { unfold w2. simpl. rewrite Hs1, Ht1. simpl. repeat split.
    rewrite !evaluations_snoc. repeat case_decide; try done. lia. }
  destruct Hbase as (Htc2 & Hte2 & Htr2 & Hco2 & Hcold2 & Hev2).
  change (test_conv (self w1)) with (test_conv (self w2)). rewrite Htc2.
  apply wp_bind.
  apply (wp_mono _ _ _
    (λ c' w3,
       track_error (self w3) = track_error (self w)
       ∧ tracker (self w3) = tracker (self w)
       ∧ (negb (truthy_int (test_conv (self w)))
          || (i `mod` default 0 (test_conv (self w)) =? 0) = false →
          c' = c ∧ evaluations (trace w3) = evaluations (trace w)
          ∧ cons (self w3) = cons (self w)
          ∧ consold (self w3) = consold (self w))
       ∧ (negb (truthy_int (test_conv (self w)))
          || (i `mod` default 0 (test_conv (self w)) =? 0) = true →
          evaluations (trace w3) = S (evaluations (trace w))))).
  { destruct (negb (truthy_int (test_conv (self w)))
              || (i `mod` default 0 (test_conv (self w)) =? 0)).
    - eapply wp_mono; [apply call_objective_effect|].
      intros v w3 (Hc & _ & _ & Htr & _ & _ & _ & Ht3).
      destruct (config_limits _ _ Hc) as (_ & _ & _ & _ & Hte3 & _).
      split; [by rewrite Hte3|]. split; [by rewrite Htr|]. split; [done|].
      intros _. rewrite Ht3, evaluations_snoc, Hev2. case_decide; [|done]. lia.
    - apply wp_ret. split; [done|]. split; [done|]. by split. }
  intros c' w3 (Hte3 & Htr3 & Hskip & Heval).
  apply wp_bind, wp_get, wp_bind. rewrite Hte3.
  destruct (truthy (track_error (self w))) eqn:Hte.
  - eapply wp_mono; [apply track_error_exact|].
    intros _ w4 (t & Ht & Hs4 & Ht4). apply wp_ret.
    split.
    { intros Hno. destruct (Hskip Hno) as (-> & Hev & Hco & Hcold).
      rewrite Hs4, Ht4, evaluations_other by done. simpl. by repeat split. }
    split.
    { intros Hyes. rewrite Ht4, evaluations_other by done. by apply Heval. }
    split; [done|]. intros _. exists t, (self w3).
    split; [by rewrite <- Htr3|]. rewrite Hs4. simpl. by split.
  - apply wp_ret. split; [done|]. split; [done|]. split; [done | done].
Qed.

End PassFacts.

Section PassTheorems.
Context {R : Type} {SR : Scalar R}.
Variable residuals : Nmf R → R.

(** X6: when a periodic test is configured and the iteration is not a
    multiple of the interval, a pass of the loop does not evaluate the
    objective: [cobj] keeps its value, and [cons] and [consold] are not
    touched. *)
Theorem pass_skips_evaluation (t : Z) (c : R) (i : Z) (w : world R) :
  test_conv (self w) = Some t → t ≠ 0 → i `mod` t ≠ 0 →
  wp True (pass residuals c i) w
     (λ c' w', c' = c ∧ evaluations (trace w') = evaluations (trace w)
               ∧ cons (self w') = cons (self w)
               ∧ consold (self w') = consold (self w)).
Proof.
  intros Ht Hnz Hmod. eapply wp_mono; [apply pass_detail|].
  intros c' w' (Hskip & _). apply Hskip. rewrite Ht. simpl.
  apply Z.eqb_neq in Hnz, Hmod. by rewrite Hnz, Hmod.
Qed.

Lemma wp_conj {A} F (m : M R A) w (Q1 Q2 : A → world R → Prop) :
  wp F m w Q1 → wp F m w Q2 → wp F m w (λ a w', Q1 a w' ∧ Q2 a w').
Proof. unfold wp. destruct (m w); auto. Qed.

(** X7: with error tracking on and a tracker present, the loop hands the
    tracker exactly one residual per update step and no factors: when it
    leaves at iteration [it], having started at [i], the tracker holds
    [it - i] more residuals than before. *)
Theorem iterate_tracks_errors fuel (p c : R) (i : Z) (w : world R) t :
  truthy (track_error (self w)) = true → tracker (self w) = Some t →
  wp True (iterate residuals fuel p c i) w
     (λ r w', ∃ t', tracker (self w') = Some t'
                    ∧ length (errors t')
                      = (length (errors t) + Z.to_nat (r.2 - i))%nat
                    ∧ factors t' = factors t).
Proof.
  revert p c i w t.
  induction fuel as [|fuel IH]; intros p c i w t Hte Htr; [done|].
  simpl. apply wp_bind, wp_get.
  destruct (_is_satisfied (self w) p c i) eqn:Hsat.
  - apply wp_bind.
    eapply wp_mono;
      [apply (wp_conj _ _ _ _ _ (pass_effect residuals True c i w)
                (pass_detail residuals True c i w))|].
    intros c' w1 [(Hc1 & _) (_ & _ & _ & Htrack)].
    destruct (Htrack Hte) as (t0 & s3 & Ht0 & Ht1 & _).
    rewrite Htr in Ht0. injection Ht0 as <-.
    destruct (config_limits _ _ Hc1) as (_ & _ & _ & _ & Hte1 & _).
    rewrite <- Hte1 in Hte.
    eapply wp_mono;
      [apply (wp_conj _ _ _ _ _ (IH c c' (i + 1) w1 _ Hte Ht1)
                (iterate_effect residuals fuel c c' (i + 1) w1))|].
    intros r w' [(t' & Ht' & Hlen & Hfac) (_ & Hle & _)].
    exists t'. split; [done|]. simpl in Hlen, Hfac. split; [|done].
    rewrite Hlen, length_app. simpl. lia.
  - apply wp_ret. exists t. simpl. rewrite Z.sub_diag. simpl.
    split; [done|]. split; [lia | done].
Qed.

End PassTheorems.

Lemma pass_skips_evaluation_witness :
  wp True (pass no_residuals 35.25%float 1) periodic_world
     (λ c' w', c' = 35.25%float
               ∧ evaluations (trace w') = evaluations (trace periodic_world)
               ∧ cons (self w') = cons (self periodic_world)
               ∧ consold (self w') = consold (self periodic_world)).
Proof.
  apply (pass_skips_evaluation no_residuals 3 35.25%float 1 periodic_world);
    [reflexivity | lia | vm_compute; discriminate].
Defined.

Lemma iterate_tracks_errors_witness :
  wp True (iterate no_residuals 6 35.25%float 35.25%float 0) error_world
     (λ r w', ∃ t', tracker (self w') = Some t'
                    ∧ length (errors t')
                      = (length (@nil float) + Z.to_nat (r.2 - 0))%nat
                    ∧ factors t' = []).
Proof.
  apply (iterate_tracks_errors no_residuals 6 35.25%float 35.25%float 0
           error_world {| errors := []; factors := [] |});
    reflexivity.
Defined.

(** ** The objective functions *)

Section Objectives.
Context {R : Type} {SR : Scalar R}.

Lemma sum_tabulate m n (f : nat → nat → R) :
  linalg.sum (tabulate m n f) = bigsum2 m n f.
Proof.
  unfold linalg.sum, linalg.sumlist, bigsum2, tabulate.
  generalize rzero. generalize (seq 0 m). intros l.
  induction l as [|i l IH]; intros a; [done|]. simpl.
  rewrite foldl_app, IH. f_equal.
  generalize a. generalize (seq 0 n). intros l'.
  induction l' as [|j l' IH']; intros a'; [done|]. simpl. apply IH'.
Qed.

Lemma sop_tabulate {S} m n (f : nat → nat → R) (s : S) (op : R → S → R) :
  linalg.sop (tabulate m n f) s op = tabulate m n (λ i j, op (f i j) s).
Proof.
  unfold linalg.sop, tabulate. rewrite <- list_fmap_compose.
  apply list_fmap_ext. intros _ i _. simpl. by rewrite <- list_fmap_compose.
Qed.

Lemma sop1_tabulate m n (f : nat → nat → R) (op : R → R) :
  linalg.sop1 (tabulate m n f) op = tabulate m n (λ i j, op (f i j)).
Proof.
  unfold linalg.sop1, tabulate. rewrite <- list_fmap_compose.
  apply list_fmap_ext. intros _ i _. simpl. by rewrite <- list_fmap_compose.
Qed.

(** X8: on factors of matching shapes (V of m x n, W of m x r, H of
    r x n, m and r positive) [fro_objective] returns the sum over all
    elements of (V - W·H) squared and leaves the instance as it is. *)
Theorem fro_objective_value (m r n : nat) (w : world R) :
  (0 < m)%nat → (0 < r)%nat → well_shaped m r n (self w) →
  fro_objective w
  = Returns (fro_value m r n (V (self w)) (W (self w)) (H (self w))) w.
Proof.
  intros Hm Hr (HV & HW & HH). unfold fro_objective, bind, get.
  set (v := fro_value m r n (V (self w)) (W (self w)) (H (self w))).
  rewrite (wf_at m n _ HV), (wf_at m r _ HW), (wf_at r n _ HH).
  rewrite dot_tabulate by done. simpl. unfold linalg.msub.
  rewrite elop_tabulate. simpl. by rewrite sop_tabulate, sum_tabulate.
Qed.

(** X9: on factors of matching shapes [div_objective] returns the sum
    over all elements of V·log(V / (W·H)) - V + W·H and leaves the instance
    as it is. *)
Theorem div_objective_value (m r n : nat) (w : world R) :
  (0 < m)%nat → (0 < r)%nat → well_shaped m r n (self w) →
  div_objective w
  = Returns (div_value m r n (V (self w)) (W (self w)) (H (self w))) w.
Proof.
  intros Hm Hr (HV & HW & HH). unfold div_objective, bind, get.
  set (v := div_value m r n (V (self w)) (W (self w)) (H (self w))).
  rewrite (wf_at m n _ HV), (wf_at m r _ HW), (wf_at r n _ HH).
  rewrite dot_tabulate by done. simpl.
  rewrite elop_tabulate. simpl. rewrite sop1_tabulate.
  unfold linalg.multiply. rewrite elop_tabulate. simpl. unfold linalg.msub.
  rewrite elop_tabulate. simpl. unfold linalg.madd.
  rewrite elop_tabulate. simpl. by rewrite sum_tabulate.
Qed.

End Objectives.

Lemma limit_world_shaped : well_shaped 2 1 2 (self limit_world).
Proof. repeat split; repeat constructor. Qed.

Lemma fro_objective_value_witness :
  fro_objective limit_world
  = Returns (fro_value 2 1 2 (V (self limit_world)) (W (self limit_world))
               (H (self limit_world))) limit_world.
Proof.
  apply (fro_objective_value 2 1 2 limit_world);
    [lia | lia | exact limit_world_shaped].
Defined.

Lemma div_objective_value_witness :
  div_objective limit_world
  = Returns (div_value 2 1 2 (V (self limit_world)) (W (self limit_world))
               (H (self limit_world))) limit_world.
Proof.
  apply (div_objective_value 2 1 2 limit_world);
    [lia | lia | exact limit_world_shaped].
Defined.

(** The Frobenius objective of the seed of [limit_world] is 35.25. *)
Lemma limit_world_objective :
  fro_value 2 1 2 (V (self limit_world)) (W (self limit_world))
    (H (self limit_world)) = 35.25%float.
Proof. reflexivity. Qed.

(** ** Runs that return *)

Section Total.
Context {R : Type} {SR : Scalar R}.
Variable residuals : Nmf R → R.

Lemma returns_bind {A B} (m : M R A) (k : A → M R B) w (Q : B → world R → Prop) :
  returns m w (λ a w', returns (k a) w' Q) → returns (bind m k) w Q.
Proof.
  intros (a & w' & Hm & b & w'' & Hk & HQ). exists b, w''. split; [|done].
  unfold bind. by rewrite Hm.
Qed.

Lemma returns_mono {A} (m : M R A) w (Q Q' : A → world R → Prop) :
  returns m w Q → (∀ a w', Q a w' → Q' a w') → returns m w Q'.
Proof. intros (a & w' & Hm & HQ) Himp. exists a, w'. auto. Qed.

Lemma returns_ret {A} (a : A) w (Q : A → world R → Prop) :
  Q a w → returns (ret a) w Q.
Proof. intros HQ. by exists a, w. Qed.

Lemma returns_get w (Q : Nmf R → world R → Prop) :
  Q (self w) w → returns get w Q.
Proof. intros HQ. by exists (self w), w. Qed.

Lemma returns_modify f w (Q : unit → world R → Prop) :
  Q tt {| self := f (self w); trace := trace w |} → returns (modify f) w Q.
Proof. intros HQ. by eexists tt, _. Qed.

Lemma returns_emit e w (Q : unit → world R → Prop) :
  Q tt {| self := self w; trace := trace w ++ [e] |} → returns (emit e) w Q.
Proof. intros HQ. by eexists tt, _. Qed.

Lemma returns_lift {A} (r : result A) a w (Q : A → world R → Prop) :
  r = Ok a → Q a w → returns (lift r) w Q.
Proof. intros -> HQ. by exists a, w. Qed.

Lemma returns_attribute {A} name (o : option A) a w (Q : A → world R → Prop) :
  o = Some a → Q a w → returns (attribute name o) w Q.
Proof. intros -> HQ. by exists a, w. Qed.

Lemma wf_max m n (X : Matrix R) (e : R) : wf m n X → wf m n (linalg.max X e).
Proof.
  intros [Hm Hn]. split.
  - unfold linalg.max. by rewrite length_fmap.
  - unfold linalg.max. apply Forall_fmap. eapply Forall_impl; [exact Hn|].
    intros r Hr. simpl. by rewrite length_fmap.
Qed.

(** On factors of the right shapes both updates return, and the new
    factors have the shapes of the old. *)
Lemma update_returns (u : update_rule) m r n (w : world R) :
  (0 < m)%nat → (0 < r)%nat → (0 < n)%nat → well_shaped m r n (self w) →
  returns (match u with
           | Euclidean => euclidean_update
           | Divergence => divergence_update
           end) w
    (λ _ w', ∃ h x, self w' = set_W x (set_H h (self w))
                    ∧ wf r n h ∧ wf m r x ∧ trace w' = trace w).
Proof.
  intros Hm Hr Hn (HV & HW & HH). destruct u.
  - unfold euclidean_update. apply returns_bind, returns_get.
    eapply returns_bind, returns_lift; [by apply (euclidean_H_step m r n)|].
    apply returns_bind, returns_modify, returns_bind, returns_get.
    eapply returns_bind, returns_lift;
      [by apply (euclidean_W_step m r n); simpl; try apply tabulate_wf|].
    apply returns_modify. eexists _, _. split; [reflexivity|].
    split; [apply tabulate_wf|]. split; [apply tabulate_wf | done].
  - unfold divergence_update. apply returns_bind, returns_get.
    eapply returns_bind, returns_lift; [by apply (divergence_H_step m r n)|].
    apply returns_bind, returns_modify, returns_bind, returns_get.
    eapply returns_bind, returns_lift;
      [by apply (divergence_W_step m r n); simpl; try apply tabulate_wf|].
    apply returns_modify. eexists _, _. split; [reflexivity|].
    split; [apply tabulate_wf|]. split; [apply tabulate_wf | done].
Qed.

Lemma call_update_returns m r n (w : world R) :
  (0 < m)%nat → (0 < r)%nat → (0 < n)%nat → well_shaped m r n (self w) →
  is_Some (update (self w)) →
  returns call_update w
    (λ _ w', ∃ h x, self w' = set_W x (set_H h (self w))
                    ∧ wf r n h ∧ wf m r x).
Proof.
  intros Hm Hr Hn Hshape [u Hu]. unfold call_update.
  apply returns_bind, returns_get.
  eapply returns_bind, returns_attribute; [exact Hu|].
  apply returns_bind.
  eapply returns_mono; [by apply (update_returns u m r n)|].
  intros _ w' (h & x & Hs & Hh & Hx & _). apply returns_emit.
  by exists h, x.
Qed.

Lemma fro_objective_computes (m r n : nat) (w : world R) :
  (0 < m)%nat → (0 < r)%nat → well_shaped m r n (self w) →
  ∃ v, fro_objective w = Returns v w.
Proof.
  intros Hm Hr (HV & HW & HH). unfold fro_objective, bind, get.
  rewrite (wf_at m n _ HV), (wf_at m r _ HW), (wf_at r n _ HH).
  rewrite dot_tabulate by done. simpl. unfold linalg.msub.
  rewrite elop_tabulate. simpl. by eexists.
Qed.

Lemma div_objective_computes (m r n : nat) (w : world R) :
  (0 < m)%nat → (0 < r)%nat → well_shaped m r n (self w) →
  ∃ v, div_objective w = Returns v w.
Proof.
  intros Hm Hr (HV & HW & HH). unfold div_objective, bind, get.
  rewrite (wf_at m n _ HV), (wf_at m r _ HW), (wf_at r n _ HH).
  rewrite dot_tabulate by done. simpl.
  rewrite elop_tabulate. simpl. rewrite sop1_tabulate.
  unfold linalg.multiply. rewrite elop_tabulate. simpl. unfold linalg.msub.
  rewrite elop_tabulate. simpl. unfold linalg.madd.
  rewrite elop_tabulate. simpl. by eexists.
Qed.

(** On factors of the right shapes the Frobenius and the divergence
    objectives return and leave the instance as it is. *)
Lemma call_objective_returns m r n (w : world R) :
  (0 < m)%nat → (0 < r)%nat → well_shaped m r n (self w) →
  objective (self w) = Some Fro ∨ objective (self w) = Some Div →
  returns call_objective w
    (λ _ w', self w' = self w ∧ trace w' = trace w ++ [Evaluated]).
Proof.
  intros Hm Hr Hshape Hobj. unfold call_objective.
  apply returns_bind, returns_get.
  destruct Hobj as [Hobj|Hobj]; rewrite Hobj; simpl;
    apply returns_bind, returns_ret, returns_bind.
  - destruct (fro_objective_computes m r n w Hm Hr Hshape) as [v Hv].
    exists v, w. split; [done|].
    by apply returns_bind, returns_emit, returns_ret.
  - destruct (div_objective_computes m r n w Hm Hr Hshape) as [v Hv].
    exists v, w. split; [done|].
    by apply returns_bind, returns_emit, returns_ret.
Qed.

End Total.

Section TotalLoop.
Context {R : Type} {SR : Scalar R}.
Variable residuals : Nmf R → R.

(** A pass of the loop on a ready instance returns and leaves it ready. *)
Lemma pass_returns m r n mx (c : R) (i : Z) (w : world R) :
  (0 < m)%nat → (0 < r)%nat → (0 < n)%nat → ready m r n mx (self w) →
  returns (pass residuals c i) w
    (λ _ w', ready m r n mx (self w')
             ∧ (is_Some (tracker (self w)) → is_Some (tracker (self w')))).
Proof.
  intros Hm Hr Hn ((HV & HW & HH) & Hu & Hobj & Hmx & Htc & Hte).
  unfold pass. apply returns_bind.
  eapply returns_mono; [by apply (call_update_returns m r n)|].
  intros _ w1 (h & x & Hs1 & Hh & Hx).
  apply returns_bind, returns_modify, returns_bind, returns_emit.
  apply returns_bind, returns_get. simpl. rewrite Hs1. simpl.
  assert (Hshape2 : well_shaped m r n (_adjustment (set_W x (set_H h (self w))))).
  { split; [done|]. split; simpl; by apply wf_max. }
  apply returns_bind.
  apply (returns_mono _ _
           (λ _ w3, self w3 = _adjustment (set_W x (set_H h (self w))))).
  { match goal with |- context [if ?b then _ else _] => destruct b end.
    - eapply returns_mono;
        [by apply (call_objective_returns m r n)|].
      by intros v w3 [Hs3 _].
    - by apply returns_ret. }
  intros c' w3 Hs3. apply returns_bind, returns_get. rewrite Hs3. simpl.
  apply returns_bind.
  apply (returns_mono _ _
           (λ _ w4, self w4 = self w3
                    ∨ ∃ t', self w4 = set_tracker (Some t') (self w3))).
  { destruct (truthy (track_error (self w))) eqn:Hte'.
    - destruct (Hte eq_refl) as [t Ht]. unfold _track_error.
      apply returns_bind, returns_get.
      eapply returns_bind, returns_attribute; [by rewrite Hs3|].
      apply returns_bind, returns_modify, returns_emit. right. eauto.
    - apply returns_ret. by left. }
  intros _ w4 Hs4. apply returns_ret.
  destruct Hs4 as [->|(t' & ->)]; rewrite Hs3; simpl.
  - split; [|done]. split; [done|]. by repeat split.
  - split; [|by eauto]. split; [done|]. by repeat split.
Qed.

(** With an iteration limit, no periodic test and fuel beyond the limit,
    the loop on a ready instance returns, within the limit. *)
Lemma iterate_returns fuel m r n mx (p c : R) (i : Z) (w : world R) :
  (0 < m)%nat → (0 < r)%nat → (0 < n)%nat → ready m r n mx (self w) →
  mx ≠ 0 → i ≤ mx → mx - i < Z.of_nat fuel →
  returns (iterate residuals fuel p c i) w
    (λ res w', ready m r n mx (self w')
               ∧ (is_Some (tracker (self w)) → is_Some (tracker (self w')))
               ∧ i ≤ res.2 ≤ mx
               ∧ _is_satisfied (self w') res.1.1 res.1.2 res.2 = false).
Proof.
  intros Hm Hr Hn. revert p c i w.
  induction fuel as [|fuel IH]; intros p c i w Hready Hnz Hle Hfuel; [lia|].
  simpl. apply returns_bind, returns_get.
  destruct (_is_satisfied (self w) p c i) eqn:Hsat.
  - destruct Hready as (Hshape & Hu & Hobj & Hmx & Htc & Hte).
    pose proof (is_satisfied_below_limit _ _ _ _ _ Hmx Hnz Htc Hsat) as Hlt.
    apply returns_bind.
    eapply returns_mono; [by apply (pass_returns m r n mx)|].
    intros c' w1 [Hready1 Htr1].
    eapply returns_mono; [apply IH; [done | done | lia | lia]|].
    intros res w' (Hready' & Htr' & Hbound & Hexit).
    split; [done|]. split; [auto|]. split; [lia | done].
  - apply returns_ret. split; [done|]. split; [done|]. split; [simpl; lia | done].
Qed.

End TotalLoop.

Section TotalRuns.
Context {R : Type} {SR : Scalar R}.
Variable initialize :
  nat → Matrix R → Z → gmap string pyval → result (Matrix R * Matrix R).
Variable residuals : Nmf R → R.
Variable callback : option (Mf_fit R → result unit).

Lemma config_all (s s' : Nmf R) :
  config s' = config s →
  V s' = V s ∧ rank s' = rank s ∧ options s' = options s
  ∧ update s' = update s ∧ objective s' = objective s
  ∧ max_iter s' = max_iter s ∧ test_conv s' = test_conv s
  ∧ track_factor s' = track_factor s ∧ track_error s' = track_error s.
Proof. unfold config. intros Hc. injection Hc. intros. by repeat split. Qed.

Lemma notify_returns (c : R) (w : world R) :
  (∀ cb f, callback = Some cb → cb f = Ok tt) →
  ∃ w', notify callback c w = Returns tt w'
        ∧ config (self w') = config (self w)
        ∧ W (self w') = W (self w) ∧ H (self w') = H (self w)
        ∧ tracker (self w') = tracker (self w).
Proof.
  intros Hcb. unfold notify. destruct callback as [cb|] eqn:Hc.
  - unfold bind, modify, get. simpl. rewrite (Hcb cb _ eq_refl). simpl.
    eexists. split; [reflexivity|]. by repeat split.
  - eexists. split; [reflexivity|]. by repeat split.
Qed.

Lemma record_factors_returns (w : world R) :
  (truthy (track_factor (self w)) = true → is_Some (tracker (self w))) →
  ∃ w', record_factors w = Returns tt w'
        ∧ config (self w') = config (self w)
        ∧ W (self w') = W (self w) ∧ H (self w') = H (self w)
        ∧ (is_Some (tracker (self w)) → is_Some (tracker (self w'))).
Proof.
  intros Htf. unfold record_factors, bind, get.
  destruct (truthy (track_factor (self w))) eqn:Htruthy.
  - destruct (Htf eq_refl) as [t Ht]. unfold _track_factor, bind, get.
    rewrite Ht. simpl. eexists. split; [reflexivity|]. simpl.
    by repeat split.
  - eexists. split; [reflexivity|]. by repeat split.
Qed.

(** A run on a prepared instance with good seeds returns, after at least
    one and at most [mx] updates, and leaves the instance prepared. *)
Lemma run_returns fuel k m r n mx (w : world R) :
  (0 < m)%nat → (0 < r)%nat → (0 < n)%nat →
  prepared m n mx (self w) → seeds_well initialize m r n (self w) →
  (∀ cb f, callback = Some cb → cb f = Ok tt) →
  0 < mx → mx < Z.of_nat fuel →
  ∃ c it w', run initialize residuals callback fuel k w = Returns (c, it) w'
             ∧ prepared m n mx (self w')
             ∧ seeds_well initialize m r n (self w')
             ∧ well_shaped m r n (self w')
             ∧ 1 ≤ it ≤ mx.
Proof.
  intros Hm Hr Hn (HV & Hu & Hobj & Hmx & Htc & Hte & Htf) Hseeds Hcb Hpos Hfuel.
  destruct (Hseeds k) as (W0 & H0 & Hinit & HW0 & HH0).
  assert (Hstart : ∃ c0 w1, start initialize k w = Returns c0 w1
                            ∧ self w1 = set_H H0 (set_W W0 (self w))).
  { unfold start. unfold bind at 1. unfold get at 1. rewrite Hinit.
    unfold bind at 1. simpl. unfold bind at 1. unfold modify at 1.
    unfold bind at 1. unfold modify at 1. unfold bind at 1. unfold emit at 1.
    simpl.
    destruct (call_objective_returns m r n
                {| self := set_H H0 (set_W W0 (self w));
                   trace := trace w ++ [Seeded k] |})
      as (c0 & w1 & Hobj1 & Hs1 & _); try done.
    exists c0, w1. split; [exact Hobj1 | exact Hs1]. }
  destruct Hstart as (c0 & w1 & Hstart & Hs1).
  assert (Hready1 : ready m r n mx (self w1)).
  { rewrite Hs1. split; [by split|]. simpl.
    split; [done|]. split; [done|]. split; [done|]. by split. }
  destruct (iterate_returns residuals fuel m r n mx c0 c0 0 w1)
    as ([[p c] it] & w2 & Hiter & Hready2 & Htr2 & Hbound & Hexit);
    try done; try lia.
  simpl in Hbound, Hexit.
  pose proof (wp_returns True _ _ _ _ _ (iterate_effect residuals fuel c0 c0 0 w1) Hiter)
    as (Hc2 & _).
  destruct (notify_returns c w2 Hcb) as (w3 & Hnot & Hc3 & HW3 & HH3 & Htr3).
  destruct (config_all _ _ Hc2)
    as (HV2 & Hrk2 & Hop2 & Hu2 & Hobj2 & Hmx2 & Htc2 & Htf2 & Hte2).
  destruct (config_all _ _ Hc3)
    as (HV3 & Hrk3 & Hop3 & Hu3 & Hobj3 & Hmx3 & Htc3 & Htf3 & Hte3).
  assert (Htrk3 : is_Some (tracker (self w)) → is_Some (tracker (self w3))).
  { intros Hsome. rewrite Htr3. apply Htr2. by rewrite Hs1. }
  assert (Htfw : track_factor (self w3) = track_factor (self w)).
  { by rewrite Htf3, Htf2, Hs1. }
  assert (Htew : track_error (self w3) = track_error (self w)).
  { by rewrite Hte3, Hte2, Hs1. }
  destruct (record_factors_returns w3)
    as (w4 & Hrec & Hc4 & HW4 & HH4 & Htr4).
  { rewrite Htfw. intros Htruthy. by apply Htrk3, Htf. }
  destruct (config_all _ _ Hc4)
    as (HV4 & Hrk4 & Hop4 & Hu4 & Hobj4 & Hmx4 & Htc4 & Htf4 & Hte4).
  exists c, it, w4. split.
  { unfold run. rewrite (bind_returns _ _ _ _ _ Hstart).
    rewrite (bind_returns _ _ _ _ _ Hiter). simpl.
    rewrite (bind_returns _ _ _ _ _ Hnot).
    by rewrite (bind_returns _ _ _ _ _ Hrec). }
  assert (HVw : V (self w4) = V (self w)) by by rewrite HV4, HV3, HV2, Hs1.
  split.
  { split; [by rewrite HVw|].
    split; [by rewrite Hu4, Hu3, Hu2, Hs1|].
    split; [by rewrite Hobj4, Hobj3, Hobj2, Hs1|].
    split; [by rewrite Hmx4, Hmx3, Hmx2, Hs1|].
    split; [by rewrite Htc4, Htc3, Htc2, Hs1|].
    split.
    - rewrite Hte4, Htew. intros Htruthy. by apply Htr4, Htrk3, Hte.
    - rewrite Htf4, Htfw. intros Htruthy. by apply Htr4, Htrk3, Htf. }
  split.
  { intros k'. rewrite HVw.
    replace (rank (self w4)) with (rank (self w))
      by by rewrite Hrk4, Hrk3, Hrk2, Hs1.
    replace (options (self w4)) with (options (self w))
      by by rewrite Hop4, Hop3, Hop2, Hs1.
    apply Hseeds. }
  split.
  { destruct Hready2 as ((_ & HW2 & HH2) & _).
    split; [by rewrite HVw|]. split; [by rewrite HW4, HW3 | by rewrite HH4, HH3]. }
  split; [|lia].
  destruct (decide (it = 0)) as [->|]; [|lia].
  destruct Hready2 as (_ & _ & _ & Hmx2' & Htc2' & _).
  rewrite (is_satisfied_at_zero _ mx) in Hexit; done.
Qed.

End TotalRuns.

Section TotalFactorize.
Context {R : Type} {SR : Scalar R}.
Variable initialize :
  nat → Matrix R → Z → gmap string pyval → result (Matrix R * Matrix R).
Variable residuals : Nmf R → R.
Variable callback : option (Mf_fit R → result unit).

Lemma runs_returns fuel k n last m r mcols mx (w : world R) :
  (0 < m)%nat → (0 < r)%nat → (0 < mcols)%nat →
  prepared m mcols mx (self w) → seeds_well initialize m r mcols (self w) →
  (∀ cb f, callback = Some cb → cb f = Ok tt) →
  0 < mx → mx < Z.of_nat fuel → (0 < n)%nat →
  ∃ c it w',
    runs initialize residuals callback fuel k n last w = Returns (Some (c, it)) w'
    ∧ well_shaped m r mcols (self w') ∧ 1 ≤ it ≤ mx.
Proof.
  intros Hm Hr Hn Hprep Hseeds Hcb Hpos Hfuel. revert k last w Hprep Hseeds.
  induction n as [|n IH]; intros k last w Hprep Hseeds Hpos'; [lia|].
  destruct (run_returns initialize residuals callback fuel k m r mcols mx w)
    as (c & it & w1 & Hrun & Hprep1 & Hseeds1 & Hshape1 & Hit); try done.
  simpl. rewrite (bind_returns _ _ _ _ _ Hrun).
  destruct n as [|n].
  - simpl. by exists c, it, w1.
  - apply IH; [done | done | lia].
Qed.

Lemma set_params_keeps F (w : world R) :
  wp F _set_params w
     (λ _ w', V (self w') = V (self w) ∧ rank (self w') = rank (self w)
              ∧ options (self w') = options (self w)).
Proof.
  unfold _set_params.
  apply wp_bind, wp_get, wp_bind, wp_lift. intros name _.
  apply wp_bind, wp_lift. intros u _.
  apply wp_bind, wp_modify, wp_bind, wp_get, wp_bind, wp_lift. intros name' _.
  apply wp_bind, wp_lift. intros o _.
  apply wp_bind, wp_modify, wp_bind, wp_get, wp_bind, wp_modify.
  apply wp_bind, wp_get, wp_bind, wp_modify, wp_bind, wp_get, wp_modify.
  by repeat split.
Qed.

(** X10: [factorize] returns on a well-formed call: a target of m x n,
    seeds of m x r and r x n at every run (all dimensions positive), an
    update name among "euclidean", "divergence", an objective name among
    "fro", "div", a positive [max_iter] with no periodic test, at least one
    run, a callback that does not raise, and factor tracking asked for only
    with several runs or with error tracking.  Given fuel beyond
    [max_iter], no exception is raised; the fitted model holds factors of
    the seeded shapes, an iteration count between 1 and [max_iter], and a
    final objective value. *)
Theorem factorize_returns fuel (m r n : nat) (mx : Z) (w : world R) (u o : string) :
  (0 < m)%nat → (0 < r)%nat → (0 < n)%nat →
  wf m n (V (self w)) →
  seeds_well initialize m r n (self w) →
  (∀ cb f, callback = Some cb → cb f = Ok tt) →
  default (PStr "euclidean") (options (self w) !! "update") = PStr u →
  u ∈ ["euclidean"; "divergence"]%string →
  default (PStr "fro") (options (self w) !! "objective") = PStr o →
  o ∈ ["fro"; "div"]%string →
  max_iter (self w) = Some mx → 0 < mx →
  truthy_int (test_conv (self w)) = false →
  1 ≤ n_run (self w) →
  (truthy (default (PBool false) (options (self w) !! "track_factor")) = true →
   1 < n_run (self w)
   ∨ truthy (default (PBool false) (options (self w) !! "track_error")) = true) →
  mx < Z.of_nat fuel →
  ∃ f w',
    factorize initialize residuals callback fuel w = Returns f w'
    ∧ fit f = self w'
    ∧ well_shaped m r n (self w')
    ∧ ∃ it c, n_iter (self w') = Some it ∧ 1 ≤ it ≤ mx
              ∧ final_obj (self w') = Some c.
Proof.
  intros Hm Hr Hn HV Hseeds Hcb Hu Huin Ho Hoin Hmx Hpos Htc Hruns Htrack Hfuel.
  assert (Hoin' : o ∈ ["fro"; "div"; "conn"]%string).
  { apply elem_of_cons in Hoin as [->|Hoin]; [repeat constructor|].
    apply elem_of_cons in Hoin as [->|Hoin]; [repeat constructor|].
    by apply elem_of_nil in Hoin. }
  destruct (set_params_returns w u o Hu Ho Huin Hoin')
    as (w1 & Hsp & _ & Hobj1 & Hu1 & _).
  pose proof (wp_returns True _ _ _ _ _ (set_params_effect True w) Hsp)
    as (_ & Hn1 & Hmx1 & Htc1 & _ & _ & Htf1 & Hte1 & Htr1).
  pose proof (wp_returns True _ _ _ _ _ (set_params_keeps True w) Hsp)
    as (HV1 & Hrk1 & Hop1).
  assert (Hprep : prepared m n mx (self w1)).
  { split; [by rewrite HV1|]. split; [done|]. split.
    { rewrite Hobj1.
      apply elem_of_cons in Hoin as [->|Hoin]; [by left|].
      apply elem_of_cons in Hoin as [->|Hoin]; [by right|].
      by apply elem_of_nil in Hoin. }
    split; [by rewrite Hmx1|]. split; [by rewrite Htc1|].
    split.
    - intros Hte. rewrite Htr1, Hte. by rewrite orb_true_r.
    - intros Htf. rewrite Htr1, Htf. rewrite Htf1 in Htf.
      destruct (Htrack Htf) as [Hgt|Hte].
      + apply Z.ltb_lt in Hgt. rewrite Hgt. simpl. eauto.
      + rewrite Hte1, Hte. rewrite orb_true_r. eauto. }
  assert (Hseeds1 : seeds_well initialize m r n (self w1)).
  { intros k. rewrite HV1, Hrk1, Hop1. apply Hseeds. }
  destruct (runs_returns fuel 0 (Z.to_nat (n_run (self w1))) None m r n mx w1)
    as (c & it & w2 & Hrun & Hshape2 & Hit); try done.
  { rewrite Hn1. lia. }
  eexists _, _. split.
  { unfold factorize. rewrite (bind_returns _ _ _ _ _ Hsp).
    unfold bind at 1. unfold get at 1.
    rewrite (bind_returns _ _ _ _ _ Hrun). reflexivity. }
  simpl. split; [done|]. split; [done|]. by exists it, c.
Qed.

End TotalFactorize.

(** Three runs of [tracked_instance], with both kinds of tracking on and
    five updates each, return. *)
Lemma factorize_returns_witness :
  ∃ f w',
    factorize limit_seed no_residuals None 10 (fresh tracked_instance)
    = Returns f w'
    ∧ fit f = self w'
    ∧ well_shaped 2 1 2 (self w')
    ∧ ∃ it c, n_iter (self w') = Some it ∧ 1 ≤ it ≤ 5
              ∧ final_obj (self w') = Some c.
Proof.
  apply (factorize_returns limit_seed no_residuals None 10 2 1 2 5
           (fresh tracked_instance) "euclidean" "fro");
    try lia; try reflexivity.
  - split; [reflexivity | repeat constructor].
  - intros k. exists [[1]; [2]]%float, [[0.5; 3]]%float.
    split; [reflexivity|]. split; (split; [reflexivity | repeat constructor]).
  - intros cb f Hcb. discriminate Hcb.
  - repeat constructor.
  - repeat constructor.
  - simpl. lia.
  - intros _. left. simpl. lia.
Defined.

(** ** What a call of [factorize] does, run by run *)

Section Counting.
Context {R : Type} {SR : Scalar R}.
Variable initialize :
  nat → Matrix R → Z → gmap string pyval → result (Matrix R * Matrix R).
Variable residuals : Nmf R → R.
Variable callback : option (Mf_fit R → result unit).

Lemma continues_refl (w : world R) : continues w w.
Proof. exists []. by rewrite app_nil_r. Qed.

Lemma continues_trans (w1 w2 w3 : world R) :
  continues w1 w2 → continues w2 w3 → continues w1 w3.
Proof.
  intros (t1 & H1 & Hf1) (t2 & H2 & Hf2). exists (t1 ++ t2). split.
  - by rewrite H2, H1, app_assoc.
  - by apply Forall_app.
Qed.

Lemma continues_snoc (w w' : world R) e :
  loop_event e = true → trace w' = trace w ++ [e] → continues w w'.
Proof. intros He Ht. exists [e]. split; [done|]. by repeat constructor. Qed.

Lemma loop_events_seedings t :
  Forall (λ e, loop_event e = true) t → seedings t = 0%nat.
Proof.
  induction 1 as [|e t He _ IH]; [done|]. unfold seedings in *.
  rewrite filter_cons. by destruct e.
Qed.

Lemma loop_events_occurrences e0 t :
  loop_event e0 = false →
  Forall (λ e, loop_event e = true) t → occurrences e0 t = 0%nat.
Proof.
  intros He0. induction 1 as [|e t He _ IH]; [done|]. unfold occurrences in *.
  rewrite filter_cons. case_decide; [congruence | done].
Qed.

Lemma seedings_app t1 t2 : seedings (t1 ++ t2) = (seedings t1 + seedings t2)%nat.
Proof. unfold seedings. by rewrite filter_app, length_app. Qed.

Lemma occurrences_app e t1 t2 :
  occurrences e (t1 ++ t2) = (occurrences e t1 + occurrences e t2)%nat.
Proof. unfold occurrences. by rewrite filter_app, length_app. Qed.

Lemma continues_seedings (w w' : world R) :
  continues w w' → seedings (trace w') = seedings (trace w).
Proof.
  intros (t & -> & Ht). rewrite seedings_app, (loop_events_seedings t Ht). lia.
Qed.

Lemma continues_occurrences e (w w' : world R) :
  loop_event e = false → continues w w' →
  occurrences e (trace w') = occurrences e (trace w).
Proof.
  intros He (t & -> & Ht).
  rewrite occurrences_app, (loop_events_occurrences e t He Ht). lia.
Qed.

(** A pass adds events of the loop body only. *)
Lemma pass_continues F (c : R) (i : Z) (w : world R) :
  wp F (pass residuals c i) w (λ _ w', continues w w').
Proof.
  unfold pass. apply wp_bind.
  eapply wp_mono; [apply call_update_effect|].
  intros _ w1 (h & x & _ & Ht1).
  assert (H1 : continues w w1) by by apply (continues_snoc _ _ Updated).
  apply wp_bind, wp_modify, wp_bind, wp_emit, wp_bind, wp_get. simpl.
  set (w2 := {| self := _adjustment (self w1); trace := trace w1 ++ [Adjusted] |}).
  assert (H2 : continues w w2).
  { apply (continues_trans _ w1); [done|]. by apply (continues_snoc _ _ Adjusted). }
  apply wp_bind.
  apply (wp_mono _ _ _ (λ _ w3, continues w w3)).
  { match goal with |- context [if ?b then _ else _] => destruct b end.
    - eapply wp_mono; [apply call_objective_effect|].
      intros v w3 (_ & _ & _ & _ & _ & _ & _ & Ht3).
      apply (continues_trans _ w2); [done|].
      by apply (continues_snoc _ _ Evaluated).
    - by apply wp_ret. }
  intros c' w3 H3. apply wp_bind, wp_get, wp_bind.
  apply (wp_mono _ _ _ (λ _ w4, continues w w4)).
  { destruct (truthy (track_error (self w3))).
    - eapply wp_mono; [apply track_error_effect|].
      intros _ w4 (t & t' & _ & _ & Ht4).
      apply (continues_trans _ w3); [done|].
      by apply (continues_snoc _ _ ErrorTracked).
    - by apply wp_ret. }
  intros _ w4 H4. by apply wp_ret.
Qed.

(** A pass leaves the factors that the tracker holds as they were. *)
Lemma pass_keeps_factors F (c : R) (i : Z) (w : world R) :
  wp F (pass residuals c i) w
     (λ _ w', factors <$> tracker (self w') = factors <$> tracker (self w)).
Proof.
  eapply wp_mono; [apply (pass_detail residuals F c i w)|].
  intros c' w' (_ & _ & Hoff & Hon).
  destruct (truthy (track_error (self w))) eqn:Hte.
  - destruct (Hon eq_refl) as (t & s3 & Ht & Ht' & _). by rewrite Ht, Ht'.
  - by rewrite (Hoff eq_refl).
Qed.

Lemma iterate_continues fuel (p c : R) (i : Z) (w : world R) :
  wp True (iterate residuals fuel p c i) w
     (λ _ w', continues w w'
              ∧ factors <$> tracker (self w') = factors <$> tracker (self w)).
Proof.
  revert p c i w. induction fuel as [|fuel IH]; intros p c i w; [done|].
  simpl. apply wp_bind, wp_get.
  destruct (_is_satisfied (self w) p c i).
  - apply wp_bind.
    eapply wp_mono;
      [apply (wp_conj _ _ _ _ _ (pass_continues True c i w)
                (pass_keeps_factors True c i w))|].
    intros c' w1 [Hc1 Hf1]. simpl.
    eapply wp_mono; [apply IH|].
    intros r w2 [Hc2 Hf2]. split; [by apply (continues_trans _ w1)|].
    by rewrite Hf2.
  - apply wp_ret. split; [apply continues_refl | done].
Qed.

Lemma start_exact F k (w : world R) :
  wp F (start initialize k) w
     (λ _ w', trace w' = trace w ++ [Seeded k; Evaluated]
              ∧ tracker (self w') = tracker (self w)).
Proof.
  unfold start.
  apply wp_bind, wp_get, wp_bind, wp_lift. intros seed _.
  apply wp_bind, wp_modify, wp_bind, wp_modify, wp_bind, wp_emit.
  eapply wp_mono; [apply call_objective_effect|].
  intros v w' (_ & _ & _ & Htr & _ & _ & _ & Ht). simpl in *.
  split; [|done]. by rewrite Ht, <- app_assoc.
Qed.

Lemma notify_exact F c (w : world R) :
  wp F (notify callback c) w
     (λ _ w', trace w' = trace w ++ match callback with Some _ => [CalledBack] | None => [] end
              ∧ tracker (self w') = tracker (self w)
              ∧ W (self w') = W (self w) ∧ H (self w') = H (self w)).
Proof.
  unfold notify. destruct callback as [cb|].
  - apply wp_bind, wp_modify, wp_bind, wp_get, wp_bind, wp_lift. intros _ _.
    apply wp_emit. by repeat split.
  - apply wp_ret. rewrite app_nil_r. by repeat split.
Qed.

Lemma record_factors_exact F (w : world R) :
  wp F record_factors w
     (λ _ w',
        W (self w') = W (self w) ∧ H (self w') = H (self w)
        ∧ if truthy (track_factor (self w))
          then ∃ t, tracker (self w) = Some t
                    ∧ tracker (self w')
                      = Some {| errors := errors t;
                                factors := factors t
                                           ++ [(W (self w), H (self w))] |}
                    ∧ trace w' = trace w ++ [FactorTracked]
          else w' = w).
Proof.
  unfold record_factors. apply wp_bind, wp_get.
  destruct (truthy (track_factor (self w))) eqn:Htf.
  - unfold _track_factor.
    apply wp_bind, wp_get, wp_bind, wp_attribute. intros t Ht.
    apply wp_bind, wp_modify, wp_emit. simpl.
    split; [done|]. split; [done|]. by exists t.
  - by apply wp_ret.
Qed.

Lemma config_track_factor (s s' : Nmf R) :
  config s' = config s → track_factor s' = track_factor s.
Proof. unfold config. intros Hc. by injection Hc. Qed.

(** One run: one seeding, one call of the callback if there is one, and,
    when the factors are tracked, one snapshot of the factors it leaves. *)
Lemma run_counts fuel k (w : world R) :
  wp True (run initialize residuals callback fuel k) w
     (λ _ w',
        config (self w') = config (self w)
        ∧ seedings (trace w') = S (seedings (trace w))
        ∧ occurrences CalledBack (trace w')
          = (occurrences CalledBack (trace w) + match callback with Some _ => 1 | None => 0 end)%nat
        ∧ (truthy (track_factor (self w)) = true →
           ∃ t t', tracker (self w) = Some t ∧ tracker (self w') = Some t'
                   ∧ factors t' = factors t ++ [(W (self w'), H (self w'))])).
Proof.
  unfold run. apply wp_bind.
  eapply wp_mono; [apply wp_conj; [apply start_effect | apply start_exact]|].
  intros c0 w1 [(Hc1 & _) (Ht1 & Htr1)]. apply wp_bind.
  eapply wp_mono;
    [apply wp_conj; [apply iterate_effect | apply iterate_continues]|].
  intros [[p c] it] w2 [(Hc2 & _) (Hcont2 & Hf2)]. simpl. apply wp_bind.
  eapply wp_mono; [apply wp_conj; [apply notify_effect | apply notify_exact]|].
  intros _ w3 [(Hc3 & _) (Ht3 & Htr3 & HW3 & HH3)]. apply wp_bind.
  eapply wp_mono;
    [apply wp_conj; [apply record_factors_effect | apply record_factors_exact]|].
  intros _ w4 [(Hc4 & _) (HW4 & HH4 & Hrec)]. apply wp_ret.
  assert (Hc : config (self w3) = config (self w)) by congruence.
  assert (Hs3 : seedings (trace w3) = S (seedings (trace w))).
  { rewrite Ht3, seedings_app, (continues_seedings _ _ Hcont2), Ht1, seedings_app.
    destruct callback; simpl; unfold seedings; simpl; lia. }
  assert (Ho3 : occurrences CalledBack (trace w3)
                = (occurrences CalledBack (trace w)
                   + match callback with Some _ => 1 | None => 0 end)%nat).
  { rewrite Ht3, occurrences_app,
      (continues_occurrences CalledBack _ _ eq_refl Hcont2), Ht1, occurrences_app.
    destruct callback; simpl; unfold occurrences; simpl; lia. }
  rewrite (config_track_factor _ _ Hc) in Hrec.
  destruct (truthy (track_factor (self w))) eqn:Htf.
  - destruct Hrec as (t3 & Htr3' & Htr4 & Ht4).
    split; [congruence|].
    split; [by rewrite Ht4, seedings_app, Hs3; unfold seedings; simpl; lia|].
    split; [by rewrite Ht4, occurrences_app, Ho3; unfold occurrences; simpl; lia|].
    intros _. rewrite <- Htr3, Htr1, Htr3' in Hf2.
    destruct (tracker (self w)) as [t|]; [|done].
    exists t. eexists. split; [done|]. split; [exact Htr4|].
    simpl in *. rewrite HW4, HH4. by injection Hf2 as <-.
  - subst w4. split; [congruence|]. split; [done|]. split; [done|]. done.
Qed.

Lemma runs_counts fuel k n prev (w : world R) :
  wp True (runs initialize residuals callback fuel k n prev) w
     (λ r w',
        config (self w') = config (self w)
        ∧ (n = 0%nat → r = prev)
        ∧ seedings (trace w') = (seedings (trace w) + n)%nat
        ∧ occurrences CalledBack (trace w')
          = (occurrences CalledBack (trace w)
             + match callback with Some _ => n | None => 0 end)%nat
        ∧ (truthy (track_factor (self w)) = true → (0 < n)%nat →
           ∃ t t' l, tracker (self w) = Some t ∧ tracker (self w') = Some t'
                     ∧ factors t' = factors t ++ l ∧ length l = n
                     ∧ last l = Some (W (self w'), H (self w')))).
Proof.
  revert k prev w. induction n as [|n IH]; intros k prev w.
  - simpl. apply wp_ret. split; [done|]. split; [done|].
    split; [lia|]. split; [by destruct callback; lia|]. lia.
  - simpl. apply wp_bind.
    eapply wp_mono; [apply run_counts|].
    intros r1 w1 (Hc1 & Hs1 & Ho1 & Hf1).
    destruct n as [|n].
    { simpl. apply wp_ret. split; [done|]. split; [lia|]. split; [lia|].
      split; [done|]. intros Htf _.
      destruct (Hf1 Htf) as (t & t1 & Ht & Ht1 & Hfac1).
      by exists t, t1, [(W (self w1), H (self w1))]. }
    eapply wp_mono; [apply IH|].
    intros r w' (Hc' & Hr' & Hs' & Ho' & Hf').
    split; [congruence|]. split; [lia|]. split; [lia|].
    split; [by destruct callback; lia|].
    intros Htf _. destruct (Hf1 Htf) as (t & t1 & Ht & Ht1 & Hfac1).
    rewrite <- (config_track_factor _ _ Hc1) in Htf.
    destruct (Hf' Htf) as (t1' & t' & l & Ht1' & Ht' & Hfac' & Hlen & Hlast);
      [lia|].
    exists t, t', ((W (self w1), H (self w1)) :: l).
    split; [done|]. split; [done|].
    assert (t1' = t1) as -> by congruence.
    split; [by rewrite Hfac', Hfac1, <- app_assoc|].
    split; [simpl; lia|].
    destruct l as [|x l]; [simpl in Hlen; lia|]. done.
Qed.

Lemma factorize_counts fuel (w : world R) :
  wp True (factorize initialize residuals callback fuel) w
     (λ f w',
        fit f = self w'
        ∧ seedings (trace w')
          = (seedings (trace w) + Z.to_nat (n_run (self w)))%nat
        ∧ occurrences CalledBack (trace w')
          = (occurrences CalledBack (trace w)
             + match callback with
               | Some _ => Z.to_nat (n_run (self w))
               | None => 0
               end)%nat
        ∧ (truthy (default (PBool false) (options (self w) !! "track_factor"))
           = true →
           ∃ t, tracker (self w') = Some t
                ∧ length (factors t) = Z.to_nat (n_run (self w))
                ∧ last (factors t) = Some (W (self w'), H (self w')))).
Proof.
  unfold factorize. apply wp_bind.
  eapply wp_mono; [apply set_params_effect|].
  intros _ w1 (Ht1 & Hn1 & _ & _ & _ & _ & Htf1 & _ & Htr1).
  apply wp_bind, wp_get, wp_bind. rewrite Hn1.
  eapply wp_mono; [apply runs_counts|].
  intros r w2 (Hc2 & Hr2 & Hs2 & Ho2 & Hf2).
  destruct r as [[c it]|]; [|done].
  unfold attribute_local. apply wp_bind, wp_ret. cbv beta iota.
  apply wp_bind, wp_modify, wp_bind, wp_modify, wp_bind, wp_get, wp_ret. simpl.
  split; [done|]. rewrite <- Ht1. split; [done|]. split; [done|].
  rewrite <- Htf1. intros Htf.
  destruct (Z.to_nat (n_run (self w))) as [|n] eqn:Hn; [by specialize (Hr2 eq_refl)|].
  destruct (Hf2 Htf) as (t1 & t2 & l & Htr1' & Htr2 & Hfac & Hlen & Hlast); [lia|].
  exists t2. split; [done|].
  rewrite Htr1', Htf in Htr1.
  destruct (_ || _) in Htr1; [|done].
  injection Htr1 as ->. simpl in Hfac. rewrite Hfac. by split.
Qed.

(** X11: when [factorize] returns, the seeding was asked for a pair of
    factors exactly once per run, [n_run] times in all, and the callback,
    if there is one, was called exactly once per run. *)
Theorem factorize_calls_per_run fuel (w : world R) f w' :
  factorize initialize residuals callback fuel w = Returns f w' →
  seedings (trace w') = (seedings (trace w) + Z.to_nat (n_run (self w)))%nat
  ∧ occurrences CalledBack (trace w')
    = (occurrences CalledBack (trace w)
       + match callback with
         | Some _ => Z.to_nat (n_run (self w))
         | None => 0
         end)%nat.
Proof.
  intros Hret.
  pose proof (wp_returns True _ _ _ _ _ (factorize_counts fuel w) Hret)
    as (_ & Hs & Ho & _).
  by split.
Qed.

(** X12: when [factorize] returns and the option track_factor is set, the
    tracker of the fitted model holds exactly one snapshot of the factors
    per run, and the last snapshot is the pair of factors that the fitted
    model holds. *)
Theorem factorize_records_factors fuel (w : world R) f w' :
  truthy (default (PBool false) (options (self w) !! "track_factor")) = true →
  factorize initialize residuals callback fuel w = Returns f w' →
  ∃ t, tracker (fit f) = Some t
       ∧ length (factors t) = Z.to_nat (n_run (self w))
       ∧ last (factors t) = Some (W (fit f), H (fit f)).
Proof.
  intros Htf Hret.
  pose proof (wp_returns True _ _ _ _ _ (factorize_counts fuel w) Hret)
    as (Hfit & _ & _ & Hf).
  rewrite Hfit. by apply Hf.
Qed.

End Counting.

Lemma factorize_calls_per_run_witness :
  factorize limit_seed no_residuals (Some accept) 10 (fresh tracked_instance)
  = Returns {| fit := self tracked_after |} tracked_after
  ∧ seedings (trace tracked_after) = (0 + 3)%nat
  ∧ occurrences CalledBack (trace tracked_after) = (0 + 3)%nat.
Proof.
  assert (Hret : factorize limit_seed no_residuals (Some accept) 10
                   (fresh tracked_instance)
                 = Returns {| fit := self tracked_after |} tracked_after)
    by (vm_compute; reflexivity).
  split; [exact Hret|].
  exact (factorize_calls_per_run limit_seed no_residuals (Some accept) 10
           (fresh tracked_instance) _ _ Hret).
Defined.

Lemma factorize_records_factors_witness :
  factorize limit_seed no_residuals (Some accept) 10 (fresh tracked_instance)
  = Returns {| fit := self tracked_after |} tracked_after
  ∧ ∃ t, tracker (self tracked_after) = Some t
         ∧ length (factors t) = 3%nat
         ∧ last (factors t)
           = Some (W (self tracked_after), H (self tracked_after)).
Proof.
  assert (Hret : factorize limit_seed no_residuals (Some accept) 10
                   (fresh tracked_instance)
                 = Returns {| fit := self tracked_after |} tracked_after)
    by (vm_compute; reflexivity).
  split; [exact Hret|].
  apply (factorize_records_factors limit_seed no_residuals (Some accept) 10
           (fresh tracked_instance) _ _ eq_refl Hret).
Defined.

(** ** The connectivity objective, evaluated again *)

Section ConnectivityAgain.
Context {R : Type} {SR : Scalar R}.

Lemma count_true_ne_self (c : Matrix bool) :
  linalg.count_true (zip_with (zip_with linalg.ne) c c) = 0.
Proof.
  unfold linalg.count_true.
  assert (Hnil : filter (λ b, b = true)
                   (concat (zip_with (zip_with linalg.ne) c c)) = []).
  { induction c as [|r c IH]; [done|]. simpl. rewrite filter_app, IH, app_nil_r.
    induction r as [|b r IHr]; [done|]. simpl. rewrite filter_cons.
    by destruct b. }
  by rewrite Hnil.
Qed.

Lemma elop_self {A B} (X : Matrix A) (op : A → A → B) :
  linalg.elop X X op = Ok (zip_with (zip_with op) X X).
Proof. unfold linalg.elop. by rewrite decide_True. Qed.

(** The connectivity objective assigns to [cons] the connectivity matrix
    of the current [H], and leaves [V] and [H] alone. *)
Lemma conn_objective_exact F (w : world R) :
  wp F conn_objective w
     (λ _ w', ∃ c co,
        linalg.elop
          (linalg.repmat (linalg.argmax0 (H (self w))).2 (ncols (V (self w))) 1)
          (linalg.repmat (transpose (linalg.argmax0 (H (self w))).2) 1
             (ncols (V (self w))))
          linalg.eq = Ok c
        ∧ self w' = set_cons (Some c) (set_consold (Some co) (self w))
        ∧ trace w' = trace w).
Proof.
  unfold conn_objective.
  apply wp_bind, wp_get. destruct (linalg.argmax0 (H (self w))) as [vals idx].
  apply wp_bind, wp_lift. intros c' Hel. apply wp_bind.
  apply (wp_mono _ _ _
           (λ _ w', ∃ co, self w' = set_cons (Some c') (set_consold (Some co) (self w))
                          ∧ trace w' = trace w)).
  - destruct (consold (self w)) as [old|].
    + apply wp_bind, wp_attribute. intros c0 _.
      apply wp_bind, wp_modify, wp_modify. by exists c0.
    + apply wp_bind, wp_attribute. intros c0 _.
      apply wp_bind, wp_lift. intros co _.
      apply wp_bind, wp_modify, wp_modify. by exists co.
  - intros _ w' (co & Hs & Ht).
    apply wp_bind, wp_get, wp_bind, wp_attribute. intros c1 _.
    apply wp_bind, wp_attribute. intros c2 _.
    apply wp_bind, wp_lift. intros d _. apply wp_ret. by exists c', co.
Qed.

(** An evaluation that follows one that returned, with [H] unchanged in
    between, returns 0: the matrix it computes is the one already in
    [cons], which it moves to [consold] before counting the differences. *)
Lemma conn_objective_again (w : world R) v w1 :
  conn_objective w = Returns v w1 →
  ∃ w2, conn_objective w1 = Returns (rof_Z 0) w2
        ∧ cons (self w2) = cons (self w1)
        ∧ consold (self w2) = cons (self w1)
        ∧ trace w2 = trace w1.
Proof.
  intros Hret.
  pose proof (wp_returns True _ _ _ _ _ (conn_objective_exact True w) Hret)
    as (c & co & Hel & Hs & Ht).
  unfold conn_objective, bind, get. rewrite Hs. simpl.
  simpl in Hel. rewrite Hel. simpl. rewrite elop_self. simpl.
  rewrite count_true_ne_self. eexists. split; [reflexivity|]. by rewrite Hs.
Qed.

Lemma connectivity_tabulate r n (Hm V0 : Matrix R) :
  (0 < r)%nat → (0 < n)%nat → wf r n Hm → ncols V0 = n →
  linalg.elop (linalg.repmat (linalg.argmax0 Hm).2 (ncols V0) 1)
              (linalg.repmat (transpose (linalg.argmax0 Hm).2) 1 (ncols V0))
              linalg.eq
  = Ok (tabulate n n (λ i j, Nat.eqb (dominant Hm j) (dominant Hm i))).
Proof.
  intros Hr Hn HH ->. unfold linalg.argmax0. simpl.
  rewrite (wf_ncols r n Hm HH Hr).
  change [(λ j, linalg.argmax_list (column Hm j)) <$> seq 0 n]
    with (tabulate 1 n (λ _ j, dominant Hm j)).
  rewrite repmat_row, transpose_tabulate by lia.
  rewrite repmat_column. by rewrite elop_tabulate.
Qed.

Lemma ones_like_wf m n (c : Matrix bool) :
  wf m n c → ones_like c = tabulate m n (λ _ _, true).
Proof.
  intros [Hm Hn]. subst m. unfold ones_like, tabulate.
  assert (Hrow : ∀ (row : list bool) a,
            (λ _, true) <$> row = (λ _, true) <$> seq a (length row)).
  { induction row as [|b row IH]; intros a; [done|]. simpl. f_equal. apply IH. }
  generalize 0%nat at 2. induction c as [|row c IH]; intros a; [done|].
  apply Forall_cons in Hn as [Hlen Hn]. simpl. f_equal.
  - by rewrite (Hrow row 0%nat), Hlen.
  - by apply IH.
Qed.

Lemma count_true_all m n :
  linalg.count_true (tabulate m n (λ _ _, true)) = Z.of_nat (m * n).
Proof.
  unfold linalg.count_true, tabulate. f_equal.
  assert (Hrow : ∀ l : list nat,
            filter (λ b, b = true) ((λ _, true) <$> l) = (λ _, true) <$> l).
  { induction l as [|j l IH]; [done|].
    rewrite fmap_cons, filter_cons. case_decide; [|exfalso; auto].
    by rewrite IH. }
  assert (Hall : ∀ l : list nat,
            length (filter (λ b, b = true)
                      (concat ((λ _, (λ _ : nat, true) <$> seq 0 n) <$> l)))
            = (length l * n)%nat).
  { induction l as [|i l IH]; [done|].
    rewrite fmap_cons. simpl concat.
    rewrite filter_app, length_app, IH, Hrow, length_fmap, length_seq.
    simpl. lia. }
  by rewrite Hall, length_seq.
Qed.

(** On an instance that has a well-formed n x n [cons], with or without
    [consold], the connectivity objective returns. *)
Lemma conn_objective_returns r n (w : world R) c0 :
  (0 < r)%nat → (0 < n)%nat → wf r n (H (self w)) → ncols (V (self w)) = n →
  cons (self w) = Some c0 → wf n n c0 →
  ∃ v w1, conn_objective w = Returns v w1.
Proof.
  intros Hr Hn HH HV Hc Hc0.
  pose proof (connectivity_tabulate r n (H (self w)) (V (self w)) Hr Hn HH HV)
    as Hel.
  unfold conn_objective, bind, get.
  destruct (linalg.argmax0 (H (self w))) as [vals idx]. simpl in Hel.
  rewrite Hel. simpl.
  destruct (consold (self w)) as [co|]; rewrite Hc; simpl.
  - rewrite (wf_tabulate n n c0 false Hc0), elop_tabulate. simpl. by eexists _, _.
  - rewrite (ones_like_wf n n c0 Hc0), elop_tabulate. simpl.
    rewrite elop_tabulate. simpl. by eexists _, _.
Qed.

(** X13: on an instance that has a well-formed n x n [cons] attribute (no
    instance has one unless it was assigned from outside), with H of r x n
    and a target of n columns, the connectivity objective returns, and an
    evaluation that follows at once, with [H] unchanged, returns 0: the
    matrix it computes is the one already in [cons], which it moves to
    [consold] before counting the differences. *)
Theorem conn_objective_repeated r n (w : world R) c0 :
  (0 < r)%nat → (0 < n)%nat → wf r n (H (self w)) → ncols (V (self w)) = n →
  cons (self w) = Some c0 → wf n n c0 →
  ∃ v w1 w2,
    conn_objective w = Returns v w1
    ∧ conn_objective w1 = Returns (rof_Z 0) w2
    ∧ cons (self w2) = cons (self w1)
    ∧ consold (self w2) = cons (self w1).
Proof.
  intros Hr Hn HH HV Hc Hc0.
  destruct (conn_objective_returns r n w c0) as (v & w1 & Hret); try done.
  destruct (conn_objective_again w v w1 Hret) as (w2 & Hret2 & Hc2 & Hco2 & _).
  by exists v, w1, w2.
Qed.

(** X14: on an instance that has both a well-formed n x n [cons] and a
    [consold] attribute (no instance has them unless they were assigned
    from outside), with H of r x n and a target of n columns, the
    connectivity objective moves [cons] to [consold], leaves in [cons] the
    n x n connectivity matrix of [H], whose element (i, j) tells whether
    samples i and j have the same dominant component, and returns the
    number of elements in which the new matrix differs from the previous
    one.  [H] is left as it was. *)
Theorem conn_objective_connectivity r n (w : world R) c0 co :
  (0 < r)%nat → (0 < n)%nat → wf r n (H (self w)) → ncols (V (self w)) = n →
  cons (self w) = Some c0 → wf n n c0 → consold (self w) = Some co →
  let same i j := Nat.eqb (dominant (H (self w)) j) (dominant (H (self w)) i) in
  let changed i j := xorb (same i j) (default false (entry c0 i j)) in
  ∃ w', conn_objective w
        = Returns (rof_Z (linalg.count_true (tabulate n n changed))) w'
        ∧ cons (self w') = Some (tabulate n n same)
        ∧ consold (self w') = Some c0
        ∧ H (self w') = H (self w).
Proof.
  intros Hr Hn HH HV Hc Hc0 Hco same changed. subst same changed.
  pose proof (connectivity_tabulate r n (H (self w)) (V (self w)) Hr Hn HH HV)
    as Hel.
  pose proof (elop_tabulate n n
                (λ i j, Nat.eqb (dominant (H (self w)) j)
                                (dominant (H (self w)) i))
                (λ i j, default false (entry c0 i j)) linalg.ne) as Hne.
  rewrite <- (wf_tabulate n n c0 false Hc0) in Hne.
  unfold conn_objective, bind, get.
  destruct (linalg.argmax0 (H (self w))) as [vals idx]. simpl in Hel.
  rewrite Hel. simpl. rewrite Hco, Hc. simpl. rewrite Hne. simpl.
  eexists. split; [reflexivity|]. simpl. by repeat split.
Qed.

(** X15: on an instance that has a well-formed n x n [cons] and no
    [consold], the evaluation of the connectivity objective returns n * n:
    it sets [consold] to the complement of the connectivity matrix it
    computes, so that every element counts as changed. *)
Theorem conn_objective_first_counts_all r n (w : world R) c0 :
  (0 < r)%nat → (0 < n)%nat → wf r n (H (self w)) → ncols (V (self w)) = n →
  consold (self w) = None → cons (self w) = Some c0 → wf n n c0 →
  ∃ w', conn_objective w = Returns (rof_Z (Z.of_nat (n * n))) w'
        ∧ consold (self w')
          = Some (tabulate n n
                    (λ i j, negb (Nat.eqb (dominant (H (self w)) j)
                                          (dominant (H (self w)) i)))).
Proof.
  intros Hr Hn HH HV Hco Hc Hc0.
  pose proof (connectivity_tabulate r n (H (self w)) (V (self w)) Hr Hn HH HV)
    as Hel.
  unfold conn_objective, bind, get.
  destruct (linalg.argmax0 (H (self w))) as [vals idx]. simpl in Hel.
  rewrite Hel. simpl. rewrite Hco, Hc. simpl.
  rewrite (ones_like_wf n n c0 Hc0), elop_tabulate. simpl.
  rewrite elop_tabulate. simpl.
  rewrite (tabulate_ext n n _ (λ _ _, true)).
  2:{ intros i j _ _. unfold linalg.ne, linalg.bool_sub.
      by destruct (Nat.eqb _ _). }
  rewrite count_true_all. eexists. split; reflexivity.
Qed.

End ConnectivityAgain.

Lemma conn_objective_repeated_witness :
  ∃ v w1 w2,
    conn_objective conn_ready = Returns v w1
    ∧ conn_objective w1 = Returns (rof_Z 0) w2
    ∧ cons (self w2) = cons (self w1)
    ∧ consold (self w2) = cons (self w1).
Proof.
  apply (conn_objective_repeated 2 3 conn_ready (tabulate 3 3 (λ _ _, true)));
    [lia | lia | split; [reflexivity | repeat constructor] | reflexivity
    | reflexivity | apply tabulate_wf].
Defined.

(** [conn_once] has both attributes: the evaluation moves its [cons] to
    [consold] and, the connectivity being what it was, counts no change. *)
Lemma conn_objective_connectivity_witness :
  let same i j := Nat.eqb (dominant (H (self conn_once)) j)
                          (dominant (H (self conn_once)) i) in
  let changed i j :=
    xorb (same i j)
         (default false
            (entry [[true; true; false]; [true; true; false];
                    [false; false; true]] i j)) in
  ∃ w', conn_objective conn_once
        = Returns (rof_Z (linalg.count_true (tabulate 3 3 changed))) w'
        ∧ cons (self w') = Some (tabulate 3 3 same)
        ∧ consold (self w')
          = Some [[true; true; false]; [true; true; false];
                  [false; false; true]]
        ∧ H (self w') = H (self conn_once).
Proof.
  apply (conn_objective_connectivity 2 3 conn_once
           [[true; true; false]; [true; true; false]; [false; false; true]]
           [[false; false; true]; [false; false; true]; [true; true; false]]);
    [lia | lia | split; [reflexivity | repeat constructor] | reflexivity
    | reflexivity | split; [reflexivity | repeat constructor] | reflexivity].
Defined.

Lemma conn_objective_first_counts_all_witness :
  ∃ w', conn_objective conn_ready = Returns (rof_Z (Z.of_nat (3 * 3))) w'
        ∧ consold (self w')
          = Some (tabulate 3 3
                    (λ i j, negb (Nat.eqb (dominant (H (self conn_ready)) j)
                                          (dominant (H (self conn_ready)) i)))).
Proof.
  apply (conn_objective_first_counts_all 2 3 conn_ready
           (tabulate 3 3 (λ _ _, true)));
    [lia | lia | split; [reflexivity | repeat constructor] | reflexivity
    | reflexivity | reflexivity | apply tabulate_wf].
Defined.
